(** * lichess-mcp: the OpenAPI / implemented-endpoints reconciliation server

    A shallow embedding of [mcp/lichess-mcp/server.py] and the properties of
    its query, diff and coverage tools.

    Conventions of the embedding.
    - Python [str] values are Rocq [string]s holding the UTF-8 bytes of the
      text.  [str.upper] and [str.lower] are given on ASCII text: they act on
      the letters a-z / A-Z; [str.lower] also knows the Kelvin sign U+212A,
      the one character outside ASCII that it maps to an ASCII letter.  The
      order used by [sorted] is the byte-wise lexicographic order, which is
      the code-point order of Python.
    - A parsed JSON document is a [json] tree.  [JNull] is Python's [None];
      an object is kept as the sequence of its members in document order and
      is read through [dict_of_pairs], which is how [json.loads] builds the
      insertion-ordered [dict] (a repeated member name keeps its first
      position and its last value).
    - Code that can raise returns [res]; the exception is named.
    - The file system, the JSON decoder and the module-level configuration
      are explicit arguments ([World], [Config]). *)

From Stdlib Require Import String Ascii List Bool Arith Lia ZArith.
From Stdlib Require Import Permutation Sorted.
Import ListNotations.

Open Scope list_scope.
Open Scope string_scope.

Set Implicit Arguments.

(* ------------------------------------------------------------------ *)
(** ** Exceptions and the result monad *)

Inductive exn : Type :=
| AttributeError
| TypeError
| ValueError
| KeyError
| OSError
| JSONDecodeError.

Inductive res (A : Type) : Type :=
| Ok (a : A)
| Raise (e : exn).

Arguments Ok {A} a.
Arguments Raise {A} e.

Definition bind {A B} (m : res A) (k : A -> res B) : res B :=
  match m with
  | Ok a => k a
  | Raise e => Raise e
  end.

Notation "x <- m ;; k" := (bind m (fun x => k))
  (at level 61, m at next level, right associativity).

(* ------------------------------------------------------------------ *)
(** ** Strings *)

Definition is_lower (c : ascii) : bool :=
  let n := nat_of_ascii c in (97 <=? n)%nat && (n <=? 122)%nat.

Definition is_upper (c : ascii) : bool :=
  let n := nat_of_ascii c in (65 <=? n)%nat && (n <=? 90)%nat.

Definition upper_char (c : ascii) : ascii :=
  if is_lower c then ascii_of_nat (nat_of_ascii c - 32) else c.

Definition lower_char (c : ascii) : ascii :=
  if is_upper c then ascii_of_nat (nat_of_ascii c + 32) else c.

Fixpoint map_string (f : ascii -> ascii) (s : string) : string :=
  match s with
  | EmptyString => EmptyString
  | String c t => String (f c) (map_string f t)
  end.

(** Text all of whose bytes are ASCII. *)
Fixpoint is_ascii (s : string) : bool :=
  match s with
  | EmptyString => true
  | String c t => (nat_of_ascii c <? 128)%nat && is_ascii t
  end.

(** The three UTF-8 bytes of the Kelvin sign U+212A. *)
Definition kelvin_1 : ascii := ascii_of_nat 226.
Definition kelvin_2 : ascii := ascii_of_nat 132.
Definition kelvin_3 : ascii := ascii_of_nat 170.

Definition kelvin_sign : string :=
  String kelvin_1 (String kelvin_2 (String kelvin_3 EmptyString)).

(** [str.upper]: a-z become A-Z (the Kelvin sign is its own uppercase). *)
Definition upper (s : string) : string := map_string upper_char s.

(** [str.lower]: A-Z become a-z and the Kelvin sign becomes k. *)
Fixpoint lower (s : string) : string :=
  match s with
  | EmptyString => EmptyString
  | String c1 t1 =>
      match t1 with
      | String c2 (String c3 t3) =>
          if Ascii.eqb c1 kelvin_1 && Ascii.eqb c2 kelvin_2
             && Ascii.eqb c3 kelvin_3
          then String "k" (lower t3)
          else String (lower_char c1) (lower t1)
      | _ => String (lower_char c1) (lower t1)
      end
  end.


(** [s.split(sep)] *)
Fixpoint split_on (sep : ascii) (s : string) : list string :=
  match s with
  | EmptyString => [EmptyString]
  | String c t =>
      if Ascii.eqb c sep then EmptyString :: split_on sep t
      else match split_on sep t with
           | h :: r => String c h :: r
           | [] => [String c EmptyString]
           end
  end.

Fixpoint ends_with (c : ascii) (s : string) : bool :=
  match s with
  | EmptyString => false
  | String c' EmptyString => Ascii.eqb c' c
  | String _ t => ends_with c t
  end.

(** [needle in hay] on two strings: substring test. *)
Fixpoint is_substring (needle hay : string) : bool :=
  if prefix needle hay then true
  else match hay with
       | EmptyString => false
       | String _ t => is_substring needle t
       end.

(** [s.split(" ", 1)]: the text before and after the first space, when there
    is one. *)
Fixpoint split_space (s : string) : option (string * string) :=
  match s with
  | EmptyString => None
  | String c t =>
      if Ascii.eqb c " " then Some (EmptyString, t)
      else match split_space t with
           | Some (a, b) => Some (String c a, b)
           | None => None
           end
  end.

(* ------------------------------------------------------------------ *)
(** ** Insertion-ordered dictionaries *)

Section Dict.
Variable V : Type.

Definition dict := list (string * V).

Fixpoint dict_get (k : string) (d : dict) : option V :=
  match d with
  | [] => None
  | (k', v) :: r => if String.eqb k k' then Some v else dict_get k r
  end.

Definition dict_mem (k : string) (d : dict) : bool :=
  match dict_get k d with Some _ => true | None => false end.

(** [d[k] = v]: an existing key keeps its position. *)
Fixpoint dict_set (k : string) (v : V) (d : dict) : dict :=
  match d with
  | [] => [(k, v)]
  | (k', v') :: r =>
      if String.eqb k k' then (k, v) :: r else (k', v') :: dict_set k v r
  end.

(** The assignments [d[k] = v] of [l], from left to right. *)
Definition insert_all (l : list (string * V)) (d : dict) : dict :=
  fold_left (fun d kv => dict_set (fst kv) (snd kv) d) l d.

(** The dictionary obtained by inserting the pairs from left to right. *)
Definition dict_of_pairs (l : list (string * V)) : dict :=
  insert_all l [].

Definition dict_keys (d : dict) : list string := map fst d.
End Dict.

(* ------------------------------------------------------------------ *)
(** ** JSON values as Python sees them *)

#[warnings="-register-all"]
Inductive json : Type :=
| JNull
| JBool (b : bool)
| JNum (n : Z)
| JStr (s : string)
| JArr (l : list json)
| JObj (members : list (string * json)).

(** Python truthiness. *)
Definition truthy (j : json) : bool :=
  match j with
  | JNull => false
  | JBool b => b
  | JNum n => negb (Z.eqb n 0)
  | JStr s => negb (String.eqb s "")
  | JArr l => match l with [] => false | _ => true end
  | JObj m => match m with [] => false | _ => true end
  end.

(** [d.items()] of a decoded object. *)
Definition py_items (members : list (string * json)) : dict json :=
  dict_of_pairs members.

(** [x.get(k)] : only a [dict] has the attribute. *)
Definition py_get (x : json) (k : string) : res json :=
  match x with
  | JObj m => match dict_get k (py_items m) with
              | Some v => Ok v
              | None => Ok JNull
              end
  | _ => Raise AttributeError
  end.

(** [x.get(k, dflt)]. *)
Definition py_get_default (x : json) (k : string) (dflt : json) : res json :=
  match x with
  | JObj m => match dict_get k (py_items m) with
              | Some v => Ok v
              | None => Ok dflt
              end
  | _ => Raise AttributeError
  end.

Definition is_JStr (s : string) (j : json) : bool :=
  match j with
  | JStr s' => String.eqb s s'
  | _ => false
  end.

(** [k in x] for a string [k]: key membership in a dict, element membership
    in a list, substring test in a string; anything else is not iterable. *)
Definition py_contains (k : string) (x : json) : res bool :=
  match x with
  | JObj m => Ok (dict_mem k (py_items m))
  | JArr l => Ok (existsb (is_JStr k) l)
  | JStr s => Ok (is_substring k s)
  | _ => Raise TypeError
  end.

(** [x[k]] for a string [k]. *)
Definition py_index (x : json) (k : string) : res json :=
  match x with
  | JObj m => match dict_get k (py_items m) with
              | Some v => Ok v
              | None => Raise KeyError
              end
  | _ => Raise TypeError
  end.

(** [x.items()]. *)
Definition py_items_of (x : json) : res (dict json) :=
  match x with
  | JObj m => Ok (py_items m)
  | _ => Raise AttributeError
  end.

(** [x.keys()]. *)
Definition py_keys (x : json) : res (list string) :=
  match x with
  | JObj m => Ok (dict_keys (py_items m))
  | _ => Raise AttributeError
  end.

(* ------------------------------------------------------------------ *)
(** ** Loops that append *)

(** [for x in xs: ...] where an iteration appends one element, or moves on
    ([continue], or a guard that fails), or raises. *)
Fixpoint for_collect {X A} (body : X -> res (option A)) (xs : list X)
  : res (list A) :=
  match xs with
  | [] => Ok []
  | x :: r =>
      o <- body x ;;
      rest <- for_collect body r ;;
      Ok (match o with Some a => a :: rest | None => rest end)
  end.

(** An outer loop whose iterations each append a run of elements. *)
Fixpoint for_concat {X A} (body : X -> res (list A)) (xs : list X)
  : res (list A) :=
  match xs with
  | [] => Ok []
  | x :: r =>
      l <- body x ;;
      rest <- for_concat body r ;;
      Ok (l ++ rest)%list
  end.

(* ------------------------------------------------------------------ *)
(** ** [sorted(l, key=...)] and sets of strings *)

Section Sorting.
Variable A : Type.
Variable key : A -> string.

Fixpoint insert_by (x : A) (l : list A) : list A :=
  match l with
  | [] => [x]
  | y :: r =>
      if String.leb (key x) (key y) then x :: l else y :: insert_by x r
  end.

(** Stable: among equal keys the earlier element stays first. *)
Fixpoint sorted_by (l : list A) : list A :=
  match l with
  | [] => []
  | x :: r => insert_by x (sorted_by r)
  end.

(** The order of the keys. *)
Definition key_le (x y : A) : Prop := String.leb (key x) (key y) = true.
End Sorting.

Definition sorted (l : list string) : list string := sorted_by (fun s => s) l.

Definition str_mem (s : string) (l : list string) : bool :=
  existsb (String.eqb s) l.

(** [out.add(s)]. *)
Definition set_add (s : string) (out : list string) : list string :=
  if str_mem s out then out else (out ++ [s])%list.

(** [a - b] on sets. *)
Definition set_diff (a b : list string) : list string :=
  filter (fun s => negb (str_mem s b)) a.

(* ------------------------------------------------------------------ *)
(** ** The two regular expressions

    Both patterns are deterministic: each greedy run is followed by a
    character outside the run's class, so the leftmost match found by [re]
    is the one found by reading greedily without backtracking. *)

(** The longest prefix free of [stop], and what follows it. *)
Fixpoint span_not (stop : ascii) (s : string) : string * string :=
  match s with
  | EmptyString => (EmptyString, EmptyString)
  | String c t =>
      if Ascii.eqb c stop then (EmptyString, s)
      else let (a, b) := span_not stop t in (String c a, b)
  end.

(** Whether a closing brace occurs in [s]. *)
Fixpoint has_close (s : string) : bool :=
  match s with
  | EmptyString => false
  | String c t => Ascii.eqb c "}" || has_close t
  end.

Definition expect (c : ascii) (s : string) : option string :=
  match s with
  | String c' t => if Ascii.eqb c c' then Some t else None
  | EmptyString => None
  end.

(** A match of [\{[^}]+\}] at the start of [s]: the text after it. *)
Definition match_placeholder (s : string) : option string :=
  match expect "{" s with
  | Some t =>
      match span_not "}" t with
      | (String _ _, r) => expect "}" r
      | (EmptyString, _) => None
      end
  | None => None
  end.

(** [re.sub(r'\{[^}]+\}', '{param}', s)]: matches are looked for from left
    to right and do not overlap.  [fuel] bounds the number of positions
    tried. *)
Fixpoint sub_placeholders (fuel : nat) (s : string) : string :=
  match fuel with
  | O => s
  | S f =>
      match s with
      | EmptyString => EmptyString
      | String c t =>
          match match_placeholder s with
          | Some rest => "{param}" ++ sub_placeholders f rest
          | None => String c (sub_placeholders f t)
          end
      end
  end.

Definition _normalize_path (path : string) : string :=
  sub_placeholders (String.length path) path.

(** [\s] on ASCII text. *)
Definition is_space (c : ascii) : bool :=
  let n := nat_of_ascii c in
  ((9 <=? n)%nat && (n <=? 13)%nat) || ((28 <=? n)%nat && (n <=? 32)%nat).

Fixpoint skip_ws (s : string) : string :=
  match s with
  | String c t => if is_space c then skip_ws t else s
  | EmptyString => s
  end.

Definition dquote : ascii := ascii_of_nat 34.

Definition obind {A B} (o : option A) (k : A -> option B) : option B :=
  match o with
  | Some a => k a
  | None => None
  end.

Fixpoint strip_prefix (p s : string) : option string :=
  match p with
  | EmptyString => Some s
  | String c p' => obind (expect c s) (strip_prefix p')
  end.

(** A quote, one or more characters other than a quote (the captured group),
    a quote. *)
Definition quoted_group (s : string) : option (string * string) :=
  obind (expect dquote s) (fun t =>
    match span_not dquote t with
    | (String c g, r) =>
        obind (expect dquote r) (fun r' => Some (String c g, r'))
    | (EmptyString, _) => None
    end).

Definition endpoint_tuple : Type := string * string * string * string.

(** A match of
    [new\s*\(\s*"([^"]+)"\s*,\s*"([^"]+)"\s*,\s*"([^"]+)"\s*,\s*"([^"]+)"\s*\)]
    at the start of [s]: the four groups and the text after the match. *)
Definition match_endpoint (s : string) : option (endpoint_tuple * string) :=
  obind (strip_prefix "new" s) (fun s =>
  obind (expect "(" (skip_ws s)) (fun s =>
  obind (quoted_group (skip_ws s)) (fun '(g0, s) =>
  obind (expect "," (skip_ws s)) (fun s =>
  obind (quoted_group (skip_ws s)) (fun '(g1, s) =>
  obind (expect "," (skip_ws s)) (fun s =>
  obind (quoted_group (skip_ws s)) (fun '(g2, s) =>
  obind (expect "," (skip_ws s)) (fun s =>
  obind (quoted_group (skip_ws s)) (fun '(g3, s) =>
  obind (expect ")" (skip_ws s)) (fun s =>
  Some ((g0, g1, g2, g3), s))))))))))).

(** [re.findall(pattern, content)]. *)
Fixpoint findall_endpoints (fuel : nat) (s : string) : list endpoint_tuple :=
  match fuel with
  | O => []
  | S f =>
      match s with
      | EmptyString => []
      | String _ t =>
          match match_endpoint s with
          | Some (m, rest) => m :: findall_endpoints f rest
          | None => findall_endpoints f t
          end
      end
  end.

Definition re_findall_endpoints (content : string) : list endpoint_tuple :=
  findall_endpoints (String.length content) content.

(* ------------------------------------------------------------------ *)
(** ** The world outside the module *)

Record World : Type := {
  (** [Path.exists()], for a path that [os.stat] can look up (see
      [exists_checked] for the paths built from the caller's input) *)
  path_exists : string -> bool;
  (** [Path.read_text(encoding="utf-8")] *)
  read_text : string -> res string;
  (** [json.loads(path.read_text(encoding="utf-8"))]: reading and decoding
      belong to the world; a file that cannot be read or is not JSON raises. *)
  load_json : string -> res json
}.

(** The constants the module computes from [mcp.json] when it is loaded. *)
Record Config : Type := {
  OPENAPI_PATH : string;
  SNAPSHOTS_DIR : string;
  IMPLEMENTED_ENDPOINTS_PATH : string
}.

(** The components pathlib keeps of a relative [name]: empty components and
    single dots are dropped, so [a//b] and [a/./b] are [a/b]. *)
Definition path_parts (name : string) : list string :=
  filter (fun c => negb (String.eqb c "" || String.eqb c "."))
         (split_on "/" name).

(** [str(dir / name)] for the text [dir] of an absolute path and a relative
    [name]. *)
Definition path_join (dir name : string) : string :=
  fold_left (fun acc c => if ends_with "/" acc then acc ++ c
                          else acc ++ "/" ++ c)
            (path_parts name) dir.

(** The longest file name and the longest path the file system takes, in
    bytes (Linux; the path limit counts the terminating zero byte). *)
Definition NAME_MAX : nat := 255.
Definition PATH_MAX : nat := 4096.

Definition name_too_long (path : string) : bool :=
  (PATH_MAX <=? String.length path)%nat
  || existsb (fun c => (NAME_MAX <? String.length c)%nat) (split_on "/" path).

(** [path.exists()] on a path built from the caller's input: [os.stat]
    refuses a component longer than [NAME_MAX], or a path of [PATH_MAX]
    bytes or more, with ENAMETOOLONG, an [OSError] that [exists] lets
    through; otherwise the world answers.  The module's own paths are taken
    to be within the limits, and the directories of the world to be
    searchable. *)
Definition exists_checked (w : World) (path : string) : res bool :=
  if name_too_long path then Raise OSError else Ok (path_exists w path).

Definition _load_openapi (w : World) (path : string) : res json :=
  load_json w path.

Definition _op_key (method path : string) : string :=
  upper method ++ " " ++ path.

Definition METHODS : list string :=
  ["get"; "post"; "put"; "delete"; "patch"; "head"; "options"].

(** The [paths] dictionary of a document of the expected shape: an object
    whose [paths] member, when it has one, is an object. *)
Definition spec_paths (spec : json) : option (dict json) :=
  match spec with
  | JObj top =>
      match dict_get "paths" (py_items top) with
      | Some (JObj ps) => Some (py_items ps)
      | Some _ => None
      | None => Some []
      end
  | _ => None
  end.

(* ------------------------------------------------------------------ *)
(** ** [get_operation] *)

Record OperationDetails : Type := {
  od_key : string;
  od_summary : json;
  od_description : json;
  od_tags : json;
  od_deprecated : bool;
  od_parameters : json;
  od_requestBody : json;
  od_responseCodes : list string
}.

Inductive OperationResult : Type :=
| OpNotFound (error : string)          (* {"found": False, "error": ...} *)
| OpFound (details : OperationDetails) (* {"found": True, ...} *).

Definition get_operation (cfg : Config) (w : World) (method path : string)
  : res OperationResult :=
  spec <- _load_openapi w (OPENAPI_PATH cfg) ;;
  paths <- py_get_default spec "paths" (JObj []) ;;
  path_item <- py_get paths path ;;
  if negb (truthy path_item) then
    Ok (OpNotFound ("Path not found: " ++ path))
  else
    op <- py_get path_item (lower method) ;;
    if negb (truthy op) then
      Ok (OpNotFound ("Method not found: " ++ upper method ++ " " ++ path))
    else
      responses <- py_get_default op "responses" (JObj []) ;;
      codes <- py_keys responses ;;
      let response_codes := sorted codes in
      summary <- py_get op "summary" ;;
      description <- py_get op "description" ;;
      tags <- py_get_default op "tags" (JArr []) ;;
      deprecated <- py_get_default op "deprecated" (JBool false) ;;
      parameters <- py_get_default op "parameters" (JArr []) ;;
      requestBody <- py_get op "requestBody" ;;
      Ok (OpFound {| od_key := _op_key method path;
                     od_summary := summary;
                     od_description := description;
                     od_tags := tags;
                     od_deprecated := truthy deprecated;
                     od_parameters := parameters;
                     od_requestBody := requestBody;
                     od_responseCodes := response_codes |}).

(* ------------------------------------------------------------------ *)
(** ** [list_operations] *)

Record OperationSummary : Type := {
  os_key : string;
  os_summary : json;
  os_tags : json;
  os_deprecated : bool
}.

Record OperationList : Type := {
  count : nat;
  operations : list OperationSummary
}.

(** [(not include_deprecated) and op.get("deprecated", False)]: the lookup
    is not evaluated when deprecated operations are wanted. *)
Definition skip_deprecated (include_deprecated : bool) (op : json) : res bool :=
  if negb include_deprecated then
    d <- py_get_default op "deprecated" (JBool false) ;; Ok (truthy d)
  else Ok false.

(** [tag and tag not in tags] *)
Definition tag_excluded (tag : option string) (tags : json) : res bool :=
  match tag with
  | None => Ok false
  | Some t =>
      if String.eqb t "" then Ok false
      else c <- py_contains t tags ;; Ok (negb c)
  end.

(** One iteration of the inner loop of [list_operations]. *)
Definition list_operations_step
    (tag : option string) (include_deprecated : bool)
    (p : string) (item : json) (method : string)
  : res (option OperationSummary) :=
  present <- py_contains method item ;;
  if present then
    op <- py_index item method ;;
    skip <- skip_deprecated include_deprecated op ;;
    if skip then Ok None
    else
      tags <- py_get_default op "tags" (JArr []) ;;
      excl <- tag_excluded tag tags ;;
      if excl then Ok None
      else
        summary <- py_get op "summary" ;;
        deprecated <- py_get_default op "deprecated" (JBool false) ;;
        Ok (Some {| os_key := _op_key method p;
                    os_summary := summary;
                    os_tags := tags;
                    os_deprecated := truthy deprecated |})
  else Ok None.

Definition list_operations (cfg : Config) (w : World)
    (tag : option string) (include_deprecated : bool) : res OperationList :=
  spec <- _load_openapi w (OPENAPI_PATH cfg) ;;
  paths <- py_get_default spec "paths" (JObj []) ;;
  items <- py_items_of paths ;;
  ops <- for_concat
           (fun '(p, item) =>
              for_collect (list_operations_step tag include_deprecated p item)
                          METHODS)
           items ;;
  let ops := sorted_by os_key ops in
  Ok {| count := List.length ops; operations := ops |}.

(* ------------------------------------------------------------------ *)
(** ** [diff_openapi_versions] *)

Inductive DiffResult : Type :=
| DiffError (error : string)   (* {"ok": False, "error": ...} *)
| DiffOk (from to : string) (added removed : list string).

Definition snapshot_path (cfg : Config) (version : string) : string :=
  path_join (SNAPSHOTS_DIR cfg) ("lichess.openapi." ++ version ++ ".json").

(** The local function [collect]. *)
Definition collect (spec : json) : res (list string) :=
  paths <- py_get_default spec "paths" (JObj []) ;;
  items <- py_items_of paths ;;
  keys <- for_concat
            (fun '(p, item) =>
               methods <- py_keys item ;;
               Ok (map (fun method => _op_key method p) methods))
            items ;;
  Ok (fold_left (fun out k => set_add k out) keys []).

Definition diff_openapi_versions (cfg : Config) (w : World)
    (from_version to_version : string) : res DiffResult :=
  let a := snapshot_path cfg from_version in
  let b := snapshot_path cfg to_version in
  a_exists <- exists_checked w a ;;
  if negb a_exists then
    Ok (DiffError ("Snapshot not found: " ++ a))
  else
    b_exists <- exists_checked w b ;;
    if negb b_exists then
      Ok (DiffError ("Snapshot not found: " ++ b))
    else
      spec_a <- _load_openapi w a ;;
      spec_b <- _load_openapi w b ;;
      ops_a <- collect spec_a ;;
      ops_b <- collect spec_b ;;
      let added := sorted (set_diff ops_b ops_a) in
      let removed := sorted (set_diff ops_a ops_b) in
      Ok (DiffOk from_version to_version added removed).

(* ------------------------------------------------------------------ *)
(** ** [_parse_implemented_endpoints] *)

Record ImplementedInfo : Type := {
  ii_api : string;
  ii_method : string;
  ii_path : string
}.

Definition implemented_entry (m : endpoint_tuple) : string * ImplementedInfo :=
  let '(m0, m1, m2, m3) := m in
  ((m0 ++ " " ++ m1)%string,
   {| ii_api := m2; ii_method := m3; ii_path := m1 |}).

Definition _parse_implemented_endpoints (cfg : Config) (w : World)
  : res (dict ImplementedInfo) :=
  if negb (path_exists w (IMPLEMENTED_ENDPOINTS_PATH cfg)) then Ok []
  else
    content <- read_text w (IMPLEMENTED_ENDPOINTS_PATH cfg) ;;
    let matches := re_findall_endpoints content in
    Ok (dict_of_pairs (map implemented_entry matches)).

(* ------------------------------------------------------------------ *)
(** ** [get_coverage_gaps] *)

Record OpenApiOp : Type := {
  oa_key : string;
  oa_path : string;
  oa_method : string;
  oa_summary : json;
  oa_tags : json;
  oa_deprecated : bool;
  oa_normalizedPath : string
}.

Record MissingEntry : Type := {
  me_key : string;
  me_summary : json;
  me_tags : json;
  me_deprecated : bool
}.

Record PathVariation : Type := {
  pv_openapi : string;
  pv_implemented : string;
  pv_summary : json;
  pv_tags : json
}.

Record ExtraEntry : Type := {
  ex_key : string;
  ex_api : string;
  ex_method : string
}.

Record Stats : Type := {
  openApiTotal : nat;
  implementedTotal : nat;
  missingCount : nat;
  pathVariationsCount : nat;
  extraCount : nat
}.

Record CoverageGaps : Type := {
  stats : Stats;
  missing : list MissingEntry;
  pathVariations : list PathVariation;
  extra : list ExtraEntry
}.

(** One iteration of the inner loop that collects the OpenAPI operations. *)
Definition openapi_ops_step (include_deprecated : bool)
    (p : string) (item : json) (method : string)
  : res (option (string * OpenApiOp)) :=
  present <- py_contains method item ;;
  if present then
    op <- py_index item method ;;
    skip <- skip_deprecated include_deprecated op ;;
    if skip then Ok None
    else
      let key := _op_key method p in
      summary <- py_get op "summary" ;;
      tags <- py_get_default op "tags" (JArr []) ;;
      deprecated <- py_get_default op "deprecated" (JBool false) ;;
      Ok (Some (key, {| oa_key := key;
                        oa_path := p;
                        oa_method := upper method;
                        oa_summary := summary;
                        oa_tags := tags;
                        oa_deprecated := truthy deprecated;
                        oa_normalizedPath := _normalize_path p |}))
  else Ok None.

(** The dictionary [openapi_ops] built by the first loop. *)
Definition collect_openapi_ops (include_deprecated : bool) (spec : json)
  : res (dict OpenApiOp) :=
  paths <- py_get_default spec "paths" (JObj []) ;;
  items <- py_items_of paths ;;
  assignments <- for_concat
           (fun '(p, item) =>
              for_collect (openapi_ops_step include_deprecated p item) METHODS)
           items ;;
  Ok (dict_of_pairs assignments).

(** [method, path = key.split(" ", 1)] then
    [f"{method} {_normalize_path(path)}"]. *)
Definition normalized_impl_key (key : string) : res string :=
  match split_space key with
  | Some (method, path) => Ok (method ++ " " ++ _normalize_path path)%string
  | None => Raise ValueError
  end.

(** The loop that fills [impl_normalized]; a later record with the same
    normalized key replaces the earlier one. *)
Fixpoint build_impl_normalized (items : list (string * ImplementedInfo))
    (impl_normalized : dict string) : res (dict string) :=
  match items with
  | [] => Ok impl_normalized
  | (key, _) :: r =>
      normalized <- normalized_impl_key key ;;
      build_impl_normalized r (dict_set normalized key impl_normalized)
  end.

Definition normalized_op_key (op : OpenApiOp) : string :=
  oa_method op ++ " " ++ oa_normalizedPath op.

(** The entries the loops append. *)
Definition variation_entry (key impl_key : string) (op : OpenApiOp)
  : PathVariation :=
  {| pv_openapi := key;
     pv_implemented := impl_key;
     pv_summary := oa_summary op;
     pv_tags := oa_tags op |}.

Definition missing_entry (key : string) (op : OpenApiOp) : MissingEntry :=
  {| me_key := key;
     me_summary := oa_summary op;
     me_tags := oa_tags op;
     me_deprecated := oa_deprecated op |}.

Definition extra_entry (key : string) (info : ImplementedInfo) : ExtraEntry :=
  {| ex_key := key;
     ex_api := ii_api info;
     ex_method := ii_method info |}.

(** The categorising loop over [openapi_ops.items()]. *)
Fixpoint categorize (implemented : dict ImplementedInfo)
    (impl_normalized : dict string) (ops : list (string * OpenApiOp))
  : list MissingEntry * list PathVariation :=
  match ops with
  | [] => ([], [])
  | (key, op) :: r =>
      let (missing, path_variations) :=
        categorize implemented impl_normalized r in
      if dict_mem key implemented then (missing, path_variations)
      else
        match dict_get (normalized_op_key op) impl_normalized with
        | Some impl_key =>
            (missing, variation_entry key impl_key op :: path_variations)
        | None =>
            (missing_entry key op :: missing, path_variations)
        end
  end.

(** One iteration of the loop that finds the extra endpoints. *)
Definition extra_step (openapi_ops : dict OpenApiOp)
    (openapi_normalized : list string) (kv : string * ImplementedInfo)
  : res (option ExtraEntry) :=
  let (key, info) := kv in
  if negb (dict_mem key openapi_ops) then
    normalized <- normalized_impl_key key ;;
    if negb (str_mem normalized openapi_normalized) then
      Ok (Some (extra_entry key info))
    else Ok None
  else Ok None.

(** [{f"{op['method']} {op['normalizedPath']}" for op in openapi_ops.values()}];
    the set is only tested for membership. *)
Definition openapi_normalized_of (openapi_ops : dict OpenApiOp) : list string :=
  map (fun kv => normalized_op_key (snd kv)) openapi_ops.

Definition get_coverage_gaps (cfg : Config) (w : World)
    (include_deprecated : bool) : res CoverageGaps :=
  spec <- _load_openapi w (OPENAPI_PATH cfg) ;;
  openapi_ops <- collect_openapi_ops include_deprecated spec ;;
  implemented <- _parse_implemented_endpoints cfg w ;;
  impl_normalized <- build_impl_normalized implemented [] ;;
  let (missing, path_variations) :=
    categorize implemented impl_normalized openapi_ops in
  let openapi_normalized := openapi_normalized_of openapi_ops in
  extra <- for_collect (extra_step openapi_ops openapi_normalized)
                       implemented ;;
  Ok {| stats := {| openApiTotal := List.length openapi_ops;
                    implementedTotal := List.length implemented;
                    missingCount := List.length missing;
                    pathVariationsCount := List.length path_variations;
                    extraCount := List.length extra |};
        missing := sorted_by me_key missing;
        pathVariations := sorted_by pv_openapi path_variations;
        extra := sorted_by ex_key extra |}.

(** The OpenAPI keys that the categorising loop passes over as exact
    matches: those that are keys of the registry too. *)
Definition exact_matched (impl : dict ImplementedInfo) (ops : dict OpenApiOp)
  : list string :=
  filter (fun k => dict_mem k impl) (dict_keys ops).

(** The operation object found under member [m] of the path item of [p],
    in a document of the expected shape whose path item is an object. *)
Definition operation_at (spec : json) (p m : string) : option json :=
  match spec_paths spec with
  | Some paths =>
      match dict_get p paths with
      | Some (JObj item) => dict_get m (py_items item)
      | _ => None
      end
  | None => None
  end.

(** [op.get("deprecated", False)] is truthy. *)
Definition is_deprecated (op : json) : bool :=
  match py_get_default op "deprecated" (JBool false) with
  | Ok d => truthy d
  | Raise _ => false
  end.

(* ------------------------------------------------------------------ *)
(** ** [get_openapi_version] and the two resources *)

Record VersionInfo : Type := {
  vi_title : json;
  vi_version : json
}.

Definition get_openapi_version (cfg : Config) (w : World) : res VersionInfo :=
  spec <- _load_openapi w (OPENAPI_PATH cfg) ;;
  info <- py_get_default spec "info" (JObj []) ;;
  title <- py_get info "title" ;;
  version <- py_get info "version" ;;
  Ok {| vi_title := title; vi_version := version |}.

(** The constants of the report tools, also computed from [mcp.json]. *)
Record ReportConfig : Type := {
  ROOT : string;
  COVERAGE_REPORT_PATH : string;
  COVERAGE_SCRIPT_PATH : string
}.

Definition newline : ascii := ascii_of_nat 10.

Definition openapi_resource (cfg : Config) (w : World) : res string :=
  read_text w (OPENAPI_PATH cfg).

Definition coverage_resource (rc : ReportConfig) (w : World) : res string :=
  if negb (path_exists w (COVERAGE_REPORT_PATH rc)) then
    Ok ("# Endpoint coverage report not generated yet."
          ++ String newline EmptyString)
  else read_text w (COVERAGE_REPORT_PATH rc).

(* ------------------------------------------------------------------ *)
(** ** [generate_coverage_report] *)

(** What [subprocess.run(cmd, cwd=..., capture_output=True, text=True,
    check=False)] does: it raises [FileNotFoundError] (the program is not
    there), or it raises something else, or the process runs to
    completion. *)
Inductive RunOutcome : Type :=
| RunFileNotFound
| RunRaises (e : exn)
| RunCompleted (returncode : Z) (stdout stderr : string).

(** The process launcher: the command line and the working directory. *)
Definition Launcher : Type := list string -> string -> RunOutcome.

Inductive ReportResult : Type :=
| ReportError (error : string)     (* {"ok": False, "error": ...} *)
| ReportRun (ok : bool) (exitCode : Z) (stdout stderr : string)
            (coverageReportPath : string).

Fixpoint drop_chars (n : nat) (s : string) : string :=
  match n, s with
  | O, _ => s
  | S n', String _ t => drop_chars n' t
  | S _, EmptyString => EmptyString
  end.

(** [s[-n:]] for a positive [n]: the last [n] characters, all of [s] when it
    is shorter. *)
Definition last_chars (n : nat) (s : string) : string :=
  drop_chars (String.length s - n) s.

Definition ps_commands (rc : ReportConfig) : list (list string) :=
  [ ["pwsh"; "-ExecutionPolicy"; "Bypass"; "-File"; COVERAGE_SCRIPT_PATH rc];
    ["powershell"; "-ExecutionPolicy"; "Bypass"; "-File";
     COVERAGE_SCRIPT_PATH rc] ].

(** [f"{last_error}"] *)
Definition show_last_error (last_error : option string) : string :=
  match last_error with
  | Some e => e
  | None => "None"
  end.

(** The loop over [ps_commands]: the first command whose program exists
    decides the result. *)
Fixpoint try_commands (rc : ReportConfig) (run : Launcher)
    (cmds : list (list string)) (last_error : option string)
  : res ReportResult :=
  match cmds with
  | [] =>
      Ok (ReportError
            ("PowerShell not found. Tried pwsh and powershell. Last error: "
               ++ show_last_error last_error))
  | cmd :: rest =>
      match run cmd (ROOT rc) with
      | RunCompleted returncode stdout stderr =>
          Ok (ReportRun (Z.eqb returncode 0) returncode
                        (last_chars 4000 stdout) (last_chars 4000 stderr)
                        (COVERAGE_REPORT_PATH rc))
      | RunFileNotFound =>
          try_commands rc run rest (Some (hd "" cmd ++ " not found"))
      | RunRaises e => Raise e
      end
  end.

Definition generate_coverage_report (rc : ReportConfig) (w : World)
    (run : Launcher) : res ReportResult :=
  if negb (path_exists w (COVERAGE_SCRIPT_PATH rc)) then
    Ok (ReportError
          ("Coverage script not found: " ++ COVERAGE_SCRIPT_PATH rc))
  else try_commands rc run (ps_commands rc) None.

(* ------------------------------------------------------------------ *)
(** ** Vocabulary for the statements *)

(** The two command lines of [ps_commands], by name. *)
Definition pwsh_command (rc : ReportConfig) : list string :=
  ["pwsh"; "-ExecutionPolicy"; "Bypass"; "-File"; COVERAGE_SCRIPT_PATH rc].

Definition powershell_command (rc : ReportConfig) : list string :=
  ["powershell"; "-ExecutionPolicy"; "Bypass"; "-File";
   COVERAGE_SCRIPT_PATH rc].

(** Two loop bodies of which the first appends only what the second
    appends. *)
Definition refines {X A : Type} (b1 b2 : X -> res (option A)) : Prop :=
  forall x o1 o2, b1 x = Ok o1 -> b2 x = Ok o2 -> o1 = None \/ o1 = o2.

(** Whether the character [c] occurs in [s]. *)
Fixpoint has_char (c : ascii) (s : string) : bool :=
  match s with
  | EmptyString => false
  | String c' t => Ascii.eqb c' c || has_char c t
  end.

(** Text made of whitespace only. *)
Fixpoint all_space (s : string) : bool :=
  match s with
  | EmptyString => true
  | String c t => is_space c && all_space t
  end.

(** A field the registry pattern can capture: not empty, no quote. *)
Definition plain_field (s : string) : bool :=
  negb (String.eqb s "") && negb (has_char dquote s).

Definition plain_tuple (m : endpoint_tuple) : bool :=
  let '(m0, m1, m2, m3) := m in
  plain_field m0 && plain_field m1 && plain_field m2 && plain_field m3.

(** A registry record written with the whitespace [ws 0], ..., [ws 8] at the
    places where the pattern allows some, followed by [rest]. *)
Definition record_then (ws : nat -> string) (m : endpoint_tuple)
    (rest : string) : string :=
  let '(m0, m1, m2, m3) := m in
  "new" ++ ws 0%nat ++ "(" ++ ws 1%nat
    ++ String dquote (m0 ++ String dquote (ws 2%nat ++ "," ++ ws 3%nat
    ++ String dquote (m1 ++ String dquote (ws 4%nat ++ "," ++ ws 5%nat
    ++ String dquote (m2 ++ String dquote (ws 6%nat ++ "," ++ ws 7%nat
    ++ String dquote (m3 ++ String dquote (ws 8%nat ++ ")" ++ rest)))))))).

(** A registry file: records, each after some other text, and a trailer. *)
Fixpoint registry_text (ws : nat -> string)
    (records : list (string * endpoint_tuple)) (trailer : string) : string :=
  match records with
  | [] => trailer
  | (junk, m) :: r => junk ++ record_then ws m (registry_text ws r trailer)
  end.

(** Text before a record in which no match can start (the letter n does not
    occur), and a record the pattern can capture. *)
Definition clean_record (jm : string * endpoint_tuple) : bool :=
  negb (has_char "n" (fst jm)) && plain_tuple (snd jm).

(** The last registry key, in file order, whose normalized key is [n]. *)
Fixpoint last_with_normalized (n : string)
    (items : list (string * ImplementedInfo)) : option string :=
  match items with
  | [] => None
  | (key, _) :: r =>
      match last_with_normalized n r with
      | Some k => Some k
      | None =>
          match normalized_impl_key key with
          | Ok n' => if String.eqb n n' then Some key else None
          | Raise _ => None
          end
      end
  end.

(* ------------------------------------------------------------------ *)
(** ** Sample runs *)

Definition quoted (s : string) : string :=
  String dquote (s ++ String dquote EmptyString).

(** The registry line [new("m0", "m1", "m2", "m3")]. *)
Definition registry_line (m0 m1 m2 m3 : string) : string :=
  "new(" ++ quoted m0 ++ ", " ++ quoted m1 ++ ", " ++ quoted m2 ++ ", "
         ++ quoted m3 ++ ")".

Definition sample_cfg : Config :=
  {| OPENAPI_PATH := "/repo/openapi/lichess.openapi.json";
     SNAPSHOTS_DIR := "/repo/openapi/snapshots";
     IMPLEMENTED_ENDPOINTS_PATH := "/repo/tools/ImplementedEndpoints.cs" |}.

(** A world given by its files: decoded documents and plain text. *)
Definition world_of
    (docs : list (string * json)) (texts : list (string * string)) : World :=
  {| path_exists := fun p => dict_mem p docs || dict_mem p texts;
     read_text := fun p => match dict_get p texts with
                           | Some t => Ok t
                           | None => Raise OSError
                           end;
     load_json := fun p => match dict_get p docs with
                           | Some j => Ok j
                           | None =>
                               if dict_mem p texts then Raise JSONDecodeError
                               else Raise OSError
                           end |}.

(** A spec document with the single path [p] and path item [item]. *)
Definition one_path_spec (p : string) (item : json) : json :=
  JObj [("info", JObj [("title", JStr "Lichess.org API reference");
                       ("version", JStr "2.0.107")]);
        ("paths", JObj [(p, item)])].

(** The tournament scenario: one GET operation [op], and a registry with
    one record whose first field is [m0]. *)
Definition tournament_world (op : json) (m0 : string) : World :=
  world_of
    [(OPENAPI_PATH sample_cfg,
      one_path_spec "/tournaments/{tournamentId}" (JObj [("get", op)]))]
    [(IMPLEMENTED_ENDPOINTS_PATH sample_cfg,
      registry_line m0 "/tournaments/{broadcastTournamentId}" "lichess"
                    "GetBroadcastTournament")].

Definition tournament_op : json :=
  JObj [("summary", JStr "Get a tournament");
        ("tags", JArr [JStr "Broadcasts"]);
        ("responses", JObj [("404", JObj []); ("200", JObj [])])].

(** Two snapshots; the newer one adds a path whose item carries a
    path-level [parameters] member next to its GET operation. *)
Definition account_item : json :=
  JObj [("parameters", JArr [JObj [("name", JStr "id"); ("in", JStr "path")]]);
        ("get", JObj [("summary", JStr "Get my profile")])].

Definition snapshot_world : World :=
  world_of
    [(snapshot_path sample_cfg "2.0.106", JObj [("paths", JObj [])]);
     (snapshot_path sample_cfg "2.0.107",
      one_path_spec "/api/account/{id}" account_item)]
    [].

(** The operations GET /a and POST /b, the second one optionally marked
    deprecated; no registry file. *)
Definition ab_spec (deprecated_b : bool) : json :=
  JObj [("paths",
         JObj [("/a", JObj [("get", JObj [("summary", JStr "a")])]);
               ("/b", JObj [("post",
                             JObj [("summary", JStr "b");
                                   ("deprecated", JBool deprecated_b)])])])].

Definition ab_world (deprecated_b : bool) : World :=
  world_of [(OPENAPI_PATH sample_cfg, ab_spec deprecated_b)] [].

(** The same spec with POST /b deprecated, and a registry that implements
    POST /b. *)
Definition ab_implemented_world : World :=
  world_of
    [(OPENAPI_PATH sample_cfg, ab_spec true)]
    [(IMPLEMENTED_ENDPOINTS_PATH sample_cfg,
      registry_line "POST" "/b" "Demo" "PostBAsync")].

(** The tournament operation, and a registry with two records that name
    its path parameter differently and one record outside the spec. *)
Definition variants_world : World :=
  world_of
    [(OPENAPI_PATH sample_cfg,
      one_path_spec "/tournaments/{tournamentId}"
                    (JObj [("get", tournament_op)]))]
    [(IMPLEMENTED_ENDPOINTS_PATH sample_cfg,
      registry_line "GET" "/tournaments/{broadcastTournamentId}" "Broadcasts"
                    "GetTournamentAsync"
      ++ ", "
      ++ registry_line "GET" "/tournaments/{id}" "Broadcasts"
                       "GetTournamentByIdAsync"
      ++ ", "
      ++ registry_line "GET" "/masters" "OpeningExplorer"
                       "GetMastersAsync")].

Definition sample_report_cfg : ReportConfig :=
  {| ROOT := "/repo";
     COVERAGE_REPORT_PATH := "/repo/docs/api-coverage.md";
     COVERAGE_SCRIPT_PATH := "/repo/tools/Generate-Coverage.ps1" |}.

(** A machine on which only Windows PowerShell is installed; the script
    fails with exit code 1. *)
Definition powershell_only : Launcher :=
  fun cmd _ =>
    match cmd with
    | "powershell" :: _ => RunCompleted 1 "Generating..." "script failed"
    | _ => RunFileNotFound
    end.

Definition script_world : World :=
  world_of [] [("/repo/tools/Generate-Coverage.ps1", "param()")].

(* ================================================================== *)
(** * Properties *)

#[local] Arguments Ascii.eqb : simpl never.

(* ------------------------------------------------------------------ *)
(** ** The result monad *)

Lemma bind_Ok {A B} (m : res A) (k : A -> res B) (b : B) :
  bind m k = Ok b -> exists a, m = Ok a /\ k a = Ok b.
Proof.
  destruct m as [a|e]; simpl; intros H; [exists a; auto | discriminate].
Qed.

(** Peels the binds of a hypothesis [H : (x <- m ;; k) = Ok r]. *)
Ltac bind_inv H :=
  let a := fresh "a" in
  let Ha := fresh "E" in
  apply bind_Ok in H; destruct H as (a & Ha & H).

(* ------------------------------------------------------------------ *)
(** ** Path normalization *)

Section Normalize.

Lemma span_not_length stop s a b :
  span_not stop s = (a, b) -> String.length b <= String.length s.
Proof.
  revert a b; induction s as [|c t IH]; simpl; intros a b H.
  - inversion H; subst; simpl; lia.
  - destruct (Ascii.eqb c stop).
    + inversion H; subst; simpl; lia.
    + destruct (span_not stop t) as [a' b'] eqn:E.
      inversion H; subst. specialize (IH _ _ eq_refl). lia.
Qed.

Lemma expect_length c s t :
  expect c s = Some t -> String.length s = S (String.length t).
Proof.
  destruct s as [|c' s']; simpl; [discriminate|].
  destruct (Ascii.eqb c c'); [|discriminate].
  intros H; inversion H; subst; reflexivity.
Qed.

Lemma match_placeholder_length s rest :
  match_placeholder s = Some rest -> String.length rest < String.length s.
Proof.
  unfold match_placeholder.
  destruct (expect "{" s) as [t|] eqn:E1; [|discriminate].
  destruct (span_not "}" t) as [body r] eqn:E2.
  destruct body; [discriminate|].
  intros E3.
  apply expect_length in E1, E3.
  apply span_not_length in E2. lia.
Qed.

(** More fuel than the length of the text changes nothing. *)
Lemma sub_placeholders_fuel n : forall m s,
  String.length s <= n -> String.length s <= m ->
  sub_placeholders n s = sub_placeholders m s.
Proof.
  induction n as [|n IH]; intros m s Hn Hm.
  - destruct s; simpl in Hn; [|lia]. destruct m; reflexivity.
  - destruct m as [|m].
    + destruct s; simpl in Hm; [reflexivity|lia].
    + destruct s as [|c t]; [reflexivity|].
      simpl in Hn, Hm. cbn [sub_placeholders].
      destruct (match_placeholder (String c t)) as [rest|] eqn:E.
      * apply match_placeholder_length in E. simpl in E.
        f_equal. apply IH; lia.
      * f_equal. apply IH; lia.
Qed.

(** The equation [re.sub] obeys at a position. *)
Lemma normalize_step c t :
  _normalize_path (String c t) =
  match match_placeholder (String c t) with
  | Some rest => "{param}" ++ _normalize_path rest
  | None => String c (_normalize_path t)
  end.
Proof.
  unfold _normalize_path. cbn [String.length sub_placeholders].
  destruct (match_placeholder (String c t)) as [rest|] eqn:E.
  - apply match_placeholder_length in E. simpl in E.
    f_equal. apply sub_placeholders_fuel; lia.
  - reflexivity.
Qed.

Lemma normalize_param x :
  _normalize_path ("{param}" ++ x) = "{param}" ++ _normalize_path x.
Proof.
  change ("{param}" ++ x) with (String "{" ("param}" ++ x)).
  rewrite normalize_step. reflexivity.
Qed.

Lemma span_no_close s : has_close s = false -> span_not "}" s = (s, "").
Proof.
  induction s as [|c t IH]; simpl; [reflexivity|].
  intros H. apply orb_false_iff in H. destruct H as [H1 H2].
  rewrite H1, (IH H2). reflexivity.
Qed.

Lemma span_rest_empty s a :
  span_not "}" s = (a, "") -> has_close s = false.
Proof.
  revert a; induction s as [|c t IH]; simpl; intros a H; [reflexivity|].
  destruct (Ascii.eqb c "}"); [inversion H|].
  destruct (span_not "}" t) as [a' b'] eqn:E.
  inversion H; subst. simpl. eapply IH; reflexivity.
Qed.

Lemma span_rest_head s a c r :
  span_not "}" s = (a, String c r) -> c = "}"%char.
Proof.
  revert a; induction s as [|c' t IH]; simpl; intros a H; [inversion H|].
  destruct (Ascii.eqb c' "}") eqn:Ec.
  - inversion H; subst. apply Ascii.eqb_eq; assumption.
  - destruct (span_not "}" t) as [a' b'] eqn:E.
    inversion H; subst. eapply IH; reflexivity.
Qed.

Lemma no_close_no_match s :
  has_close s = false -> match_placeholder s = None.
Proof.
  intros H. unfold match_placeholder.
  destruct (expect "{" s) as [t|] eqn:E; [|reflexivity].
  destruct s as [|c s']; cbn [expect] in E; [discriminate|].
  destruct (Ascii.eqb "{" c); [|discriminate].
  inversion E; subst. cbn [has_close] in H. apply orb_false_iff in H.
  rewrite (span_no_close _ (proj2 H)).
  destruct t; reflexivity.
Qed.

Lemma normalize_no_close s :
  has_close s = false -> _normalize_path s = s.
Proof.
  induction s as [|c t IH]; intros H; [reflexivity|].
  rewrite normalize_step, (no_close_no_match _ H).
  simpl in H. apply orb_false_iff in H. rewrite (IH (proj2 H)). reflexivity.
Qed.

(** A position where the pattern fails still fails after the rest of the
    text has been normalized. *)
Lemma no_match_stable c t :
  match_placeholder (String c t) = None ->
  match_placeholder (String c (_normalize_path t)) = None.
Proof.
  unfold match_placeholder. simpl.
  destruct (Ascii.eqb "{" c); [|reflexivity].
  destruct (span_not "}" t) as [body r] eqn:E.
  destruct body as [|b body].
  - (* the brace is followed by "}" or by nothing *)
    intros _. destruct t as [|c' t']; [reflexivity|].
    simpl in E. destruct (Ascii.eqb c' "}") eqn:Ec.
    + apply Ascii.eqb_eq in Ec; subst c'.
      rewrite normalize_step. reflexivity.
    + destruct (span_not "}" t'); discriminate.
  - (* no closing brace anywhere after it *)
    destruct r as [|c' r'].
    + intros _. apply span_rest_empty in E.
      rewrite (normalize_no_close _ E), (span_no_close _ E).
      destruct t; reflexivity.
    + rewrite (span_rest_head _ E). simpl. discriminate.
Qed.

Lemma normalize_idempotent_upto n : forall p,
  String.length p <= n ->
  _normalize_path (_normalize_path p) = _normalize_path p.
Proof.
  induction n as [|n IH]; intros p Hp.
  - destruct p; [reflexivity | simpl in Hp; lia].
  - destruct p as [|c t]; [reflexivity|].
    rewrite normalize_step.
    destruct (match_placeholder (String c t)) as [rest|] eqn:E.
    + rewrite normalize_param. f_equal.
      apply IH. apply match_placeholder_length in E. simpl in *. lia.
    + rewrite normalize_step, (no_match_stable _ _ E).
      f_equal. apply IH. simpl in Hp. lia.
Qed.

End Normalize.

(** C4. Path normalization is idempotent: normalizing an already normalized
    path gives it back, for every path string. *)
Theorem normalize_path_idempotent (p : string) :
  _normalize_path (_normalize_path p) = _normalize_path p.
Proof.
  apply (normalize_idempotent_upto (n := String.length p)). lia.
Qed.

(* ------------------------------------------------------------------ *)
(** ** Dictionaries *)

Section DictFacts.
Variable V : Type.
Implicit Types (d : dict V) (k : string) (v : V).

Lemma dict_get_In k d v : dict_get k d = Some v -> In (k, v) d.
Proof.
  induction d as [|[k' v'] r IH]; simpl; [discriminate|].
  destruct (String.eqb k k') eqn:E.
  - apply String.eqb_eq in E; subst. intros H; inversion H; auto.
  - auto.
Qed.

Lemma dict_mem_keys k d : dict_mem k d = true <-> In k (dict_keys d).
Proof.
  unfold dict_mem.
  induction d as [|[k' v'] r IH]; simpl.
  - split; [discriminate | tauto].
  - destruct (String.eqb k k') eqn:E.
    + apply String.eqb_eq in E; subst. tauto.
    + apply String.eqb_neq in E. split.
      * intros H; right; apply IH; exact H.
      * intros [H|H]; [congruence | apply IH; exact H].
Qed.

Lemma dict_mem_false k d : dict_mem k d = false <-> ~ In k (dict_keys d).
Proof.
  rewrite <- dict_mem_keys. destruct (dict_mem k d); split; congruence.
Qed.

Lemma dict_get_None k d : dict_get k d = None <-> ~ In k (dict_keys d).
Proof.
  rewrite <- dict_mem_false. unfold dict_mem.
  destruct (dict_get k d); split; congruence.
Qed.

Lemma dict_get_unique k v d :
  NoDup (dict_keys d) -> In (k, v) d -> dict_get k d = Some v.
Proof.
  induction d as [|[k' v'] r IH]; simpl; [tauto|].
  intros ND [H|H].
  - inversion H; subst. rewrite String.eqb_refl. reflexivity.
  - inversion ND as [|? ? Hn ND']; subst.
    destruct (String.eqb k k') eqn:E.
    + apply String.eqb_eq in E; subst. exfalso. apply Hn.
      change k' with (fst (k', v)). apply in_map. exact H.
    + auto.
Qed.

Lemma dict_get_set k k' v d :
  dict_get k (dict_set k' v d) =
  if String.eqb k k' then Some v else dict_get k d.
Proof.
  induction d as [|[k0 v0] r IH]; simpl.
  - destruct (String.eqb k k'); reflexivity.
  - destruct (String.eqb k' k0) eqn:E0; simpl.
    + apply String.eqb_eq in E0; subst k0.
      destruct (String.eqb k k'); reflexivity.
    + rewrite IH. destruct (String.eqb k k') eqn:E.
      * apply String.eqb_eq in E; subst k.
        rewrite E0. reflexivity.
      * reflexivity.
Qed.

Lemma dict_set_keys_In k k' v d :
  In k (dict_keys (dict_set k' v d)) <-> k = k' \/ In k (dict_keys d).
Proof.
  rewrite <- !dict_mem_keys. unfold dict_mem. rewrite dict_get_set.
  destruct (String.eqb k k') eqn:E.
  - apply String.eqb_eq in E. tauto.
  - apply String.eqb_neq in E. tauto.
Qed.

Lemma dict_set_NoDup k v d :
  NoDup (dict_keys d) -> NoDup (dict_keys (dict_set k v d)).
Proof.
  induction d as [|[k0 v0] r IH]; simpl; intros ND.
  - constructor; [tauto | constructor].
  - inversion ND as [|? ? Hn ND']; subst.
    destruct (String.eqb k k0) eqn:E; simpl.
    + apply String.eqb_eq in E; subst. constructor; assumption.
    + constructor; [|auto].
      intros H. apply dict_set_keys_In in H.
      apply String.eqb_neq in E. destruct H; [congruence | contradiction].
Qed.

Lemma insert_all_NoDup l : forall d,
  NoDup (dict_keys d) -> NoDup (dict_keys (insert_all l d)).
Proof.
  induction l as [|[k v] l IH]; simpl; intros d ND; [assumption|].
  apply IH. apply dict_set_NoDup. assumption.
Qed.

Lemma insert_all_keys l : forall d k,
  In k (dict_keys (insert_all l d)) <-> In k (dict_keys d) \/ In k (map fst l).
Proof.
  induction l as [|[k0 v0] l IH]; simpl; intros d k; [tauto|].
  rewrite IH, dict_set_keys_In. intuition congruence.
Qed.

Lemma insert_all_get l : forall d k v,
  dict_get k (insert_all l d) = Some v ->
  dict_get k d = Some v \/ In (k, v) l.
Proof.
  induction l as [|[k0 v0] l IH]; simpl; intros d k v H; [auto|].
  apply IH in H. destruct H as [H|H]; [|auto].
  rewrite dict_get_set in H.
  destruct (String.eqb k k0) eqn:E; [|auto].
  apply String.eqb_eq in E; subst. inversion H; subst. auto.
Qed.

Lemma dict_of_pairs_NoDup (l : list (string * V)) :
  NoDup (dict_keys (dict_of_pairs l)).
Proof. apply insert_all_NoDup. constructor. Qed.

Lemma dict_of_pairs_keys (l : list (string * V)) k :
  In k (dict_keys (dict_of_pairs l)) <-> In k (map fst l).
Proof.
  unfold dict_of_pairs. rewrite insert_all_keys. simpl. tauto.
Qed.

Lemma dict_of_pairs_get (l : list (string * V)) k v :
  dict_get k (dict_of_pairs l) = Some v -> In (k, v) l.
Proof.
  intros H. apply insert_all_get in H. destruct H as [H|H]; [discriminate|auto].
Qed.

Lemma dict_of_pairs_In (l : list (string * V)) k v :
  In (k, v) (dict_of_pairs l) -> In (k, v) l.
Proof.
  intros H. apply dict_of_pairs_get.
  apply dict_get_unique; [apply dict_of_pairs_NoDup | exact H].
Qed.

(** When every assignment to [k] stores the same value, that value is what
    the dictionary holds. *)
Lemma dict_of_pairs_get_agree (l : list (string * V)) k v :
  In (k, v) l -> (forall v', In (k, v') l -> v' = v) ->
  dict_get k (dict_of_pairs l) = Some v.
Proof.
  intros Hin Hsame.
  destruct (dict_get k (dict_of_pairs l)) as [v'|] eqn:E.
  - apply dict_of_pairs_get in E. rewrite (Hsame _ E). reflexivity.
  - exfalso. apply dict_get_None in E. apply E.
    apply dict_of_pairs_keys. change k with (fst (k, v)).
    apply in_map. exact Hin.
Qed.
End DictFacts.

Lemma str_mem_In s l : str_mem s l = true <-> In s l.
Proof.
  unfold str_mem. rewrite existsb_exists. split.
  - intros (x & Hx & E). apply String.eqb_eq in E. subst. exact Hx.
  - intros H. exists s. split; [exact H | apply String.eqb_refl].
Qed.

Lemma str_mem_false s l : str_mem s l = false <-> ~ In s l.
Proof.
  rewrite <- str_mem_In. destruct (str_mem s l); split; congruence.
Qed.

(* ------------------------------------------------------------------ *)
(** ** Sorting *)

Section SortFacts.
Variable A : Type.
Variable key : A -> string.

Lemma insert_by_perm x l : Permutation (insert_by key x l) (x :: l).
Proof.
  induction l as [|y r IH]; simpl; [reflexivity|].
  destruct (String.leb (key x) (key y)); [reflexivity|].
  rewrite IH. apply perm_swap.
Qed.

Lemma sorted_by_perm l : Permutation (sorted_by key l) l.
Proof.
  induction l as [|x r IH]; simpl; [reflexivity|].
  rewrite insert_by_perm. constructor. exact IH.
Qed.

Lemma sorted_by_In l a : In a (sorted_by key l) <-> In a l.
Proof.
  split; apply Permutation_in;
    [apply sorted_by_perm | symmetry; apply sorted_by_perm].
Qed.

Lemma sorted_by_length l : List.length (sorted_by key l) = List.length l.
Proof. apply Permutation_length, sorted_by_perm. Qed.

Lemma sorted_by_map_perm B (f : A -> B) l :
  Permutation (map f (sorted_by key l)) (map f l).
Proof. apply Permutation_map, sorted_by_perm. Qed.
End SortFacts.

(* ------------------------------------------------------------------ *)
(** ** Loops *)

Section LoopFacts.
Variables X A : Type.

Lemma for_collect_In (body : X -> res (option A)) xs : forall l,
  for_collect body xs = Ok l ->
  forall a, In a l <-> exists x, In x xs /\ body x = Ok (Some a).
Proof.
  induction xs as [|x r IH]; simpl; intros l H a.
  - inversion H; subst. simpl. split; [tauto | intros (? & [] & _)].
  - bind_inv H. bind_inv H. inversion H; subst; clear H.
    specialize (IH _ E0 a).
    destruct a0 as [a'|]; simpl; rewrite ?IH; split.
    + intros [->|(y & Hy & Ey)]; [exists x; auto | exists y; auto].
    + intros (y & [->|Hy] & Ey); [left; congruence | right; exists y; auto].
    + intros (y & Hy & Ey); exists y; auto.
    + intros (y & [->|Hy] & Ey); [congruence | exists y; auto].
Qed.

Lemma for_collect_total (body : X -> res (option A)) xs :
  (forall x, In x xs -> exists o, body x = Ok o) ->
  exists l, for_collect body xs = Ok l.
Proof.
  induction xs as [|x r IH]; simpl; intros H; [eauto|].
  destruct (H x (or_introl eq_refl)) as [o ->].
  destruct IH as [l ->]; [auto|]. simpl. eauto.
Qed.

Lemma for_concat_In (body : X -> res (list A)) xs : forall l,
  for_concat body xs = Ok l ->
  forall a, In a l <-> exists x l', In x xs /\ body x = Ok l' /\ In a l'.
Proof.
  induction xs as [|x r IH]; simpl; intros l H a.
  - inversion H; subst. simpl. split; [tauto | intros (? & ? & [] & _)].
  - bind_inv H. bind_inv H. inversion H; subst; clear H.
    specialize (IH _ E0 a). rewrite in_app_iff, IH. split.
    + intros [Ha|(y & l' & Hy & Ey & Ha)];
        [exists x, a0; auto | exists y, l'; auto].
    + intros (y & l' & [->|Hy] & Ey & Ha).
      * left. congruence.
      * right. exists y, l'; auto.
Qed.
End LoopFacts.

(* ------------------------------------------------------------------ *)
(** ** The registry pattern consumes text *)

Lemma skip_ws_length s : String.length (skip_ws s) <= String.length s.
Proof.
  induction s as [|c t IH]; simpl; [lia|].
  destruct (is_space c); simpl; lia.
Qed.

Lemma strip_prefix_length p : forall s t,
  strip_prefix p s = Some t ->
  String.length s = String.length p + String.length t.
Proof.
  induction p as [|c p IH]; simpl; intros s t H.
  - inversion H; subst. reflexivity.
  - destruct (expect c s) as [s'|] eqn:E; [|discriminate].
    apply expect_length in E. apply IH in H. lia.
Qed.

Lemma quoted_group_length s g r :
  quoted_group s = Some (g, r) -> String.length r < String.length s.
Proof.
  unfold quoted_group.
  destruct (expect dquote s) as [t|] eqn:E1; [|discriminate]. cbn [obind].
  destruct (span_not dquote t) as [[|c body] r0] eqn:E2; [discriminate|].
  destruct (expect dquote r0) as [r1|] eqn:E3; [|discriminate]. cbn [obind].
  intros H; inversion H; subst.
  apply expect_length in E1, E3. apply span_not_length in E2. lia.
Qed.

(** Peels one stage of the pattern off a successful match. *)
Ltac pattern_stage H :=
  match type of H with
  | obind (expect ?c (skip_ws ?s)) _ = Some _ =>
      let E := fresh "E" in
      let t := fresh "t" in
      pose proof (skip_ws_length s);
      destruct (expect c (skip_ws s)) as [t|] eqn:E; [|discriminate H];
      apply expect_length in E; cbn [obind] in H
  | obind (quoted_group (skip_ws ?s)) _ = Some _ =>
      let E := fresh "E" in
      let g := fresh "g" in
      let t := fresh "t" in
      pose proof (skip_ws_length s);
      destruct (quoted_group (skip_ws s)) as [[g t]|] eqn:E; [|discriminate H];
      apply quoted_group_length in E; cbn [obind] in H
  end.

Lemma match_endpoint_length s m rest :
  match_endpoint s = Some (m, rest) -> String.length rest < String.length s.
Proof.
  unfold match_endpoint. intros H.
  destruct (strip_prefix "new" s) as [s0|] eqn:E0; [|discriminate H].
  apply strip_prefix_length in E0. cbn [obind] in H.
  repeat pattern_stage H.
  inversion H; subst. simpl in E0. lia.
Qed.

(** More fuel than the length of the text changes nothing: every match
    consumes at least one character. *)
Lemma findall_endpoints_fuel n : forall k s,
  String.length s <= n -> String.length s <= k ->
  findall_endpoints n s = findall_endpoints k s.
Proof.
  induction n as [|n IH]; intros k s Hn Hk.
  - destruct s; simpl in Hn; [|lia]. destruct k; reflexivity.
  - destruct k as [|k].
    + destruct s; simpl in Hk; [reflexivity|lia].
    + destruct s as [|c t]; [reflexivity|].
      simpl in Hn, Hk. cbn [findall_endpoints].
      destruct (match_endpoint (String c t)) as [[m rest]|] eqn:E.
      * apply match_endpoint_length in E. simpl in E.
        f_equal. apply IH; lia.
      * apply IH; lia.
Qed.

(** The equation [re.findall] obeys at a position. *)
Lemma findall_step c t :
  re_findall_endpoints (String c t) =
  match match_endpoint (String c t) with
  | Some (m, rest) => m :: re_findall_endpoints rest
  | None => re_findall_endpoints t
  end.
Proof.
  unfold re_findall_endpoints. cbn [String.length findall_endpoints].
  destruct (match_endpoint (String c t)) as [[m rest]|] eqn:E.
  - apply match_endpoint_length in E. simpl in E.
    f_equal. apply findall_endpoints_fuel; lia.
  - apply findall_endpoints_fuel; simpl; lia.
Qed.

(* ------------------------------------------------------------------ *)
(** ** [sorted_by] sorts *)

Section SortOrder.
Variable A : Type.
Variable key : A -> string.

Lemma insert_by_HdRel a x l :
  key_le key a x -> HdRel (key_le key) a l ->
  HdRel (key_le key) a (insert_by key x l).
Proof.
  intros Hax Hl. destruct l as [|y r]; simpl.
  - constructor. exact Hax.
  - destruct (String.leb (key x) (key y)); constructor.
    + exact Hax.
    + inversion Hl; assumption.
Qed.

Lemma insert_by_Sorted x l :
  Sorted (key_le key) l -> Sorted (key_le key) (insert_by key x l).
Proof.
  induction l as [|y r IH]; simpl; intros Hs.
  - repeat constructor.
  - inversion Hs as [|? ? Hr Hhd]; subst.
    destruct (String.leb (key x) (key y)) eqn:E.
    + constructor; [exact Hs | constructor; exact E].
    + constructor; [apply IH; exact Hr|].
      apply insert_by_HdRel; [|exact Hhd].
      destruct (String.leb_total (key x) (key y)) as [H|H];
        [congruence | exact H].
Qed.

Lemma sorted_by_Sorted l : Sorted (key_le key) (sorted_by key l).
Proof.
  induction l as [|x r IH]; simpl; [constructor|].
  apply insert_by_Sorted. exact IH.
Qed.
End SortOrder.

(* ------------------------------------------------------------------ *)
(** ** Letter case *)

Lemma upper_lower_char c : upper_char (lower_char c) = upper_char c.
Proof.
  destruct c as [b0 b1 b2 b3 b4 b5 b6 b7].
  destruct b0, b1, b2, b3, b4, b5, b6, b7; reflexivity.
Qed.

Lemma upper_lower_map s : upper (map_string lower_char s) = upper s.
Proof.
  induction s as [|c t IH]; simpl; [reflexivity|].
  unfold upper in *. simpl. rewrite upper_lower_char, IH. reflexivity.
Qed.

Lemma ascii_not_kelvin c :
  (nat_of_ascii c <? 128)%nat = true -> Ascii.eqb c kelvin_1 = false.
Proof.
  destruct c as [b0 b1 b2 b3 b4 b5 b6 b7].
  destruct b0, b1, b2, b3, b4, b5, b6, b7;
    intros H; first [reflexivity | discriminate H].
Qed.

Lemma lower_cons_plain c t :
  Ascii.eqb c kelvin_1 = false ->
  lower (String c t) = String (lower_char c) (lower t).
Proof.
  intros H. destruct t as [|c2 [|c3 t3]]; try reflexivity.
  change (lower (String c (String c2 (String c3 t3)))) with
    (if Ascii.eqb c kelvin_1 && Ascii.eqb c2 kelvin_2 && Ascii.eqb c3 kelvin_3
     then String "k" (lower t3)
     else String (lower_char c) (lower (String c2 (String c3 t3)))).
  rewrite H. reflexivity.
Qed.

(** On ASCII text [str.lower] maps letter by letter. *)
Lemma lower_ascii s : is_ascii s = true -> lower s = map_string lower_char s.
Proof.
  induction s as [|c t IH]; intros H; [reflexivity|].
  cbn [is_ascii] in H. apply andb_true_iff in H. destruct H as [Hc Ht].
  rewrite (lower_cons_plain _ _ (ascii_not_kelvin _ Hc)), (IH Ht).
  reflexivity.
Qed.

Lemma lower_cons_cases c t :
  lower (String c t) = String (lower_char c) (lower t)
  \/ exists t3, lower (String c t) = String "k" (lower t3).
Proof.
  destruct t as [|c2 [|c3 t3]]; try (left; reflexivity).
  change (lower (String c (String c2 (String c3 t3)))) with
    (if Ascii.eqb c kelvin_1 && Ascii.eqb c2 kelvin_2 && Ascii.eqb c3 kelvin_3
     then String "k" (lower t3)
     else String (lower_char c) (lower (String c2 (String c3 t3)))).
  destruct (Ascii.eqb c kelvin_1 && Ascii.eqb c2 kelvin_2
            && Ascii.eqb c3 kelvin_3); [right; eauto | left; reflexivity].
Qed.

(** A lowercase form without the letter k comes letter by letter from the
    text. *)
Lemma lower_without_k s :
  has_char "k" (lower s) = false -> lower s = map_string lower_char s.
Proof.
  induction s as [|c t IH]; intros H; [reflexivity|].
  destruct (lower_cons_cases c t) as [E|[t3 E]]; rewrite E in H |- *.
  - cbn [has_char] in H. apply orb_false_iff in H.
    cbn [map_string]. rewrite (IH (proj2 H)). reflexivity.
  - cbn [has_char] in H. rewrite Ascii.eqb_refl in H. discriminate H.
Qed.

Lemma same_lower_same_upper m m' :
  is_ascii m = true -> is_ascii m' = true ->
  lower m = lower m' -> upper m = upper m'.
Proof.
  intros Hm Hm' H. rewrite (lower_ascii _ Hm), (lower_ascii _ Hm') in H.
  rewrite <- (upper_lower_map m), <- (upper_lower_map m'), H. reflexivity.
Qed.

(** A method whose lowercase form is one of the recognized methods has the
    uppercase form of that method. *)
Lemma upper_lower_recognized m :
  In (lower m) METHODS -> upper (lower m) = upper m.
Proof.
  intros H.
  assert (Hk : has_char "k" (lower m) = false).
  { unfold METHODS in H. cbn [In] in H.
    repeat (destruct H as [H|H]; [rewrite <- H; reflexivity|]).
    destruct H. }
  rewrite (lower_without_k _ Hk). apply upper_lower_map.
Qed.

(** C10 (as stated). Two casings of a method can give different results
    when the method is not ASCII text: the Kelvin sign U+212A lowercases to
    k but is its own uppercase, so LOC + Kelvin sign finds the member lock
    as lock does, and the two results carry different keys. *)
Lemma kelvin_casing_changes_key :
  lower ("LOC" ++ kelvin_sign) = lower "lock"
  /\ (exists d d',
        get_operation sample_cfg
          (world_of [(OPENAPI_PATH sample_cfg,
                      one_path_spec "/files/{id}"
                        (JObj [("lock",
                                JObj [("summary", JStr "Lock a file")])]))]
                    [])
          ("LOC" ++ kelvin_sign) "/files/{id}" = Ok (OpFound d)
        /\ get_operation sample_cfg
             (world_of [(OPENAPI_PATH sample_cfg,
                         one_path_spec "/files/{id}"
                           (JObj [("lock",
                                   JObj [("summary", JStr "Lock a file")])]))]
                       [])
             "lock" "/files/{id}" = Ok (OpFound d')
        /\ od_key d = "LOC" ++ kelvin_sign ++ " /files/{id}"
        /\ od_key d' = "LOCK /files/{id}"
        /\ d <> d').
Proof.
  split; [reflexivity|].
  eexists. eexists.
  split; [vm_compute; reflexivity|].
  split; [vm_compute; reflexivity|].
  split; [reflexivity|]. split; [reflexivity|].
  intros H. discriminate H.
Qed.

(** C10 (amended). For ASCII method strings, [get_operation] does not
    depend on the casing of its method argument: two such strings with the
    same lowercase form give the same result, whatever the document and the
    path. *)
Theorem get_operation_casing cfg w (m m' path : string) :
  is_ascii m = true -> is_ascii m' = true ->
  lower m = lower m' ->
  get_operation cfg w m path = get_operation cfg w m' path.
Proof.
  intros Hm Hm' H. unfold get_operation, _op_key.
  rewrite H, (same_lower_same_upper _ _ Hm Hm' H). reflexivity.
Qed.

Lemma get_operation_casing_witness :
  lower "GeT" = lower "get" /\
  get_operation sample_cfg (tournament_world tournament_op "GET")
                "GeT" "/tournaments/{tournamentId}" =
  get_operation sample_cfg (tournament_world tournament_op "GET")
                "get" "/tournaments/{tournamentId}".
Proof.
  split; [reflexivity|].
  apply get_operation_casing; reflexivity.
Defined.

Example get_operation_mixed_case :
  exists d,
    get_operation sample_cfg (tournament_world tournament_op "GET")
                  "GeT" "/tournaments/{tournamentId}" = Ok (OpFound d)
    /\ od_key d = "GET /tournaments/{tournamentId}"
    /\ od_responseCodes d = ["200"; "404"].
Proof. eexists. split; [vm_compute; reflexivity | split; reflexivity]. Qed.

(* ------------------------------------------------------------------ *)
(** ** Documents of the expected shape *)

Lemma spec_paths_read spec paths :
  spec_paths spec = Some paths ->
  exists pj,
    py_get_default spec "paths" (JObj []) = Ok pj
    /\ py_items_of pj = Ok paths
    /\ forall k, py_get pj k =
                 Ok (match dict_get k paths with Some v => v | None => JNull end).
Proof.
  destruct spec as [| | | | |top]; try discriminate.
  unfold spec_paths, py_get_default.
  destruct (dict_get "paths" (py_items top)) as [pj|] eqn:E.
  - destruct pj as [| | | | |ps]; try discriminate.
    intros H; inversion H; subst. exists (JObj ps).
    split; [reflexivity|]. split; [reflexivity|].
    intros k. unfold py_get. destruct (dict_get k (py_items ps)); reflexivity.
  - intros H; inversion H; subst. exists (JObj []).
    split; [reflexivity|]. split; reflexivity.
Qed.

(* ------------------------------------------------------------------ *)
(** ** Not-found conditions *)




(* ------------------------------------------------------------------ *)
(** ** Snapshot diff *)

(** C9. Swapping the two versions swaps the two lists: what one direction
    reports as added the other reports as removed, and conversely; the
    swapped call succeeds whenever the original one does. *)
Theorem diff_swap cfg w (a b f t : string) (added removed : list string) :
  diff_openapi_versions cfg w a b = Ok (DiffOk f t added removed) ->
  diff_openapi_versions cfg w b a = Ok (DiffOk t f removed added).
Proof.
  unfold diff_openapi_versions.
  destruct (exists_checked w (snapshot_path cfg a)) as [[|]|]; cbn [bind negb];
    [|discriminate|discriminate].
  destruct (exists_checked w (snapshot_path cfg b)) as [[|]|]; cbn [bind negb];
    [|discriminate|discriminate].
  destruct (_load_openapi w (snapshot_path cfg a)) as [sa|]; [|discriminate].
  destruct (_load_openapi w (snapshot_path cfg b)) as [sb|]; [|discriminate].
  cbn [bind].
  destruct (collect sa) as [oa|]; [|discriminate].
  destruct (collect sb) as [ob|]; [|discriminate].
  cbn [bind]. intros H; inversion H; subst. reflexivity.
Qed.

Lemma diff_swap_witness :
  diff_openapi_versions sample_cfg snapshot_world "2.0.107" "2.0.106" =
  Ok (DiffOk "2.0.107" "2.0.106" []
        ["GET /api/account/{id}"; "PARAMETERS /api/account/{id}"]).
Proof.
  apply (diff_swap sample_cfg snapshot_world "2.0.106" "2.0.107").
  reflexivity.
Defined.

(** C3 (what the code does). [collect] inside [diff_openapi_versions] turns
    every member of a path item into a key, recognized method or not: when a
    path item has a path-level [parameters] member, the diff reports the key
    [PARAMETERS /api/account/{id}] although PARAMETERS is none of GET, POST,
    PUT, DELETE, PATCH, HEAD, OPTIONS. *)
Theorem diff_reports_unrecognized_member :
  diff_openapi_versions sample_cfg snapshot_world "2.0.106" "2.0.107" =
    Ok (DiffOk "2.0.106" "2.0.107"
          ["GET /api/account/{id}"; "PARAMETERS /api/account/{id}"] [])
  /\ ~ In "PARAMETERS" (map upper METHODS)
  /\ (exists l,
        list_operations sample_cfg
          (world_of [(OPENAPI_PATH sample_cfg,
                      one_path_spec "/api/account/{id}" account_item)] [])
          None true = Ok l
        /\ map os_key (operations l) = ["GET /api/account/{id}"]).
Proof.
  split; [reflexivity|]. split.
  - simpl. intros H. repeat (destruct H as [H|H]; [discriminate|]). exact H.
  - eexists. split; [vm_compute; reflexivity | reflexivity].
Qed.

(* ------------------------------------------------------------------ *)
(** ** The implemented-endpoints registry *)

Lemma split_space_app a b :
  exists x y, split_space (a ++ " " ++ b) = Some (x, y).
Proof.
  induction a as [|c a IH]; simpl in *.
  - eauto.
  - destruct (Ascii.eqb c " "); [eauto|].
    destruct IH as (x & y & ->). eauto.
Qed.

(** Every key of the registry has a space, so splitting it never fails. *)
Lemma implemented_keys_split cfg w impl :
  _parse_implemented_endpoints cfg w = Ok impl ->
  forall k, In k (dict_keys impl) -> exists n, normalized_impl_key k = Ok n.
Proof.
  unfold _parse_implemented_endpoints.
  destruct (path_exists w (IMPLEMENTED_ENDPOINTS_PATH cfg)); cbn [negb].
  - intros H. bind_inv H. inversion H; subst; clear H.
    intros k Hk. apply (proj1 (dict_of_pairs_keys _ _)) in Hk.
    rewrite map_map in Hk. apply in_map_iff in Hk.
    destruct Hk as ([[[m0 m1] m2] m3] & <- & _). cbn [implemented_entry fst].
    unfold normalized_impl_key.
    destruct (split_space_app m0 m1) as (x & y & ->). eauto.
  - intros H; inversion H; subst. intros k [].
Qed.

Lemma build_impl_normalized_total items :
  (forall k, In k (dict_keys items) -> exists n, normalized_impl_key k = Ok n) ->
  forall acc, exists d, build_impl_normalized items acc = Ok d.
Proof.
  induction items as [|[k info] r IH]; simpl; intros H acc; [eauto|].
  destruct (H k (or_introl eq_refl)) as [n ->]. cbn [bind].
  apply IH. auto.
Qed.

Lemma extra_loop_total ops norm (items : dict ImplementedInfo) :
  (forall k, In k (dict_keys items) -> exists n, normalized_impl_key k = Ok n) ->
  exists l, for_collect (extra_step ops norm) items = Ok l.
Proof.
  intros H. apply for_collect_total. intros [k info] Hin.
  unfold extra_step.
  destruct (negb (dict_mem k ops)); [|eauto].
  destruct (H k) as [n ->].
  - change k with (fst (k, info)). apply in_map. exact Hin.
  - cbn [bind]. destruct (negb (str_mem n norm)); eauto.
Qed.

(* ------------------------------------------------------------------ *)
(** ** The categorising loop *)

Lemma categorize_partition impl implnorm ops : forall ms pvs,
  categorize impl implnorm ops = (ms, pvs) ->
  Permutation (dict_keys ops)
    (exact_matched impl ops ++ map pv_openapi pvs ++ map me_key ms).
Proof.
  unfold exact_matched.
  induction ops as [|[key op] r IH]; simpl; intros ms pvs H.
  - inversion H; subst. constructor.
  - destruct (categorize impl implnorm r) as [ms' pvs'].
    specialize (IH _ _ eq_refl).
    destruct (dict_mem key impl).
    + inversion H; subst. simpl. constructor. exact IH.
    + destruct (dict_get (normalized_op_key op) implnorm) as [impl_key|];
        inversion H; subst; simpl.
      * apply Permutation_cons_app. exact IH.
      * rewrite app_assoc. apply Permutation_cons_app.
        rewrite <- app_assoc. exact IH.
Qed.

Lemma categorize_no_registry ops :
  categorize [] [] ops = (map (fun kv => missing_entry (fst kv) (snd kv)) ops, []).
Proof.
  induction ops as [|[key op] r IH]; simpl; [reflexivity|].
  rewrite IH. reflexivity.
Qed.

Lemma collect_openapi_ops_NoDup incl spec ops :
  collect_openapi_ops incl spec = Ok ops -> NoDup (dict_keys ops).
Proof.
  unfold collect_openapi_ops. intros H.
  bind_inv H. bind_inv H. bind_inv H. inversion H; subst.
  apply dict_of_pairs_NoDup.
Qed.

(** The run of [get_coverage_gaps] once its inputs are known. *)
Lemma get_coverage_gaps_run cfg w incl spec ops impl :
  load_json w (OPENAPI_PATH cfg) = Ok spec ->
  collect_openapi_ops incl spec = Ok ops ->
  _parse_implemented_endpoints cfg w = Ok impl ->
  exists implnorm ms pvs ex,
    build_impl_normalized impl [] = Ok implnorm
    /\ categorize impl implnorm ops = (ms, pvs)
    /\ for_collect (extra_step ops (openapi_normalized_of ops)) impl = Ok ex
    /\ get_coverage_gaps cfg w incl =
       Ok {| stats := {| openApiTotal := List.length ops;
                         implementedTotal := List.length impl;
                         missingCount := List.length ms;
                         pathVariationsCount := List.length pvs;
                         extraCount := List.length ex |};
             missing := sorted_by me_key ms;
             pathVariations := sorted_by pv_openapi pvs;
             extra := sorted_by ex_key ex |}.
Proof.
  intros Hload Hops Himpl.
  pose proof (implemented_keys_split _ _ Himpl) as Hsplit.
  destruct (build_impl_normalized_total _ Hsplit []) as [implnorm Hn].
  destruct (extra_loop_total ops (openapi_normalized_of ops) _ Hsplit)
    as [ex Hex].
  destruct (categorize impl implnorm ops) as [ms pvs] eqn:Hcat.
  exists implnorm, ms, pvs, ex. repeat split; try assumption.
  unfold get_coverage_gaps, _load_openapi.
  rewrite Hload. cbn [bind]. rewrite Hops. cbn [bind].
  rewrite Himpl. cbn [bind]. rewrite Hn. cbn [bind].
  rewrite Hcat, Hex. reflexivity.
Qed.

(** C1. For every spec document and every registry content,
    [get_coverage_gaps] splits the OpenAPI operation keys it considers into
    the exactly matched ones, the path variations and the missing ones:
    the three classes together are the keys, each key occurs once, in one
    class, and [openApiTotal] is the number of exact matches plus
    [missingCount] plus [pathVariationsCount]. *)
Theorem coverage_partition cfg w incl spec ops impl :
  load_json w (OPENAPI_PATH cfg) = Ok spec ->
  collect_openapi_ops incl spec = Ok ops ->
  _parse_implemented_endpoints cfg w = Ok impl ->
  exists r,
    get_coverage_gaps cfg w incl = Ok r
    /\ Permutation (dict_keys ops)
         (exact_matched impl ops
            ++ map pv_openapi (pathVariations r)
            ++ map me_key (missing r))
    /\ NoDup (exact_matched impl ops
                ++ map pv_openapi (pathVariations r)
                ++ map me_key (missing r))
    /\ openApiTotal (stats r) =
         List.length (exact_matched impl ops)
         + missingCount (stats r) + pathVariationsCount (stats r)
    /\ openApiTotal (stats r) = List.length ops
    /\ missingCount (stats r) = List.length (missing r)
    /\ pathVariationsCount (stats r) = List.length (pathVariations r).
Proof.
  intros Hload Hops Himpl.
  destruct (get_coverage_gaps_run cfg w incl Hload Hops Himpl)
    as (implnorm & ms & pvs & ex & _ & Hcat & _ & Hrun).
  eexists. split; [exact Hrun|]. cbn [stats missing pathVariations
    openApiTotal missingCount pathVariationsCount].
  pose proof (categorize_partition _ _ _ Hcat) as Hperm.
  assert (Hperm' : Permutation (dict_keys ops)
            (exact_matched impl ops
               ++ map pv_openapi (sorted_by pv_openapi pvs)
               ++ map me_key (sorted_by me_key ms))).
  { rewrite Hperm. apply Permutation_app_head.
    apply Permutation_app; symmetry; apply sorted_by_map_perm. }
  split; [exact Hperm'|]. split.
  - eapply Permutation_NoDup; [exact Hperm'|].
    eapply collect_openapi_ops_NoDup; exact Hops.
  - rewrite !sorted_by_length. repeat split.
    apply Permutation_length in Hperm.
    unfold dict_keys in Hperm.
    rewrite !length_app, !length_map in Hperm. lia.
Qed.

Lemma coverage_partition_witness :
  exists r,
    get_coverage_gaps sample_cfg (tournament_world tournament_op "GET") false
    = Ok r
    /\ openApiTotal (stats r) = 1 /\ pathVariationsCount (stats r) = 1.
Proof.
  destruct (coverage_partition sample_cfg
              (tournament_world tournament_op "GET") false
              (spec := one_path_spec "/tournaments/{tournamentId}"
                         (JObj [("get", tournament_op)]))
              eq_refl eq_refl eq_refl)
    as (r & Hr & _).
  exists r. split; [exact Hr|].
  vm_compute in Hr. inversion Hr; subst. split; reflexivity.
Defined.

(* ------------------------------------------------------------------ *)
(** ** Extra endpoints *)

Lemma extra_step_Some ops norm key info e :
  extra_step ops norm (key, info) = Ok (Some e) <->
  e = extra_entry key info
  /\ ~ In key (dict_keys ops)
  /\ exists n, normalized_impl_key key = Ok n /\ ~ In n norm.
Proof.
  unfold extra_step.
  destruct (dict_mem key ops) eqn:Em; cbn [negb].
  - apply dict_mem_keys in Em. split; [discriminate | tauto].
  - apply dict_mem_false in Em.
    destruct (normalized_impl_key key) as [n|x]; cbn [bind].
    + destruct (str_mem n norm) eqn:En; cbn [negb].
      * apply str_mem_In in En. split; [discriminate|].
        intros (_ & _ & n' & Hn' & Hnot). inversion Hn'; subst. contradiction.
      * apply str_mem_false in En. split.
        -- intros H; inversion H; subst. eauto.
        -- intros (-> & _). reflexivity.
    + split; [discriminate|]. intros (_ & _ & n & Hn & _). discriminate.
Qed.

(* ------------------------------------------------------------------ *)
(** ** No registry file *)

(** C7. When the registry file does not exist, parsing gives the empty
    registry and raises nothing, and [get_coverage_gaps] puts every OpenAPI
    operation it considers in [missing] and leaves [pathVariations] and
    [extra] empty. *)
Theorem absent_registry cfg w incl :
  path_exists w (IMPLEMENTED_ENDPOINTS_PATH cfg) = false ->
  _parse_implemented_endpoints cfg w = Ok []
  /\ forall spec ops,
       load_json w (OPENAPI_PATH cfg) = Ok spec ->
       collect_openapi_ops incl spec = Ok ops ->
       get_coverage_gaps cfg w incl =
       Ok {| stats := {| openApiTotal := List.length ops;
                         implementedTotal := 0;
                         missingCount := List.length ops;
                         pathVariationsCount := 0;
                         extraCount := 0 |};
             missing :=
               sorted_by me_key
                 (map (fun kv => missing_entry (fst kv) (snd kv)) ops);
             pathVariations := [];
             extra := [] |}.
Proof.
  intros Habsent.
  assert (Hparse : _parse_implemented_endpoints cfg w = Ok []).
  { unfold _parse_implemented_endpoints. rewrite Habsent. reflexivity. }
  split; [exact Hparse|].
  intros spec ops Hload Hops.
  unfold get_coverage_gaps, _load_openapi.
  rewrite Hload. cbn [bind]. rewrite Hops. cbn [bind].
  rewrite Hparse. cbn [bind build_impl_normalized].
  rewrite categorize_no_registry. cbn [for_collect bind sorted_by List.length].
  rewrite length_map. reflexivity.
Qed.

Lemma absent_registry_witness :
  exists r,
    get_coverage_gaps sample_cfg (ab_world false) false = Ok r
    /\ map me_key (missing r) = ["GET /a"; "POST /b"]
    /\ pathVariations r = []
    /\ extra r = [].
Proof.
  destruct (absent_registry sample_cfg (ab_world false) false eq_refl)
    as [_ Hrun].
  eexists. split.
  - apply (Hrun (ab_spec false) _ eq_refl eq_refl).
  - repeat split.
Defined.

(* ------------------------------------------------------------------ *)
(** ** The tournament scenario *)

(** C2 (as stated). With the registry record whose first field is [t], the
    key of the record is [t /tournaments/{broadcastTournamentId}]; its
    normalized form does not start with GET, so the operation is reported
    missing and no path variation is reported. *)
Lemma tournament_tag_record_not_paired :
  ~ (exists r,
       get_coverage_gaps sample_cfg (tournament_world tournament_op "t") false
       = Ok r
       /\ map (fun v => (pv_openapi v, pv_implemented v)) (pathVariations r) =
            [("GET /tournaments/{tournamentId}",
              "GET /tournaments/{broadcastTournamentId}")]
       /\ missing r = []).
Proof.
  intros (r & Hr & Hpv & _).
  vm_compute in Hr. inversion Hr; subst. discriminate Hpv.
Qed.

Example tournament_tag_record_run :
  exists r,
    get_coverage_gaps sample_cfg (tournament_world tournament_op "t") false
    = Ok r
    /\ pathVariations r = []
    /\ map me_key (missing r) = ["GET /tournaments/{tournamentId}"]
    /\ map ex_key (extra r) = ["t /tournaments/{broadcastTournamentId}"].
Proof. eexists. split; [vm_compute; reflexivity | repeat split]. Qed.

(** C2 (amended). The first field of a registry record is the HTTP method.
    With the record ("GET", "/tournaments/{broadcastTournamentId}",
    "lichess", "GetBroadcastTournament") and a spec whose only operation is
    GET /tournaments/{tournamentId}, whatever its summary and tags and
    whatever [include_deprecated], the operation is paired with the record
    as a path variation and nothing is missing or extra. *)
Theorem tournament_path_variation (summary tags : json) (incl : bool) :
  get_coverage_gaps sample_cfg
    (tournament_world (JObj [("summary", summary); ("tags", tags)]) "GET")
    incl =
  Ok {| stats := {| openApiTotal := 1;
                    implementedTotal := 1;
                    missingCount := 0;
                    pathVariationsCount := 1;
                    extraCount := 0 |};
        missing := [];
        pathVariations :=
          [{| pv_openapi := "GET /tournaments/{tournamentId}";
              pv_implemented := "GET /tournaments/{broadcastTournamentId}";
              pv_summary := summary;
              pv_tags := tags |}];
        extra := [] |}.
Proof. destruct incl; vm_compute; reflexivity. Qed.

(* ------------------------------------------------------------------ *)
(** ** Operation keys *)

(** Among the recognized methods a key determines its method and path. *)
Lemma op_key_inj m m' p p' :
  In m METHODS -> In m' METHODS ->
  _op_key m p = _op_key m' p' -> m = m' /\ p = p'.
Proof.
  unfold METHODS, _op_key. simpl In.
  intros Hm Hm' H.
  repeat (destruct Hm as [<-|Hm]); try contradiction;
    repeat (destruct Hm' as [<-|Hm']); try contradiction;
    vm_compute in H; first [discriminate H | inversion H; split; reflexivity].
Qed.

(* ------------------------------------------------------------------ *)
(** ** The loops over paths and recognized methods *)

Section NestedLoops.
Variable A : Type.
Variable step : string -> json -> string -> res (option A).

Lemma nested_loop_In (items : dict json) l :
  for_concat (fun '(p, item) => for_collect (step p item) METHODS) items
  = Ok l ->
  forall a,
    In a l <->
    exists p item m,
      In (p, item) items /\ In m METHODS /\ step p item m = Ok (Some a).
Proof.
  intros H a. rewrite (for_concat_In _ _ H). split.
  - intros ([p item] & l' & Hin & Hbody & Ha).
    apply (for_collect_In _ _ Hbody) in Ha. destruct Ha as (m & Hm & Hs).
    exists p, item, m. auto.
  - intros (p & item & m & Hin & Hm & Hs).
    assert (Hbody : exists l', for_collect (step p item) METHODS = Ok l').
    { clear - H Hin. revert l H.
      induction items as [|[p0 i0] r IH]; simpl; intros l H; [contradiction|].
      bind_inv H. bind_inv H. destruct Hin as [Heq|Hin].
      - inversion Heq; subst. eauto.
      - eapply IH; eauto. }
    destruct Hbody as [l' Hbody].
    exists (p, item), l'. split; [exact Hin|]. split; [exact Hbody|].
    apply (for_collect_In _ _ Hbody). exists m. auto.
Qed.
End NestedLoops.

Lemma spec_paths_NoDup spec paths :
  spec_paths spec = Some paths -> NoDup (dict_keys paths).
Proof.
  destruct spec as [| | | | |top]; try discriminate. unfold spec_paths.
  destruct (dict_get "paths" (py_items top)) as [[| | | | |ps]|];
    try discriminate; intros H; inversion H; subst.
  - apply dict_of_pairs_NoDup.
  - constructor.
Qed.

Lemma list_operations_run cfg w tag incl spec paths l :
  load_json w (OPENAPI_PATH cfg) = Ok spec ->
  spec_paths spec = Some paths ->
  list_operations cfg w tag incl = Ok l ->
  exists ops,
    for_concat
      (fun '(p, item) =>
         for_collect (list_operations_step tag incl p item) METHODS) paths
    = Ok ops
    /\ operations l = sorted_by os_key ops
    /\ count l = List.length (operations l).
Proof.
  intros Hload Hshape. unfold list_operations, _load_openapi.
  destruct (spec_paths_read _ Hshape) as (pj & Hp & Hitems & _).
  rewrite Hload. cbn [bind]. rewrite Hp. cbn [bind].
  rewrite Hitems. cbn [bind]. intros H. bind_inv H.
  inversion H; subst. exists a. auto.
Qed.

Lemma collect_openapi_ops_run incl spec paths ops :
  spec_paths spec = Some paths ->
  collect_openapi_ops incl spec = Ok ops ->
  exists assignments,
    for_concat
      (fun '(p, item) =>
         for_collect (openapi_ops_step incl p item) METHODS) paths
    = Ok assignments
    /\ ops = dict_of_pairs assignments.
Proof.
  intros Hshape. unfold collect_openapi_ops.
  destruct (spec_paths_read _ Hshape) as (pj & Hp & Hitems & _).
  rewrite Hp. cbn [bind]. rewrite Hitems. cbn [bind]. intros H. bind_inv H.
  inversion H; subst. exists a. auto.
Qed.

Lemma get_coverage_gaps_inputs cfg w incl r :
  get_coverage_gaps cfg w incl = Ok r ->
  exists spec ops impl,
    load_json w (OPENAPI_PATH cfg) = Ok spec
    /\ collect_openapi_ops incl spec = Ok ops
    /\ _parse_implemented_endpoints cfg w = Ok impl.
Proof.
  unfold get_coverage_gaps, _load_openapi. intros H.
  bind_inv H. bind_inv H. bind_inv H. eauto 6.
Qed.

(* ------------------------------------------------------------------ *)
(** ** One iteration, on an object operation *)

Lemma list_operations_step_key tag incl p item m e :
  list_operations_step tag incl p item m = Ok (Some e) -> os_key e = _op_key m p.
Proof.
  unfold list_operations_step. intros H.
  bind_inv H. destruct a; [|discriminate].
  bind_inv H. bind_inv H. destruct a0; [discriminate|].
  bind_inv H. bind_inv H. destruct a1; [discriminate|].
  bind_inv H. bind_inv H. inversion H; subst. reflexivity.
Qed.

Lemma openapi_ops_step_key incl p item m k o :
  openapi_ops_step incl p item m = Ok (Some (k, o)) -> k = _op_key m p.
Proof.
  unfold openapi_ops_step. intros H.
  bind_inv H. destruct a; [|discriminate].
  bind_inv H. bind_inv H. destruct a0; [discriminate|].
  bind_inv H. bind_inv H. bind_inv H. inversion H; subst. reflexivity.
Qed.

Section DeprecatedOperation.
Variables (item : list (string * json)) (m : string) (op : json).
Hypothesis Hop : dict_get m (py_items item) = Some op.
Hypothesis Hdep : is_deprecated op = true.

Lemma deprecated_op_object :
  exists members d,
    op = JObj members
    /\ py_get_default op "deprecated" (JBool false) = Ok d
    /\ truthy d = true.
Proof.
  unfold is_deprecated in Hdep.
  destruct op as [| | | | |members]; try discriminate.
  destruct (py_get_default (JObj members) "deprecated" (JBool false))
    as [d|] eqn:E; [|discriminate].
  exists members, d. auto.
Qed.

Lemma step_present : py_contains m (JObj item) = Ok true.
Proof. unfold py_contains, dict_mem. rewrite Hop. reflexivity. Qed.

Lemma step_index : py_index (JObj item) m = Ok op.
Proof. unfold py_index. rewrite Hop. reflexivity. Qed.

Lemma skip_deprecated_op incl : skip_deprecated incl op = Ok (negb incl).
Proof.
  destruct deprecated_op_object as (members & d & _ & Hd & Ht).
  unfold skip_deprecated. destruct incl; cbn [negb]; [reflexivity|].
  rewrite Hd. cbn [bind]. rewrite Ht. reflexivity.
Qed.

Lemma list_operations_step_skips tag p :
  list_operations_step tag false p (JObj item) m = Ok None.
Proof.
  unfold list_operations_step.
  rewrite step_present. cbn [bind]. rewrite step_index. cbn [bind].
  rewrite skip_deprecated_op. reflexivity.
Qed.

Lemma openapi_ops_step_skips p :
  openapi_ops_step false p (JObj item) m = Ok None.
Proof.
  unfold openapi_ops_step.
  rewrite step_present. cbn [bind]. rewrite step_index. cbn [bind].
  rewrite skip_deprecated_op. reflexivity.
Qed.

Lemma list_operations_step_keeps tag tags p :
  py_get_default op "tags" (JArr []) = Ok tags ->
  tag_excluded tag tags = Ok false ->
  exists e,
    list_operations_step tag true p (JObj item) m = Ok (Some e)
    /\ os_key e = _op_key m p
    /\ os_tags e = tags
    /\ os_deprecated e = true.
Proof.
  intros Htags Hexcl.
  destruct deprecated_op_object as (members & d & Hobj & Hd & Ht).
  unfold list_operations_step.
  rewrite step_present. cbn [bind]. rewrite step_index. cbn [bind].
  rewrite skip_deprecated_op. cbn [negb bind].
  rewrite Htags. cbn [bind]. rewrite Hexcl. cbn [bind].
  rewrite Hd. subst op. unfold py_get.
  destruct (dict_get "summary" (py_items members));
    cbn [bind]; rewrite Ht; eexists; repeat split.
Qed.

Lemma openapi_ops_step_keeps p :
  exists o,
    openapi_ops_step true p (JObj item) m = Ok (Some (_op_key m p, o))
    /\ oa_deprecated o = true.
Proof.
  destruct deprecated_op_object as (members & d & Hobj & Hd & Ht).
  unfold openapi_ops_step.
  rewrite step_present. cbn [bind]. rewrite step_index. cbn [bind].
  rewrite skip_deprecated_op. cbn [negb bind].
  rewrite Hd. subst op. unfold py_get, py_get_default.
  destruct (dict_get "summary" (py_items members));
    destruct (dict_get "tags" (py_items members));
    cbn [bind]; rewrite Ht; eexists; repeat split.
Qed.
End DeprecatedOperation.

Lemma categorize_missing_In impl implnorm ops : forall ms pvs,
  categorize impl implnorm ops = (ms, pvs) ->
  forall e, In e ms -> exists k o, In (k, o) ops /\ e = missing_entry k o.
Proof.
  induction ops as [|[key op] r IH]; simpl; intros ms pvs H e He.
  - inversion H; subst. contradiction.
  - destruct (categorize impl implnorm r) as [ms' pvs'].
    specialize (IH _ _ eq_refl).
    assert (Hrec : In e ms' -> exists k o,
                     ((key, op) = (k, o) \/ In (k, o) r) /\ e = missing_entry k o).
    { intros H'. destruct (IH e H') as (k & o & Hin & ->). eauto. }
    destruct (dict_mem key impl); [inversion H; subst; auto|].
    destruct (dict_get (normalized_op_key op) implnorm);
      inversion H; subst; auto.
    destruct He as [<-|He]; [|auto]. exists key, op. auto.
Qed.

(* ------------------------------------------------------------------ *)
(** ** Deprecated operations *)

Section DeprecatedFiltering.
Variables (cfg : Config) (w : World) (spec : json) (paths : dict json).
Variables (p m : string) (item : list (string * json)) (op : json).
Hypothesis Hload : load_json w (OPENAPI_PATH cfg) = Ok spec.
Hypothesis Hshape : spec_paths spec = Some paths.
Hypothesis Hitem : dict_get p paths = Some (JObj item).
Hypothesis Hm : In m METHODS.
Hypothesis Hop : dict_get m (py_items item) = Some op.
Hypothesis Hdep : is_deprecated op = true.

(** The key of the operation is produced by one iteration only. *)
Lemma key_place p' item' m' :
  In (p', item') paths -> In m' METHODS ->
  _op_key m' p' = _op_key m p ->
  p' = p /\ m' = m /\ item' = JObj item.
Proof.
  intros Hin Hm' Hkey.
  destruct (op_key_inj _ _ Hm' Hm Hkey) as [-> ->].
  repeat split.
  apply (dict_get_unique _ _ _ (spec_paths_NoDup _ Hshape)) in Hin.
  congruence.
Qed.

Lemma listing_excludes tag l :
  list_operations cfg w tag false = Ok l ->
  ~ In (_op_key m p) (map os_key (operations l)).
Proof.
  intros Hl Hin.
  destruct (list_operations_run _ _ _ _ Hload Hshape Hl)
    as (ops & Hloop & Hsorted & _).
  apply in_map_iff in Hin. destruct Hin as (e & Hkey & He).
  rewrite Hsorted in He. apply sorted_by_In in He.
  apply (nested_loop_In _ _ Hloop) in He.
  destruct He as (p' & item' & m' & Hin & Hm' & Hstep).
  pose proof (list_operations_step_key _ _ _ _ _ Hstep) as Hk.
  destruct (@key_place p' item' m' Hin Hm') as (-> & -> & ->); [congruence|].
  rewrite (list_operations_step_skips _ _ Hop Hdep) in Hstep. discriminate.
Qed.

Lemma index_excludes ops :
  collect_openapi_ops false spec = Ok ops -> ~ In (_op_key m p) (dict_keys ops).
Proof.
  intros Hops Hin.
  destruct (@collect_openapi_ops_run _ _ _ _ Hshape Hops) as (asg & Hloop & ->).
  apply (proj1 (dict_of_pairs_keys _ _)) in Hin.
  apply in_map_iff in Hin. destruct Hin as ([k o] & Hkey & He).
  cbn [fst] in Hkey. subst k.
  apply (nested_loop_In _ _ Hloop) in He.
  destruct He as (p' & item' & m' & Hin & Hm' & Hstep).
  pose proof (openapi_ops_step_key _ _ _ _ Hstep) as Hk.
  destruct (@key_place p' item' m' Hin Hm') as (-> & -> & ->); [congruence|].
  rewrite (openapi_ops_step_skips _ _ Hop Hdep) in Hstep. discriminate.
Qed.

Lemma gaps_exclude r :
  get_coverage_gaps cfg w false = Ok r ->
  ~ In (_op_key m p) (map me_key (missing r))
  /\ ~ In (_op_key m p) (map pv_openapi (pathVariations r))
  /\ exists ops,
       collect_openapi_ops false spec = Ok ops
       /\ ~ In (_op_key m p) (dict_keys ops)
       /\ openApiTotal (stats r) = List.length ops.
Proof.
  intros Hr.
  destruct (get_coverage_gaps_inputs _ _ _ Hr) as (spec' & ops & impl & Hl & Hops & Himpl).
  assert (spec' = spec) by congruence. subst spec'.
  destruct (get_coverage_gaps_run cfg w false Hl Hops Himpl)
    as (implnorm & ms & pvs & ex & _ & Hcat & _ & Hrun).
  rewrite Hrun in Hr. inversion Hr; subst r; clear Hr.
  cbn [missing pathVariations stats openApiTotal].
  pose proof (categorize_partition _ _ _ Hcat) as Hperm.
  pose proof (index_excludes Hops) as Hnot.
  assert (Hsub : forall k,
             In k (map pv_openapi pvs ++ map me_key ms) ->
             In k (dict_keys ops)).
  { intros k Hk. eapply Permutation_in; [symmetry; exact Hperm|].
    apply in_or_app. right. exact Hk. }
  split; [|split].
  - intros H. apply Hnot, Hsub, in_or_app. right.
    eapply Permutation_in; [apply sorted_by_map_perm | exact H].
  - intros H. apply Hnot, Hsub, in_or_app. left.
    eapply Permutation_in; [apply sorted_by_map_perm | exact H].
  - exists ops. auto.
Qed.

Lemma listing_includes tag tags l :
  py_get_default op "tags" (JArr []) = Ok tags ->
  tag_excluded tag tags = Ok false ->
  list_operations cfg w tag true = Ok l ->
  exists e,
    In e (operations l) /\ os_key e = _op_key m p /\ os_deprecated e = true.
Proof.
  intros Htags Hexcl Hl.
  destruct (list_operations_run _ _ _ _ Hload Hshape Hl)
    as (ops & Hloop & Hsorted & _).
  destruct (list_operations_step_keeps _ _ Hop Hdep tag p Htags Hexcl)
    as (e & Hstep & Hk & _ & Hd).
  exists e. split; [|auto].
  rewrite Hsorted. apply sorted_by_In. apply (nested_loop_In _ _ Hloop).
  exists p, (JObj item), m. split; [|auto].
  apply dict_get_In. exact Hitem.
Qed.

Lemma index_includes ops :
  collect_openapi_ops true spec = Ok ops ->
  exists o,
    dict_get (_op_key m p) ops = Some o /\ oa_deprecated o = true.
Proof.
  intros Hops.
  destruct (@collect_openapi_ops_run _ _ _ _ Hshape Hops) as (asg & Hloop & ->).
  destruct (openapi_ops_step_keeps _ _ Hop Hdep p) as (o & Hstep & Hd).
  exists o. split; [|exact Hd].
  apply dict_of_pairs_get_agree.
  - apply (nested_loop_In _ _ Hloop).
    exists p, (JObj item), m. split; [|auto].
    apply dict_get_In. exact Hitem.
  - intros o' Ho'. apply (nested_loop_In _ _ Hloop) in Ho'.
    destruct Ho' as (p' & item' & m' & Hin & Hm' & Hstep').
    pose proof (openapi_ops_step_key _ _ _ _ Hstep') as Hk.
    destruct (@key_place p' item' m' Hin Hm') as (-> & -> & ->); [congruence|].
    congruence.
Qed.

Lemma gaps_include r :
  get_coverage_gaps cfg w true = Ok r ->
  (exists ops o,
      collect_openapi_ops true spec = Ok ops
      /\ dict_get (_op_key m p) ops = Some o
      /\ oa_deprecated o = true
      /\ openApiTotal (stats r) = List.length ops)
  /\ (forall e,
        In e (missing r) -> me_key e = _op_key m p -> me_deprecated e = true).
Proof.
  intros Hr.
  destruct (get_coverage_gaps_inputs _ _ _ Hr) as (spec' & ops & impl & Hl & Hops & Himpl).
  assert (spec' = spec) by congruence. subst spec'.
  destruct (get_coverage_gaps_run cfg w true Hl Hops Himpl)
    as (implnorm & ms & pvs & ex & _ & Hcat & _ & Hrun).
  rewrite Hrun in Hr. inversion Hr; subst r; clear Hr.
  destruct (index_includes Hops) as (o & Hget & Hd).
  split.
  - exists ops, o. auto.
  - cbn [missing]. intros e He Hk. apply sorted_by_In in He.
    destruct (categorize_missing_In _ _ _ Hcat _ He) as (k & o' & Hin & ->).
    cbn [missing_entry me_key me_deprecated] in *. subst k.
    apply (dict_get_unique _ _ _ (collect_openapi_ops_NoDup _ _ Hops)) in Hin.
    congruence.
Qed.
End DeprecatedFiltering.

(** C6 (as stated). With [include_deprecated] false a deprecated operation
    can still show up in a result list: when the registry implements it, its
    key is not in the filtered operation index, so the registry record with
    that very key is reported in [extra]. *)
Lemma deprecated_key_reported_extra :
  (exists op,
      operation_at (ab_spec true) "/b" "post" = Some op
      /\ is_deprecated op = true)
  /\ ~ (forall r,
          get_coverage_gaps sample_cfg ab_implemented_world false = Ok r ->
          ~ In "POST /b" (map me_key (missing r))
          /\ ~ In "POST /b" (map pv_openapi (pathVariations r))
          /\ ~ In "POST /b" (map ex_key (extra r))).
Proof.
  split.
  - eexists. split; reflexivity.
  - intros H.
    destruct (H {| stats := {| openApiTotal := 1; implementedTotal := 1;
                                missingCount := 1; pathVariationsCount := 0;
                                extraCount := 1 |};
                   missing := [{| me_key := "GET /a"; me_summary := JStr "a";
                                  me_tags := JArr []; me_deprecated := false |}];
                   pathVariations := [];
                   extra := [{| ex_key := "POST /b"; ex_api := "Demo";
                                ex_method := "PostBAsync" |}] |} eq_refl)
      as (_ & _ & Hex).
    apply Hex. simpl. auto.
Qed.

(** C6 (amended). An operation under a recognized method whose deprecated
    flag is true, in a spec document of the expected shape:
    - with [include_deprecated] false, has no entry in the output of
      [list_operations], is not a key of the OpenAPI operation index of
      [get_coverage_gaps], is in neither [missing] nor [pathVariations], and
      [openApiTotal] counts the index without it;
    - with [include_deprecated] true, is listed by [list_operations] with
      its deprecated field true (when the tag filter lets it through), is in
      the operation index with its deprecated field true, and is counted in
      [openApiTotal]; if it is reported missing, the entry is flagged. *)
Theorem deprecated_filtering cfg w spec p m op :
  load_json w (OPENAPI_PATH cfg) = Ok spec ->
  In m METHODS ->
  operation_at spec p m = Some op ->
  is_deprecated op = true ->
  (forall tag l,
      list_operations cfg w tag false = Ok l ->
      ~ In (_op_key m p) (map os_key (operations l)))
  /\ (forall r,
        get_coverage_gaps cfg w false = Ok r ->
        ~ In (_op_key m p) (map me_key (missing r))
        /\ ~ In (_op_key m p) (map pv_openapi (pathVariations r))
        /\ exists ops,
             collect_openapi_ops false spec = Ok ops
             /\ ~ In (_op_key m p) (dict_keys ops)
             /\ openApiTotal (stats r) = List.length ops)
  /\ (forall tag tags l,
        py_get_default op "tags" (JArr []) = Ok tags ->
        tag_excluded tag tags = Ok false ->
        list_operations cfg w tag true = Ok l ->
        exists e,
          In e (operations l)
          /\ os_key e = _op_key m p /\ os_deprecated e = true)
  /\ (forall r,
        get_coverage_gaps cfg w true = Ok r ->
        (exists ops o,
            collect_openapi_ops true spec = Ok ops
            /\ dict_get (_op_key m p) ops = Some o
            /\ oa_deprecated o = true
            /\ openApiTotal (stats r) = List.length ops)
        /\ (forall e,
              In e (missing r) ->
              me_key e = _op_key m p -> me_deprecated e = true)).
Proof.
  intros Hload Hm Hat Hdep. unfold operation_at in Hat.
  destruct (spec_paths spec) as [paths|] eqn:Hshape; [|discriminate].
  destruct (dict_get p paths) as [[| | | | |item]|] eqn:Hitem;
    try discriminate.
  split; [|split; [|split]].
  - intros tag l. eapply listing_excludes; eassumption.
  - intros r. eapply gaps_exclude; eassumption.
  - intros tag tags l. eapply listing_includes; eassumption.
  - intros r. eapply gaps_include; eassumption.
Qed.

Lemma deprecated_filtering_witness :
  (exists l,
      list_operations sample_cfg (ab_world true) None false = Ok l
      /\ map os_key (operations l) = ["GET /a"])
  /\ (exists r,
        get_coverage_gaps sample_cfg (ab_world true) false = Ok r
        /\ openApiTotal (stats r) = 1
        /\ ~ In "POST /b" (map me_key (missing r)))
  /\ (exists l e,
        list_operations sample_cfg (ab_world true) None true = Ok l
        /\ In e (operations l)
        /\ os_key e = "POST /b" /\ os_deprecated e = true)
  /\ (exists r,
        get_coverage_gaps sample_cfg (ab_world true) true = Ok r
        /\ openApiTotal (stats r) = 2).
Proof.
  destruct (@deprecated_filtering sample_cfg (ab_world true)
              (ab_spec true) "/b" "post"
              (JObj [("summary", JStr "b"); ("deprecated", JBool true)])
              eq_refl)
    as (Hlist & Hgaps & Hlist' & Hgaps').
  - simpl. tauto.
  - reflexivity.
  - reflexivity.
  - split; [|split; [|split]].
    + eexists. split; [vm_compute; reflexivity | reflexivity].
    + eexists. split; [vm_compute; reflexivity|]. split; [reflexivity|].
      apply (Hgaps _ eq_refl).
    + destruct (Hlist' None (JArr []) _ eq_refl eq_refl eq_refl)
        as (e & He & Hk & Hd).
      eexists _, e. split; [vm_compute; reflexivity|]. auto.
    + eexists. split; [vm_compute; reflexivity | reflexivity].
Defined.

(* ================================================================== *)
(** * Further properties of the code *)

Unset Implicit Arguments.

(* ------------------------------------------------------------------ *)
(** ** Normalization, placeholder by placeholder *)

Lemma span_not_app_stop a b :
  has_close a = false ->
  span_not "}" (a ++ String "}" b) = (a, String "}" b).
Proof.
  induction a as [|c t IH]; intros H.
  - reflexivity.
  - cbn [has_close] in H. apply orb_false_iff in H. destruct H as [Hc Ht].
    cbn [append span_not]. rewrite Hc, (IH Ht). reflexivity.
Qed.

Lemma span_not_app_open a b :
  has_close a = false ->
  span_not "}" (a ++ b) =
  let (x, y) := span_not "}" b in (a ++ x, y).
Proof.
  induction a as [|c t IH]; intros H.
  - cbn [append]. destruct (span_not "}" b); reflexivity.
  - cbn [has_close] in H. apply orb_false_iff in H. destruct H as [Hc Ht].
    cbn [append span_not]. rewrite Hc, (IH Ht).
    destruct (span_not "}" b); reflexivity.
Qed.

Lemma span_not_app_closed a b :
  has_close a = true ->
  span_not "}" (a ++ b) =
  let (x, y) := span_not "}" a in (x, y ++ b).
Proof.
  induction a as [|c t IH]; intros H; [discriminate|].
  cbn [has_close] in H. cbn [append span_not].
  destruct (Ascii.eqb c "}") eqn:Hc.
  - reflexivity.
  - cbn [orb] in H. rewrite (IH H).
    destruct (span_not "}" t); reflexivity.
Qed.

Lemma match_placeholder_named name rest :
  name <> "" -> has_close name = false ->
  match_placeholder (String "{" (name ++ String "}" rest)) = Some rest.
Proof.
  intros Hne Hnc. unfold match_placeholder. cbn [expect].
  rewrite Ascii.eqb_refl, (span_not_app_stop _ _ Hnc).
  destruct name as [|c n]; [contradiction|].
  cbn [expect]. rewrite Ascii.eqb_refl. reflexivity.
Qed.

Lemma normalize_plain_prefix pre s :
  has_char "{" pre = false ->
  _normalize_path (pre ++ s) = pre ++ _normalize_path s.
Proof.
  induction pre as [|c t IH]; intros H; [reflexivity|].
  cbn [has_char] in H. apply orb_false_iff in H. destruct H as [Hc Ht].
  cbn [append]. rewrite normalize_step.
  unfold match_placeholder. cbn [expect].
  rewrite Ascii.eqb_sym, Hc, (IH Ht). reflexivity.
Qed.

(** X1. Text up to the first opening brace is kept, the placeholder that
    follows becomes [{param}] whatever its (non-empty, brace-free) name, and
    normalization goes on with the rest of the path. *)
Theorem normalize_first_placeholder (pre name rest : string) :
  has_char "{" pre = false ->
  name <> "" ->
  has_close name = false ->
  _normalize_path (pre ++ "{" ++ name ++ "}" ++ rest) =
  pre ++ "{param}" ++ _normalize_path rest.
Proof.
  intros Hpre Hne Hnc.
  rewrite (normalize_plain_prefix _ _ Hpre). f_equal.
  change ("{" ++ name ++ "}" ++ rest) with (String "{" (name ++ String "}" rest)).
  rewrite normalize_step, (match_placeholder_named _ _ Hne Hnc). reflexivity.
Qed.

Lemma normalize_first_placeholder_witness :
  _normalize_path ("/api/users/" ++ "{" ++ "id" ++ "}" ++ "/posts/{postId}") =
  "/api/users/" ++ "{param}" ++ _normalize_path "/posts/{postId}".
Proof.
  apply normalize_first_placeholder;
    [reflexivity | discriminate | reflexivity].
Defined.

(** X2. A path in which no opening brace occurs, or no closing brace, has
    no placeholder and is returned unchanged. *)
Theorem normalize_without_braces (p : string) :
  has_char "{" p = false \/ has_close p = false ->
  _normalize_path p = p.
Proof.
  intros [H|H].
  - induction p as [|c t IH]; [reflexivity|].
    cbn [has_char] in H. apply orb_false_iff in H. destruct H as [Hc Ht].
    rewrite normalize_step. unfold match_placeholder. cbn [expect].
    rewrite Ascii.eqb_sym, Hc, (IH Ht). reflexivity.
  - induction p as [|c t IH]; [reflexivity|].
    rewrite normalize_step, (no_close_no_match _ H).
    cbn [has_close] in H. apply orb_false_iff in H.
    rewrite (IH (proj2 H)). reflexivity.
Qed.

Lemma normalize_without_braces_witness :
  _normalize_path "/api/account/{unclosed" = "/api/account/{unclosed"
  /\ _normalize_path "/api/tv/channels" = "/api/tv/channels".
Proof.
  split; apply normalize_without_braces;
    [right | left]; reflexivity.
Defined.

Lemma match_placeholder_name_irrelevant_upto n : forall pre,
  String.length pre <= n ->
  forall n1 n2 rest,
    n1 <> "" -> n2 <> "" -> has_close n1 = false -> has_close n2 = false ->
    _normalize_path (pre ++ String "{" (n1 ++ String "}" rest)) =
    _normalize_path (pre ++ String "{" (n2 ++ String "}" rest)).
Proof.
  induction n as [|n IH]; intros pre Hlen n1 n2 rest H1 H2 C1 C2.
  - destruct pre; [|simpl in Hlen; lia]. cbn [append].
    rewrite !normalize_step, !match_placeholder_named by assumption.
    reflexivity.
  - destruct pre as [|c t].
    + cbn [append].
      rewrite !normalize_step, !match_placeholder_named by assumption.
      reflexivity.
    + cbn [append String.length] in *. rewrite !normalize_step.
      unfold match_placeholder. cbn [expect].
      destruct (Ascii.eqb "{" c).
      * destruct (has_close t) eqn:Ht.
        -- (* the match, if any, ends inside [t] *)
           rewrite !(span_not_app_closed _ _ Ht).
           destruct (span_not "}" t) as [body r] eqn:Es.
           destruct body as [|b body'].
           ++ rewrite (IH t ltac:(lia) n1 n2 rest H1 H2 C1 C2). reflexivity.
           ++ destruct r as [|c' r'].
              ** apply span_rest_empty in Es. congruence.
              ** pose proof (span_not_length _ _ Es) as Hr.
                 cbn [String.length] in Hr. cbn [append expect].
                 destruct (Ascii.eqb "}" c').
                 --- rewrite (IH r' ltac:(lia) n1 n2 rest H1 H2 C1 C2).
                     reflexivity.
                 --- rewrite (IH t ltac:(lia) n1 n2 rest H1 H2 C1 C2).
                     reflexivity.
        -- (* the match runs up to the brace that closes the name *)
           assert (E : forall nm,
                      has_close nm = false ->
                      span_not "}" (t ++ String "{" (nm ++ String "}" rest)) =
                      (t ++ String "{" nm, String "}" rest)).
           { intros nm Hnm. rewrite (span_not_app_open _ _ Ht).
             cbn [span_not].
             replace (Ascii.eqb "{" "}") with false by reflexivity.
             rewrite (span_not_app_stop _ _ Hnm). reflexivity. }
           rewrite (E _ C1), (E _ C2).
           destruct t; cbn [append expect]; rewrite Ascii.eqb_refl;
             reflexivity.
      * rewrite (IH t ltac:(lia) n1 n2 rest H1 H2 C1 C2). reflexivity.
Qed.

(** X3. The name inside a placeholder does not matter, wherever the
    placeholder stands: two paths that differ only in the (non-empty,
    brace-free) name of one placeholder normalize to the same text. *)
Theorem normalize_name_irrelevant (pre n1 n2 rest : string) :
  n1 <> "" -> n2 <> "" ->
  has_close n1 = false -> has_close n2 = false ->
  _normalize_path (pre ++ "{" ++ n1 ++ "}" ++ rest) =
  _normalize_path (pre ++ "{" ++ n2 ++ "}" ++ rest).
Proof.
  intros H1 H2 C1 C2.
  change ("{" ++ n1 ++ "}" ++ rest) with (String "{" (n1 ++ String "}" rest)).
  change ("{" ++ n2 ++ "}" ++ rest) with (String "{" (n2 ++ String "}" rest)).
  apply (match_placeholder_name_irrelevant_upto (String.length pre));
    auto.
Qed.

Lemma normalize_name_irrelevant_witness :
  _normalize_path ("/tournaments/" ++ "{" ++ "tournamentId" ++ "}" ++ "/rounds") =
  _normalize_path
    ("/tournaments/" ++ "{" ++ "broadcastTournamentId" ++ "}" ++ "/rounds").
Proof.
  apply normalize_name_irrelevant;
    [discriminate | discriminate | reflexivity | reflexivity].
Defined.

(* ------------------------------------------------------------------ *)
(** ** Loops, compared and keyed *)

Section LoopKeys.
Variables X A : Type.
Variable f : X -> string.
Variable key : A -> string.

Lemma for_collect_keys_NoDup (body : X -> res (option A)) xs : forall l,
  NoDup xs ->
  (forall x y, In x xs -> In y xs -> f x = f y -> x = y) ->
  (forall x a, body x = Ok (Some a) -> key a = f x) ->
  for_collect body xs = Ok l ->
  NoDup (map key l).
Proof.
  induction xs as [|x r IH]; simpl; intros l ND Hinj Hkey H.
  - inversion H; subst. constructor.
  - bind_inv H. bind_inv H. inversion H; subst; clear H.
    inversion ND as [|? ? Hx ND']; subst.
    assert (Hrest : NoDup (map key a0)).
    { apply IH; auto. }
    destruct a as [a|]; [|exact Hrest].
    simpl. constructor; [|exact Hrest].
    intros Hin. apply in_map_iff in Hin. destruct Hin as (a' & Hk & Ha').
    apply (for_collect_In _ _ E0) in Ha'. destruct Ha' as (y & Hy & Hby).
    apply Hx. replace x with y; [exact Hy|].
    apply Hinj; auto.
    rewrite <- (Hkey _ _ Hby), <- (Hkey _ _ E). exact Hk.
Qed.
End LoopKeys.

Section LoopRefinement.
Variables X A : Type.

Lemma for_collect_refines (b1 b2 : X -> res (option A)) xs : forall l1 l2,
  refines b1 b2 ->
  for_collect b1 xs = Ok l1 -> for_collect b2 xs = Ok l2 ->
  incl l1 l2 /\ List.length l1 <= List.length l2.
Proof.
  induction xs as [|x r IH]; simpl; intros l1 l2 R H1 H2.
  - inversion H1; inversion H2; subst. split; [apply incl_refl | lia].
  - bind_inv H1. bind_inv H1. bind_inv H2. bind_inv H2.
    inversion H1; inversion H2; subst; clear H1 H2.
    destruct (IH _ _ R E0 E2) as [Hi Hl].
    destruct (R _ _ _ E E1) as [->| ->].
    + destruct a1; split; simpl; try lia; auto using incl_tl.
    + destruct a1; split; simpl; try lia; auto.
      apply incl_cons; [left; reflexivity | apply incl_tl; exact Hi].
Qed.

Lemma for_collect_follows (b1 b2 : X -> res (option A)) xs : forall l1,
  (forall x o1, b1 x = Ok o1 -> exists o2, b2 x = Ok o2) ->
  for_collect b1 xs = Ok l1 -> exists l2, for_collect b2 xs = Ok l2.
Proof.
  induction xs as [|x r IH]; simpl; intros l1 F H1; [eauto|].
  bind_inv H1. bind_inv H1.
  destruct (F _ _ E) as [o2 ->]. destruct (IH _ F E0) as [l2 ->].
  simpl. eauto.
Qed.

Lemma for_collect_ext (b1 b2 : X -> res (option A)) xs :
  (forall x, b1 x = b2 x) -> for_collect b1 xs = for_collect b2 xs.
Proof.
  intros E. induction xs as [|x r IH]; simpl; [reflexivity|].
  rewrite E, IH. reflexivity.
Qed.

Lemma for_concat_ext (b1 b2 : X -> res (list A)) xs :
  (forall x, b1 x = b2 x) -> for_concat b1 xs = for_concat b2 xs.
Proof.
  intros E. induction xs as [|x r IH]; simpl; [reflexivity|].
  rewrite E, IH. reflexivity.
Qed.

Lemma for_concat_refines (b1 b2 : X -> res (list A)) xs : forall l1 l2,
  (forall x r1 r2, b1 x = Ok r1 -> b2 x = Ok r2 ->
                   incl r1 r2 /\ List.length r1 <= List.length r2) ->
  for_concat b1 xs = Ok l1 -> for_concat b2 xs = Ok l2 ->
  incl l1 l2 /\ List.length l1 <= List.length l2.
Proof.
  induction xs as [|x r IH]; simpl; intros l1 l2 R H1 H2.
  - inversion H1; inversion H2; subst. split; [apply incl_refl | lia].
  - bind_inv H1. bind_inv H1. bind_inv H2. bind_inv H2.
    inversion H1; inversion H2; subst; clear H1 H2.
    destruct (IH _ _ R E0 E2) as [Hi Hl].
    destruct (R _ _ _ E E1) as [Hi' Hl'].
    split.
    + apply incl_app; [apply incl_appl | apply incl_appr]; assumption.
    + rewrite !length_app. lia.
Qed.

Lemma for_concat_follows (b1 b2 : X -> res (list A)) xs : forall l1,
  (forall x r1, b1 x = Ok r1 -> exists r2, b2 x = Ok r2) ->
  for_concat b1 xs = Ok l1 -> exists l2, for_concat b2 xs = Ok l2.
Proof.
  induction xs as [|x r IH]; simpl; intros l1 F H1; [eauto|].
  bind_inv H1. bind_inv H1.
  destruct (F _ _ E) as [r2 ->]. destruct (IH _ F E0) as [l2 ->].
  simpl. eauto.
Qed.
End LoopRefinement.

Lemma METHODS_NoDup : NoDup METHODS.
Proof.
  unfold METHODS.
  repeat (constructor;
          [simpl; intros H;
           repeat (destruct H as [H|H]; [discriminate H|]); exact H|]).
  constructor.
Qed.

(** The keys produced by the loops over paths and recognized methods are
    pairwise distinct. *)
Lemma nested_loop_keys_NoDup (A : Type) (key : A -> string)
    (step : string -> json -> string -> res (option A))
    (items : dict json) :
  (forall p item m a, step p item m = Ok (Some a) -> key a = _op_key m p) ->
  NoDup (dict_keys items) ->
  forall l,
    for_concat (fun '(p, item) => for_collect (step p item) METHODS) items
    = Ok l ->
    NoDup (map key l).
Proof.
  intros Hkey.
  induction items as [|[p item] r IH]; cbn [for_concat dict_keys map fst];
    intros ND l H.
  - inversion H; subst. constructor.
  - bind_inv H. bind_inv H. inversion H; subst; clear H.
    inversion ND as [|? ? Hp ND']; subst.
    rewrite map_app. apply NoDup_app.
    + apply (for_collect_keys_NoDup string A (fun m => _op_key m p) key
               (step p item) METHODS a METHODS_NoDup); [| |exact E].
      * intros x y Hx Hy Hxy. apply (op_key_inj _ _ Hx Hy Hxy).
      * intros x b Hb. apply (Hkey _ _ _ _ Hb).
    + apply IH; assumption.
    + intros k Hk1 Hk2.
      apply in_map_iff in Hk1. destruct Hk1 as (a1 & <- & Ha1).
      apply in_map_iff in Hk2. destruct Hk2 as (a2 & Hk & Ha2).
      apply (for_collect_In _ _ E) in Ha1. destruct Ha1 as (m1 & Hm1 & Hs1).
      apply (nested_loop_In _ _ E0) in Ha2.
      destruct Ha2 as (p2 & item2 & m2 & Hin & Hm2 & Hs2).
      rewrite (Hkey _ _ _ _ Hs1), (Hkey _ _ _ _ Hs2) in Hk.
      destruct (op_key_inj _ _ Hm2 Hm1 Hk) as [_ ->].
      apply Hp. change p with (fst (p, item2)). apply in_map. exact Hin.
Qed.

(* ------------------------------------------------------------------ *)
(** ** [list_operations] *)

Lemma py_items_of_NoDup pj items :
  py_items_of pj = Ok items -> NoDup (dict_keys items).
Proof.
  destruct pj; try discriminate. intros H; inversion H; subst.
  apply dict_of_pairs_NoDup.
Qed.

Lemma list_operations_inv cfg w tag incl l :
  list_operations cfg w tag incl = Ok l ->
  exists spec pj items ops,
    load_json w (OPENAPI_PATH cfg) = Ok spec
    /\ py_get_default spec "paths" (JObj []) = Ok pj
    /\ py_items_of pj = Ok items
    /\ for_concat
         (fun '(p, item) =>
            for_collect (list_operations_step tag incl p item) METHODS) items
       = Ok ops
    /\ operations l = sorted_by os_key ops
    /\ count l = List.length ops.
Proof.
  unfold list_operations, _load_openapi. intros H.
  bind_inv H. bind_inv H. bind_inv H. bind_inv H.
  inversion H; subst; clear H. cbn [operations count].
  exists a, a0, a1, a2. rewrite sorted_by_length. auto 7.
Qed.

Lemma list_operations_step_inv tag incl p item m e :
  list_operations_step tag incl p item m = Ok (Some e) ->
  exists op tags summary d,
    py_contains m item = Ok true
    /\ py_index item m = Ok op
    /\ skip_deprecated incl op = Ok false
    /\ py_get_default op "tags" (JArr []) = Ok tags
    /\ tag_excluded tag tags = Ok false
    /\ py_get op "summary" = Ok summary
    /\ py_get_default op "deprecated" (JBool false) = Ok d
    /\ e = {| os_key := _op_key m p; os_summary := summary;
              os_tags := tags; os_deprecated := truthy d |}.
Proof.
  unfold list_operations_step. intros H.
  bind_inv H. destruct a; [|discriminate].
  bind_inv H. bind_inv H. destruct a0; [discriminate|].
  bind_inv H. bind_inv H. destruct a1; [discriminate|].
  bind_inv H. bind_inv H. inversion H; subst.
  exists a, a0, a1, a2. auto 9.
Qed.

(** X4. The listing is sorted by key, no key occurs twice in it, and
    [count] is its length. *)
Theorem listing_sorted_distinct cfg w tag incl l :
  list_operations cfg w tag incl = Ok l ->
  Sorted (key_le os_key) (operations l)
  /\ NoDup (map os_key (operations l))
  /\ count l = List.length (operations l).
Proof.
  intros H.
  destruct (list_operations_inv _ _ _ _ _ H)
    as (spec & pj & items & ops & _ & _ & Hitems & Hloop & Hops & Hcount).
  rewrite Hops, Hcount. split; [apply sorted_by_Sorted|].
  split; [|symmetry; apply sorted_by_length].
  eapply Permutation_NoDup.
  - symmetry. apply sorted_by_map_perm.
  - apply (nested_loop_keys_NoDup _ os_key
             (list_operations_step tag incl) items).
    + intros p item m a. apply list_operations_step_key.
    + apply (py_items_of_NoDup _ _ Hitems).
    + exact Hloop.
Qed.

Lemma listing_sorted_distinct_witness :
  exists l,
    list_operations sample_cfg (ab_world false) None false = Ok l
    /\ NoDup (map os_key (operations l))
    /\ count l = 2.
Proof.
  eexists. split; [vm_compute; reflexivity|].
  destruct (listing_sorted_distinct sample_cfg (ab_world false) None false _
              eq_refl) as (_ & Hnd & Hc).
  split; [exact Hnd | reflexivity].
Defined.

(** X5. With a non-empty tag, every listed operation has that tag among its
    tags. *)
Theorem listing_tag_sound cfg w (t : string) incl l :
  t <> "" ->
  list_operations cfg w (Some t) incl = Ok l ->
  forall e, In e (operations l) -> py_contains t (os_tags e) = Ok true.
Proof.
  intros Ht H e He.
  destruct (list_operations_inv _ _ _ _ _ H)
    as (spec & pj & items & ops & _ & _ & _ & Hloop & Hops & _).
  rewrite Hops in He. apply sorted_by_In in He.
  apply (nested_loop_In _ _ Hloop) in He.
  destruct He as (p & item & m & _ & _ & Hstep).
  apply list_operations_step_inv in Hstep.
  destruct Hstep as (op & tags & summary & d & _ & _ & _ & _ & Hex & _ & _ & ->).
  cbn [os_tags]. unfold tag_excluded in Hex.
  apply String.eqb_neq in Ht. rewrite Ht in Hex.
  destruct (py_contains t tags) as [[|]|]; simpl in Hex; congruence.
Qed.

Lemma listing_tag_sound_witness :
  py_contains "Broadcasts" (JArr [JStr "Broadcasts"]) = Ok true.
Proof.
  apply (listing_tag_sound sample_cfg (tournament_world tournament_op "GET")
           "Broadcasts" false
           {| count := 1;
              operations :=
                [{| os_key := "GET /tournaments/{tournamentId}";
                    os_summary := JStr "Get a tournament";
                    os_tags := JArr [JStr "Broadcasts"];
                    os_deprecated := false |}] |}
           ltac:(discriminate) eq_refl
           {| os_key := "GET /tournaments/{tournamentId}";
              os_summary := JStr "Get a tournament";
              os_tags := JArr [JStr "Broadcasts"];
              os_deprecated := false |}).
  left. reflexivity.
Defined.

(** X6. The empty tag filters nothing: it gives the result of a call
    without a tag. *)
Theorem listing_empty_tag cfg w incl :
  list_operations cfg w (Some "") incl = list_operations cfg w None incl.
Proof.
  unfold list_operations.
  destruct (_load_openapi w (OPENAPI_PATH cfg)) as [spec|]; [|reflexivity].
  cbn [bind].
  destruct (py_get_default spec "paths" (JObj [])) as [pj|]; [|reflexivity].
  cbn [bind].
  destruct (py_items_of pj) as [items|]; [|reflexivity]. cbn [bind].
  rewrite (for_concat_ext _ _
             (fun '(p, item) =>
                for_collect (list_operations_step (Some "") incl p item) METHODS)
             (fun '(p, item) =>
                for_collect (list_operations_step None incl p item) METHODS));
    [reflexivity|].
  intros [p item]. apply for_collect_ext. intros m. reflexivity.
Qed.

Lemma object_get_total op k dflt v :
  py_get_default op k dflt = Ok v ->
  forall k', (exists v', py_get op k' = Ok v')
             /\ forall dflt', exists v', py_get_default op k' dflt' = Ok v'.
Proof.
  destruct op; try discriminate. intros _ k'. unfold py_get, py_get_default.
  split; [|intros dflt']; destruct (dict_get k' (py_items members)); eauto.
Qed.

Lemma step_tag_refines tag incl p item :
  refines (list_operations_step tag incl p item)
          (list_operations_step None incl p item).
Proof.
  intros m o1 o2. unfold list_operations_step.
  destruct (py_contains m item) as [[|]|]; cbn [bind];
    [|intros; left; congruence | discriminate].
  destruct (py_index item m) as [op|]; cbn [bind]; [|discriminate].
  destruct (skip_deprecated incl op) as [[|]|]; cbn [bind];
    [intros; left; congruence | | discriminate].
  destruct (py_get_default op "tags" (JArr [])) as [tags|]; cbn [bind];
    [|discriminate].
  cbn [tag_excluded bind].
  destruct (tag_excluded tag tags) as [[|]|]; cbn [bind];
    [intros; left; congruence | | discriminate].
  intros H1 H2. right. congruence.
Qed.

Lemma step_tag_follows tag incl p item m o1 :
  list_operations_step tag incl p item m = Ok o1 ->
  exists o2, list_operations_step None incl p item m = Ok o2.
Proof.
  unfold list_operations_step.
  destruct (py_contains m item) as [[|]|]; cbn [bind];
    [|eauto | discriminate].
  destruct (py_index item m) as [op|]; cbn [bind]; [|discriminate].
  destruct (skip_deprecated incl op) as [[|]|]; cbn [bind];
    [eauto | | discriminate].
  destruct (py_get_default op "tags" (JArr [])) as [tags|] eqn:Et;
    cbn [bind]; [|discriminate].
  intros _. cbn [tag_excluded bind].
  destruct (proj1 (object_get_total _ _ _ _ Et "summary")) as [s ->].
  destruct (proj2 (object_get_total _ _ _ _ Et "deprecated") (JBool false))
    as [d ->].
  cbn [bind]. eauto.
Qed.

(** X7. Filtering by tag only removes operations: whenever the filtered call
    returns, the call without a tag returns too, lists every operation the
    filtered call lists, and counts at least as many. *)
Theorem listing_tag_only_removes cfg w tag incl l :
  list_operations cfg w tag incl = Ok l ->
  exists l0,
    list_operations cfg w None incl = Ok l0
    /\ List.incl (operations l) (operations l0)
    /\ count l <= count l0.
Proof.
  intros H.
  destruct (list_operations_inv _ _ _ _ _ H)
    as (spec & pj & items & ops & Hload & Hp & Hitems & Hloop & Hops & Hc).
  destruct (for_concat_follows _ _
              (fun '(p, item) =>
                 for_collect (list_operations_step tag incl p item) METHODS)
              (fun '(p, item) =>
                 for_collect (list_operations_step None incl p item) METHODS)
              items ops) as [ops0 Hloop0]; [|exact Hloop|].
  { intros [p item] r1 Hr1.
    apply (for_collect_follows _ _
             (list_operations_step tag incl p item)
             (list_operations_step None incl p item) METHODS r1);
      [|exact Hr1].
    intros m o1. apply step_tag_follows. }
  assert (Hil : List.incl ops ops0 /\ List.length ops <= List.length ops0).
  { eapply for_concat_refines; [|exact Hloop | exact Hloop0].
    intros [p item] r1 r2 Hr1 Hr2.
    apply (for_collect_refines _ _ _ _ METHODS r1 r2
             (step_tag_refines tag incl p item) Hr1 Hr2). }
  destruct Hil as [Hi Hl].
  eexists. split.
  - unfold list_operations, _load_openapi.
    rewrite Hload. cbn [bind]. rewrite Hp. cbn [bind].
    rewrite Hitems. cbn [bind]. rewrite Hloop0. cbn [bind]. reflexivity.
  - cbn [operations count]. rewrite Hops, Hc, sorted_by_length. split; [|exact Hl].
    intros e He. apply sorted_by_In. apply Hi.
    apply sorted_by_In in He. exact He.
Qed.

Lemma listing_tag_only_removes_witness :
  exists l0,
    list_operations sample_cfg (tournament_world tournament_op "GET") None false
    = Ok l0
    /\ List.incl
         [{| os_key := "GET /tournaments/{tournamentId}";
             os_summary := JStr "Get a tournament";
             os_tags := JArr [JStr "Broadcasts"];
             os_deprecated := false |}]
         (operations l0)
    /\ 1 <= count l0.
Proof.
  apply (listing_tag_only_removes sample_cfg
           (tournament_world tournament_op "GET") (Some "Broadcasts") false
           {| count := 1;
              operations :=
                [{| os_key := "GET /tournaments/{tournamentId}";
                    os_summary := JStr "Get a tournament";
                    os_tags := JArr [JStr "Broadcasts"];
                    os_deprecated := false |}] |}).
  reflexivity.
Defined.

Lemma step_deprecated_refines tag p item :
  refines (list_operations_step tag false p item)
          (list_operations_step tag true p item).
Proof.
  intros m o1 o2. unfold list_operations_step.
  destruct (py_contains m item) as [[|]|]; cbn [bind];
    [|intros; left; congruence | discriminate].
  destruct (py_index item m) as [op|]; cbn [bind]; [|discriminate].
  change (skip_deprecated true op) with (@Ok bool false).
  destruct (skip_deprecated false op) as [[|]|]; cbn [bind];
    [intros; left; congruence | | discriminate].
  intros H1 H2. right. congruence.
Qed.

(** X8. Leaving deprecated operations out never lists a flagged operation,
    and never lists something the call that includes them would not list. *)
Theorem listing_without_deprecated cfg w tag l :
  list_operations cfg w tag false = Ok l ->
  (forall e, In e (operations l) -> os_deprecated e = false)
  /\ (forall l',
         list_operations cfg w tag true = Ok l' ->
         incl (operations l) (operations l') /\ count l <= count l').
Proof.
  intros H.
  destruct (list_operations_inv _ _ _ _ _ H)
    as (spec & pj & items & ops & Hload & Hp & Hitems & Hloop & Hops & Hc).
  split.
  - intros e He. rewrite Hops in He. apply sorted_by_In in He.
    apply (nested_loop_In _ _ Hloop) in He.
    destruct He as (p & item & m & _ & _ & Hstep).
    apply list_operations_step_inv in Hstep.
    destruct Hstep as (op & tags & summary & d & _ & _ & Hskip & _ & _ & _ & Hd & ->).
    cbn [os_deprecated]. unfold skip_deprecated in Hskip. cbn [negb] in Hskip.
    rewrite Hd in Hskip. cbn [bind] in Hskip. congruence.
  - intros l' H'.
    destruct (list_operations_inv _ _ _ _ _ H')
      as (spec' & pj' & items' & ops' & Hload' & Hp' & Hitems' & Hloop' & Hops' & Hc').
    assert (spec' = spec) by congruence. subst spec'.
    assert (pj' = pj) by congruence. subst pj'.
    assert (items' = items) by congruence. subst items'.
    assert (Hil : incl ops ops' /\ List.length ops <= List.length ops').
    { eapply for_concat_refines; [|exact Hloop | exact Hloop'].
      intros [p item] r1 r2 Hr1 Hr2.
      apply (for_collect_refines _ _ _ _ METHODS r1 r2
               (step_deprecated_refines tag p item) Hr1 Hr2). }
    destruct Hil as [Hi Hl].
    rewrite Hops, Hops', Hc, Hc'. split; [|exact Hl].
    intros e He. apply sorted_by_In. apply Hi.
    apply sorted_by_In in He. exact He.
Qed.

Lemma listing_without_deprecated_witness :
  os_deprecated {| os_key := "GET /a"; os_summary := JStr "a";
                   os_tags := JArr []; os_deprecated := false |} = false.
Proof.
  apply (proj1 (listing_without_deprecated sample_cfg (ab_world true) None
                  {| count := 1;
                     operations :=
                       [{| os_key := "GET /a"; os_summary := JStr "a";
                           os_tags := JArr []; os_deprecated := false |}] |}
                  eq_refl)).
  left. reflexivity.
Defined.

(* ------------------------------------------------------------------ *)
(** ** [get_operation] and the listing *)

Lemma get_operation_found_inv cfg w m p d :
  get_operation cfg w m p = Ok (OpFound d) ->
  exists spec ps item op responses codes summary description tags deprecated
         parameters requestBody,
    load_json w (OPENAPI_PATH cfg) = Ok spec
    /\ py_get_default spec "paths" (JObj []) = Ok (JObj ps)
    /\ dict_get p (py_items ps) = Some (JObj item)
    /\ dict_get (lower m) (py_items item) = Some op
    /\ truthy op = true
    /\ py_get_default op "responses" (JObj []) = Ok responses
    /\ py_keys responses = Ok codes
    /\ py_get op "summary" = Ok summary
    /\ py_get op "description" = Ok description
    /\ py_get_default op "tags" (JArr []) = Ok tags
    /\ py_get_default op "deprecated" (JBool false) = Ok deprecated
    /\ py_get_default op "parameters" (JArr []) = Ok parameters
    /\ py_get op "requestBody" = Ok requestBody
    /\ d = {| od_key := _op_key m p;
              od_summary := summary;
              od_description := description;
              od_tags := tags;
              od_deprecated := truthy deprecated;
              od_parameters := parameters;
              od_requestBody := requestBody;
              od_responseCodes := sorted codes |}.
Proof.
  unfold get_operation, _load_openapi. intros H.
  bind_inv H. rename a into spec. bind_inv H. rename a into pj.
  bind_inv H. rename a into path_item.
  destruct (truthy path_item) eqn:Tp; cbn [negb] in H; [|discriminate].
  bind_inv H. rename a into op.
  destruct (truthy op) eqn:To; cbn [negb] in H; [|discriminate].
  do 8 bind_inv H. inversion H; subst; clear H.
  destruct pj as [| | | | |ps]; try discriminate.
  unfold py_get in E1.
  destruct (dict_get p (py_items ps)) as [v|] eqn:Ev;
    inversion E1; subst; [|discriminate].
  destruct path_item as [| | | | |item]; try discriminate.
  unfold py_get in E2.
  destruct (dict_get (lower m) (py_items item)) as [v|] eqn:Eo;
    inversion E2; subst; [|discriminate].
  exists spec, ps, item, op, a, a0, a1, a2, a3, a4, a5, a6.
  repeat (split; [assumption|]). reflexivity.
Qed.

(** X9. Whatever [get_operation] finds under a recognized method is listed
    by [list_operations] when deprecated operations are included and no tag
    is given, with the same key, summary, tags and deprecated flag. *)
Theorem found_is_listed cfg w m p d l :
  get_operation cfg w m p = Ok (OpFound d) ->
  In (lower m) METHODS ->
  list_operations cfg w None true = Ok l ->
  In {| os_key := od_key d;
        os_summary := od_summary d;
        os_tags := od_tags d;
        os_deprecated := od_deprecated d |} (operations l).
Proof.
  intros Hget Hm Hlist.
  destruct (get_operation_found_inv _ _ _ _ _ Hget)
    as (spec & ps & item & op & responses & codes & summary & description
        & tags & deprecated & parameters & requestBody
        & Hload & Hp & Hitem & Hop & _ & _ & _ & Hs & _ & Ht & Hd & _ & _ & ->).
  destruct (list_operations_inv _ _ _ _ _ Hlist)
    as (spec' & pj & items & ops & Hload' & Hp' & Hitems & Hloop & Hops & _).
  assert (spec' = spec) by congruence. subst spec'.
  rewrite Hp in Hp'. inversion Hp'; subst pj.
  cbn [py_items_of] in Hitems. inversion Hitems; subst items.
  rewrite Hops. apply sorted_by_In. apply (nested_loop_In _ _ Hloop).
  exists p, (JObj item), (lower m).
  split; [apply dict_get_In; exact Hitem|]. split; [exact Hm|].
  unfold list_operations_step, py_contains, dict_mem, py_index.
  rewrite Hop. cbn [bind skip_deprecated negb].
  rewrite Ht. cbn [bind tag_excluded]. rewrite Hs, Hd. cbn [bind].
  cbn [od_key od_summary od_tags od_deprecated].
  unfold _op_key. rewrite (upper_lower_recognized _ Hm). reflexivity.
Qed.

Lemma found_is_listed_witness :
  In {| os_key := "GET /tournaments/{tournamentId}";
        os_summary := JStr "Get a tournament";
        os_tags := JArr [JStr "Broadcasts"];
        os_deprecated := false |}
     [{| os_key := "GET /tournaments/{tournamentId}";
         os_summary := JStr "Get a tournament";
         os_tags := JArr [JStr "Broadcasts"];
         os_deprecated := false |}].
Proof.
  apply (found_is_listed sample_cfg (tournament_world tournament_op "GET")
           "Get" "/tournaments/{tournamentId}"
           {| od_key := "GET /tournaments/{tournamentId}";
              od_summary := JStr "Get a tournament";
              od_description := JNull;
              od_tags := JArr [JStr "Broadcasts"];
              od_deprecated := false;
              od_parameters := JArr [];
              od_requestBody := JNull;
              od_responseCodes := ["200"; "404"] |}
           {| count := 1;
              operations :=
                [{| os_key := "GET /tournaments/{tournamentId}";
                    os_summary := JStr "Get a tournament";
                    os_tags := JArr [JStr "Broadcasts"];
                    os_deprecated := false |}] |}).
  - reflexivity.
  - simpl. tauto.
  - reflexivity.
Defined.

Lemma lower_recognized m : In m METHODS -> lower m = m.
Proof.
  unfold METHODS. simpl In. intros H.
  repeat (destruct H as [<-|H]; [reflexivity|]). contradiction.
Qed.

(** X10. An operation whose object is empty is listed by [list_operations]
    but reported as not found by [get_operation]: the lookup tests the
    truth of the operation object, the listing tests the presence of the
    method. *)
Theorem empty_operation_listed_not_found cfg w spec paths p item m :
  load_json w (OPENAPI_PATH cfg) = Ok spec ->
  spec_paths spec = Some paths ->
  dict_get p paths = Some (JObj item) ->
  In m METHODS ->
  dict_get m (py_items item) = Some (JObj []) ->
  get_operation cfg w m p =
    Ok (OpNotFound ("Method not found: " ++ upper m ++ " " ++ p))
  /\ forall dep l,
       list_operations cfg w None dep = Ok l ->
       In {| os_key := _op_key m p; os_summary := JNull;
             os_tags := JArr []; os_deprecated := false |} (operations l).
Proof.
  intros Hload Hshape Hitem Hm Hop. split.
  - destruct (spec_paths_read _ Hshape) as (pj & Hp & _ & Hget).
    unfold get_operation, _load_openapi.
    rewrite Hload. cbn [bind]. rewrite Hp. cbn [bind].
    rewrite Hget, Hitem. cbn [bind].
    destruct item as [|kv item']; [discriminate Hop|].
    cbn [truthy negb]. unfold py_get.
    rewrite (lower_recognized _ Hm), Hop. reflexivity.
  - intros dep l Hl.
    destruct (list_operations_run _ _ _ _ Hload Hshape Hl)
      as (ops & Hloop & Hsorted & _).
    rewrite Hsorted. apply sorted_by_In. apply (nested_loop_In _ _ Hloop).
    exists p, (JObj item), m.
    split; [apply dict_get_In; exact Hitem|]. split; [exact Hm|].
    unfold list_operations_step, py_contains, dict_mem, py_index.
    rewrite Hop. cbn [bind]. destruct dep; reflexivity.
Qed.

Lemma empty_operation_listed_not_found_witness :
  get_operation sample_cfg
    (world_of [(OPENAPI_PATH sample_cfg,
                one_path_spec "/api/tv" (JObj [("get", JObj [])]))] [])
    "get" "/api/tv"
  = Ok (OpNotFound "Method not found: GET /api/tv").
Proof.
  apply (empty_operation_listed_not_found sample_cfg
           (world_of [(OPENAPI_PATH sample_cfg,
                       one_path_spec "/api/tv" (JObj [("get", JObj [])]))] [])
           (one_path_spec "/api/tv" (JObj [("get", JObj [])]))
           [("/api/tv", JObj [("get", JObj [])])]
           "/api/tv" [("get", JObj [])] "get");
    try reflexivity.
  simpl. tauto.
Defined.

(** X11. A found operation carries the key built from the uppercased method
    and the path, and its response codes in increasing order without
    repetition. *)
Theorem found_operation_shape cfg w m p d :
  get_operation cfg w m p = Ok (OpFound d) ->
  od_key d = upper m ++ " " ++ p
  /\ Sorted (fun a b => String.leb a b = true) (od_responseCodes d)
  /\ NoDup (od_responseCodes d).
Proof.
  intros Hget.
  destruct (get_operation_found_inv _ _ _ _ _ Hget)
    as (spec & ps & item & op & responses & codes & summary & description
        & tags & deprecated & parameters & requestBody
        & _ & _ & _ & _ & _ & _ & Hcodes & _ & _ & _ & _ & _ & _ & ->).
  cbn [od_key od_responseCodes]. split; [reflexivity|]. split.
  - apply (sorted_by_Sorted (fun s : string => s) codes).
  - destruct responses as [| | | | |rm]; try discriminate.
    inversion Hcodes; subst.
    eapply Permutation_NoDup.
    + symmetry. apply sorted_by_perm.
    + apply dict_of_pairs_NoDup.
Qed.

Lemma found_operation_shape_witness :
  "GET /tournaments/{tournamentId}" = upper "get" ++ " " ++ "/tournaments/{tournamentId}"
  /\ Sorted (fun a b => String.leb a b = true) ["200"; "404"]
  /\ NoDup ["200"; "404"].
Proof.
  apply (found_operation_shape sample_cfg
           (tournament_world tournament_op "GET")
           "get" "/tournaments/{tournamentId}"
           {| od_key := "GET /tournaments/{tournamentId}";
              od_summary := JStr "Get a tournament";
              od_description := JNull;
              od_tags := JArr [JStr "Broadcasts"];
              od_deprecated := false;
              od_parameters := JArr [];
              od_requestBody := JNull;
              od_responseCodes := ["200"; "404"] |}).
  reflexivity.
Defined.

(* ------------------------------------------------------------------ *)
(** ** [diff_openapi_versions] *)

Lemma set_add_In s out k : In k (set_add s out) <-> k = s \/ In k out.
Proof.
  unfold set_add. destruct (str_mem s out) eqn:E.
  - apply str_mem_In in E. split; [auto|]. intros [->|H]; assumption.
  - rewrite in_app_iff. simpl. intuition congruence.
Qed.

Lemma set_add_NoDup s out : NoDup out -> NoDup (set_add s out).
Proof.
  intros ND. unfold set_add. destruct (str_mem s out) eqn:E; [exact ND|].
  apply str_mem_false in E. apply NoDup_app; [exact ND | |].
  - constructor; [intros [] | constructor].
  - intros a Ha [<-|[]]. contradiction.
Qed.

Lemma set_of_list_In l : forall acc k,
  In k (fold_left (fun out s => set_add s out) l acc) <-> In k acc \/ In k l.
Proof.
  induction l as [|s r IH]; simpl; intros acc k; [tauto|].
  rewrite IH, set_add_In. intuition congruence.
Qed.

Lemma set_of_list_NoDup l : forall acc,
  NoDup acc -> NoDup (fold_left (fun out s => set_add s out) l acc).
Proof.
  induction l as [|s r IH]; simpl; intros acc ND; [exact ND|].
  apply IH, set_add_NoDup, ND.
Qed.

Lemma set_diff_In a b k : In k (set_diff a b) <-> In k a /\ ~ In k b.
Proof.
  unfold set_diff. rewrite filter_In, negb_true_iff, str_mem_false. tauto.
Qed.

Lemma set_diff_self a : set_diff a a = [].
Proof.
  destruct (set_diff a a) as [|k r] eqn:E; [reflexivity|].
  assert (H : In k (set_diff a a)) by (rewrite E; left; reflexivity).
  apply set_diff_In in H. tauto.
Qed.

Lemma collect_NoDup spec keys : collect spec = Ok keys -> NoDup keys.
Proof.
  unfold collect. intros H. bind_inv H. bind_inv H. bind_inv H.
  inversion H; subst. apply set_of_list_NoDup. constructor.
Qed.

Lemma collect_membership spec keys :
  collect spec = Ok keys ->
  exists pj paths,
    py_get_default spec "paths" (JObj []) = Ok pj
    /\ py_items_of pj = Ok paths
    /\ forall k,
         In k keys <->
         exists p item member,
           In (p, JObj item) paths
           /\ In member (dict_keys (py_items item))
           /\ k = upper member ++ " " ++ p.
Proof.
  unfold collect. intros H.
  bind_inv H. rename a into pj. bind_inv H. rename a into paths.
  bind_inv H. rename a into raw. inversion H; subst; clear H.
  exists pj, paths. split; [exact E|]. split; [exact E0|].
  intros k. rewrite set_of_list_In, (for_concat_In _ _ E1). simpl In. split.
  - intros [[]|([p item] & l' & Hin & Hbody & Hk)].
    bind_inv Hbody. inversion Hbody; subst; clear Hbody.
    destruct item as [| | | | |im]; try discriminate.
    inversion E2; subst. apply in_map_iff in Hk.
    destruct Hk as (member & <- & Hm).
    exists p, im, member. auto.
  - intros (p & im & member & Hin & Hm & ->). right.
    exists (p, JObj im), (map (fun method => _op_key method p)
                              (dict_keys (py_items im))).
    split; [exact Hin|]. split; [reflexivity|].
    apply in_map_iff. exists member. auto.
Qed.

(** X12. The keys [collect] gathers from a snapshot are exactly the
    uppercased member names of the path items, each followed by a space and
    its path: every member counts, whether or not it names an HTTP method.
    No key is gathered twice. *)
Theorem collect_keys spec keys :
  collect spec = Ok keys ->
  NoDup keys
  /\ exists pj paths,
       py_get_default spec "paths" (JObj []) = Ok pj
       /\ py_items_of pj = Ok paths
       /\ forall k,
            In k keys <->
            exists p item member,
              In (p, JObj item) paths
              /\ In member (dict_keys (py_items item))
              /\ k = upper member ++ " " ++ p.
Proof.
  intros H. split.
  - apply (collect_NoDup _ _ H).
  - apply (collect_membership _ _ H).
Qed.

Lemma collect_keys_witness :
  NoDup ["PARAMETERS /api/account/{id}"; "GET /api/account/{id}"].
Proof.
  apply (collect_keys (one_path_spec "/api/account/{id}" account_item)
           ["PARAMETERS /api/account/{id}"; "GET /api/account/{id}"]).
  reflexivity.
Defined.

(** X13. A successful diff echoes the two versions; [added] holds exactly
    the keys gathered from the target snapshot and not from the source one,
    [removed] the converse; both lists are in increasing order, without
    repetition, and share no key. *)
Theorem diff_lists cfg w a b f t added removed :
  diff_openapi_versions cfg w a b = Ok (DiffOk f t added removed) ->
  f = a /\ t = b
  /\ exists spec_a spec_b ops_a ops_b,
       load_json w (snapshot_path cfg a) = Ok spec_a
       /\ load_json w (snapshot_path cfg b) = Ok spec_b
       /\ collect spec_a = Ok ops_a
       /\ collect spec_b = Ok ops_b
       /\ (forall k, In k added <-> In k ops_b /\ ~ In k ops_a)
       /\ (forall k, In k removed <-> In k ops_a /\ ~ In k ops_b)
       /\ (forall k, In k added -> ~ In k removed)
       /\ NoDup added /\ NoDup removed
       /\ Sorted (fun x y => String.leb x y = true) added
       /\ Sorted (fun x y => String.leb x y = true) removed.
Proof.
  unfold diff_openapi_versions, _load_openapi.
  destruct (exists_checked w (snapshot_path cfg a)) as [[|]|]; cbn [bind negb];
    [|discriminate|discriminate].
  destruct (exists_checked w (snapshot_path cfg b)) as [[|]|]; cbn [bind negb];
    [|discriminate|discriminate].
  intros H. bind_inv H. rename a0 into spec_a. bind_inv H. rename a0 into spec_b.
  bind_inv H. rename a0 into ops_a. bind_inv H. rename a0 into ops_b.
  inversion H; subst; clear H.
  split; [reflexivity|]. split; [reflexivity|].
  exists spec_a, spec_b, ops_a, ops_b.
  assert (Ha : forall k, In k (sorted (set_diff ops_b ops_a)) <->
                         In k ops_b /\ ~ In k ops_a).
  { intros k. unfold sorted. rewrite sorted_by_In. apply set_diff_In. }
  assert (Hr : forall k, In k (sorted (set_diff ops_a ops_b)) <->
                         In k ops_a /\ ~ In k ops_b).
  { intros k. unfold sorted. rewrite sorted_by_In. apply set_diff_In. }
  assert (Hnd : forall x y, NoDup x -> NoDup (sorted (set_diff x y))).
  { intros x y ND. eapply Permutation_NoDup.
    - symmetry. apply sorted_by_perm.
    - apply NoDup_filter. exact ND. }
  pose proof (collect_NoDup _ _ E1) as NDa.
  pose proof (collect_NoDup _ _ E2) as NDb.
  repeat (split; [assumption|]).
  split.
  - intros k Hk Hk'. apply Ha in Hk. apply Hr in Hk'. tauto.
  - split; [apply Hnd; exact NDb|]. split; [apply Hnd; exact NDa|].
    split; apply (sorted_by_Sorted (fun s : string => s)).
Qed.

Lemma diff_lists_witness :
  "2.0.106" = "2.0.106" /\ "2.0.107" = "2.0.107".
Proof.
  destruct (diff_lists sample_cfg snapshot_world "2.0.106" "2.0.107"
              "2.0.106" "2.0.107"
              ["GET /api/account/{id}"; "PARAMETERS /api/account/{id}"] []
              eq_refl) as (Hf & Ht & _).
  split; [exact Hf | exact Ht].
Defined.

(** X14. Comparing a snapshot with itself reports nothing: whenever the
    call returns a diff, both lists are empty. *)
Theorem diff_same_version cfg w v f t added removed :
  diff_openapi_versions cfg w v v = Ok (DiffOk f t added removed) ->
  added = [] /\ removed = [].
Proof.
  unfold diff_openapi_versions, _load_openapi.
  destruct (exists_checked w (snapshot_path cfg v)) as [[|]|]; cbn [bind negb];
    [|discriminate|discriminate].
  intros H. bind_inv H. bind_inv H. bind_inv H. bind_inv H.
  assert (a0 = a) by congruence. subst a0.
  assert (a2 = a1) by congruence. subst a2.
  inversion H; subst. rewrite set_diff_self. split; reflexivity.
Qed.

Lemma diff_same_version_witness :
  @nil string = [] /\ @nil string = [].
Proof.
  apply (diff_same_version sample_cfg snapshot_world "2.0.107"
           "2.0.107" "2.0.107" [] []).
  reflexivity.
Defined.

(* ------------------------------------------------------------------ *)
(** ** The registry pattern *)

Lemma skip_ws_then w c s :
  all_space w = true -> is_space c = false ->
  skip_ws (w ++ String c s) = String c s.
Proof.
  intros Hw Hc. induction w as [|a t IH]; cbn [append skip_ws].
  - rewrite Hc. reflexivity.
  - cbn [all_space] in Hw. apply andb_true_iff in Hw. destruct Hw as [Ha Ht].
    rewrite Ha. apply IH, Ht.
Qed.

Lemma expect_head c s : expect c (String c s) = Some s.
Proof. cbn [expect]. rewrite Ascii.eqb_refl. reflexivity. Qed.

Lemma span_not_field stop m s :
  has_char stop m = false ->
  span_not stop (m ++ String stop s) = (m, String stop s).
Proof.
  induction m as [|c t IH]; intros H.
  - cbn [append span_not]. rewrite Ascii.eqb_refl. reflexivity.
  - cbn [has_char] in H. apply orb_false_iff in H. destruct H as [Hc Ht].
    cbn [append span_not]. rewrite Hc, (IH Ht). reflexivity.
Qed.

Lemma span_not_clean stop s : forall a b,
  span_not stop s = (a, b) -> has_char stop a = false.
Proof.
  induction s as [|c t IH]; cbn [span_not]; intros a b H.
  - inversion H; subst. reflexivity.
  - destruct (Ascii.eqb c stop) eqn:Ec.
    + inversion H; subst. reflexivity.
    + destruct (span_not stop t) as [a' b'].
      inversion H; subst. cbn [has_char]. rewrite Ec. apply (IH _ _ eq_refl).
Qed.

Lemma quoted_group_field m s :
  plain_field m = true ->
  quoted_group (String dquote (m ++ String dquote s)) = Some (m, s).
Proof.
  unfold plain_field. intros H. apply andb_true_iff in H.
  destruct H as [Hne Hq]. apply negb_true_iff in Hne, Hq.
  unfold quoted_group. rewrite expect_head. cbn [obind].
  rewrite (span_not_field _ _ _ Hq).
  destruct m as [|c g]; [discriminate Hne|].
  rewrite expect_head. reflexivity.
Qed.

Lemma quoted_group_plain s g r :
  quoted_group s = Some (g, r) -> plain_field g = true.
Proof.
  unfold quoted_group.
  destruct (expect dquote s) as [t|]; [|discriminate]. cbn [obind].
  destruct (span_not dquote t) as [[|c body] r0] eqn:E; [discriminate|].
  destruct (expect dquote r0) as [r1|]; [|discriminate]. cbn [obind].
  intros H; inversion H; subst. unfold plain_field.
  rewrite (span_not_clean _ _ _ _ E). reflexivity.
Qed.

Lemma match_endpoint_record ws m rest :
  (forall i, all_space (ws i) = true) ->
  plain_tuple m = true ->
  match_endpoint (record_then ws m rest) = Some (m, rest).
Proof.
  intros Hws Hm. destruct m as [[[m0 m1] m2] m3].
  cbn [plain_tuple] in Hm.
  apply andb_true_iff in Hm. destruct Hm as [Hm H3].
  apply andb_true_iff in Hm. destruct Hm as [Hm H2].
  apply andb_true_iff in Hm. destruct Hm as [H0 H1].
  unfold match_endpoint, record_then. cbn [append].
  do 3 (cbn [strip_prefix]; rewrite expect_head; cbn [obind]).
  cbn [strip_prefix].
  repeat
    (rewrite skip_ws_then by auto;
     first [ rewrite expect_head
           | rewrite quoted_group_field by assumption ];
     cbn [obind]).
  reflexivity.
Qed.

Lemma match_endpoint_plain s m rest :
  match_endpoint s = Some (m, rest) -> plain_tuple m = true.
Proof.
  unfold match_endpoint. intros H.
  destruct (strip_prefix "new" s) as [s0|]; [|discriminate H].
  cbn [obind] in H.
  destruct (expect "(" (skip_ws s0)) as [s1|]; [|discriminate H].
  cbn [obind] in H.
  destruct (quoted_group (skip_ws s1)) as [[g0 s2]|] eqn:Q0; [|discriminate H].
  cbn [obind] in H.
  destruct (expect "," (skip_ws s2)) as [s3|]; [|discriminate H].
  cbn [obind] in H.
  destruct (quoted_group (skip_ws s3)) as [[g1 s4]|] eqn:Q1; [|discriminate H].
  cbn [obind] in H.
  destruct (expect "," (skip_ws s4)) as [s5|]; [|discriminate H].
  cbn [obind] in H.
  destruct (quoted_group (skip_ws s5)) as [[g2 s6]|] eqn:Q2; [|discriminate H].
  cbn [obind] in H.
  destruct (expect "," (skip_ws s6)) as [s7|]; [|discriminate H].
  cbn [obind] in H.
  destruct (quoted_group (skip_ws s7)) as [[g3 s8]|] eqn:Q3; [|discriminate H].
  cbn [obind] in H.
  destruct (expect ")" (skip_ws s8)) as [s9|]; [|discriminate H].
  cbn [obind] in H. inversion H; subst. cbn [plain_tuple].
  rewrite (quoted_group_plain _ _ _ Q0), (quoted_group_plain _ _ _ Q1),
    (quoted_group_plain _ _ _ Q2), (quoted_group_plain _ _ _ Q3).
  reflexivity.
Qed.

Lemma findall_skip_junk junk s :
  has_char "n" junk = false ->
  re_findall_endpoints (junk ++ s) = re_findall_endpoints s.
Proof.
  induction junk as [|c t IH]; intros H; [reflexivity|].
  cbn [has_char] in H. apply orb_false_iff in H. destruct H as [Hc Ht].
  cbn [append]. rewrite findall_step.
  unfold match_endpoint. cbn [strip_prefix expect].
  rewrite Ascii.eqb_sym, Hc. cbn [obind]. apply IH, Ht.
Qed.

(** X15. Reading back what was written: a registry text made of records
    [new("m0", "m1", "m2", "m3")], written with any whitespace at the places
    where the pattern allows it and each preceded by text without the letter
    n, is read by the pattern as exactly these records, in order, each with
    its four fields verbatim. *)
Theorem registry_round_trip ws records trailer :
  (forall i, all_space (ws i) = true) ->
  forallb clean_record records = true ->
  has_char "n" trailer = false ->
  re_findall_endpoints (registry_text ws records trailer) = map snd records.
Proof.
  intros Hws Hrec Htr.
  induction records as [|[junk m] r IH]; cbn [registry_text map snd].
  - assert (Happ : trailer ++ "" = trailer).
    { clear. induction trailer as [|c t IH]; [reflexivity|].
      cbn [append]. rewrite IH. reflexivity. }
    rewrite <- Happ, (findall_skip_junk trailer "" Htr). reflexivity.
  - cbn [forallb] in Hrec. apply andb_true_iff in Hrec.
    destruct Hrec as [Hjm Hr]. unfold clean_record in Hjm.
    cbn [fst snd] in Hjm. apply andb_true_iff in Hjm.
    destruct Hjm as [Hj Hm]. apply negb_true_iff in Hj.
    rewrite (findall_skip_junk _ _ Hj).
    pose proof (match_endpoint_record ws m (registry_text ws r trailer) Hws Hm)
      as Hmatch.
    destruct m as [[[m0 m1] m2] m3].
    unfold record_then in *. cbn [append] in *.
    rewrite findall_step, Hmatch, (IH Hr). reflexivity.
Qed.

Lemma registry_round_trip_witness :
  re_findall_endpoints
    (registry_text (fun i => match i with 0%nat => "" | _ => " " end)
       [("    ", ("GET", "/api/account", "Account", "GetProfileAsync"));
        ("," ++ String newline "    ",
         ("POST", "/api/account/kid", "Account", "SetKidModeAsync"))]
       (String newline "};"))
  = [("GET", "/api/account", "Account", "GetProfileAsync");
     ("POST", "/api/account/kid", "Account", "SetKidModeAsync")].
Proof.
  apply (registry_round_trip
           (fun i => match i with 0%nat => "" | _ => " " end)
           [("    ", ("GET", "/api/account", "Account", "GetProfileAsync"));
            ("," ++ String newline "    ",
             ("POST", "/api/account/kid", "Account", "SetKidModeAsync"))]
           (String newline "};")).
  - intros [|i]; reflexivity.
  - reflexivity.
  - reflexivity.
Defined.

Lemma findall_plain n : forall s m,
  In m (findall_endpoints n s) -> plain_tuple m = true.
Proof.
  induction n as [|n IH]; intros s m H; [contradiction|].
  cbn [findall_endpoints] in H. destruct s as [|c t]; [contradiction|].
  destruct (match_endpoint (String c t)) as [[m' rest]|] eqn:E.
  - destruct H as [<-|H]; [|eauto].
    apply (match_endpoint_plain _ _ _ E).
  - eauto.
Qed.

Lemma parsed_registry_NoDup cfg w impl :
  _parse_implemented_endpoints cfg w = Ok impl -> NoDup (dict_keys impl).
Proof.
  unfold _parse_implemented_endpoints.
  destruct (path_exists w (IMPLEMENTED_ENDPOINTS_PATH cfg)); cbn [negb].
  - intros H. bind_inv H. inversion H; subst. apply dict_of_pairs_NoDup.
  - intros H; inversion H; subst. constructor.
Qed.

(** X16. Whatever the registry file holds, the parsed registry has pairwise
    distinct keys; each key is the method field, a space and the path kept
    in the record; and no field of a record is empty or contains a quote. *)
Theorem parsed_registry_shape cfg w impl :
  _parse_implemented_endpoints cfg w = Ok impl ->
  NoDup (dict_keys impl)
  /\ forall key info,
       In (key, info) impl ->
       dict_get key impl = Some info
       /\ exists m0,
            key = m0 ++ " " ++ ii_path info
            /\ plain_field m0 = true
            /\ plain_field (ii_path info) = true
            /\ plain_field (ii_api info) = true
            /\ plain_field (ii_method info) = true.
Proof.
  unfold _parse_implemented_endpoints.
  destruct (path_exists w (IMPLEMENTED_ENDPOINTS_PATH cfg)); cbn [negb].
  - intros H. bind_inv H. inversion H; subst; clear H.
    split; [apply dict_of_pairs_NoDup|].
    intros key info Hin. split.
    + apply dict_get_unique; [apply dict_of_pairs_NoDup | exact Hin].
    + apply dict_of_pairs_In in Hin. apply in_map_iff in Hin.
      destruct Hin as ([[[m0 m1] m2] m3] & Heq & Hm).
      apply findall_plain in Hm. cbn [implemented_entry] in Heq.
      inversion Heq; subst. cbn [ii_path ii_api ii_method].
      cbn [plain_tuple] in Hm.
      apply andb_true_iff in Hm. destruct Hm as [Hm H3].
      apply andb_true_iff in Hm. destruct Hm as [Hm H2].
      apply andb_true_iff in Hm. destruct Hm as [H0 H1].
      exists m0. auto.
  - intros H; inversion H; subst. split; [constructor | intros ? ? []].
Qed.

Lemma parsed_registry_shape_witness :
  NoDup (dict_keys
           [("GET /tournaments/{broadcastTournamentId}",
             {| ii_api := "lichess"; ii_method := "GetBroadcastTournament";
                ii_path := "/tournaments/{broadcastTournamentId}" |})]).
Proof.
  apply (parsed_registry_shape sample_cfg
           (tournament_world tournament_op "GET")).
  reflexivity.
Defined.

(* ------------------------------------------------------------------ *)
(** ** What the coverage lists mean *)

Lemma build_impl_normalized_get items : forall acc d n,
  build_impl_normalized items acc = Ok d ->
  dict_get n d =
  match last_with_normalized n items with
  | Some k => Some k
  | None => dict_get n acc
  end.
Proof.
  induction items as [|[key info] r IH];
    cbn [build_impl_normalized last_with_normalized]; intros acc d n H.
  - inversion H; subst. reflexivity.
  - bind_inv H. rewrite E. rewrite (IH _ _ n H).
    destruct (last_with_normalized n r); [reflexivity|].
    rewrite dict_get_set. destruct (String.eqb n a); reflexivity.
Qed.

Lemma last_with_normalized_Some n items : forall k,
  last_with_normalized n items = Some k ->
  In k (dict_keys items) /\ normalized_impl_key k = Ok n.
Proof.
  induction items as [|[key info] r IH]; cbn [last_with_normalized];
    intros k H; [discriminate|].
  destruct (last_with_normalized n r) as [k'|].
  - inversion H; subst. destruct (IH _ eq_refl) as [Hin Hn].
    split; [right; exact Hin | exact Hn].
  - destruct (normalized_impl_key key) as [n'|] eqn:E; [|discriminate].
    destruct (String.eqb n n') eqn:En; [|discriminate].
    apply String.eqb_eq in En. inversion H; subst.
    split; [left; reflexivity | exact E].
Qed.

Lemma last_with_normalized_None n items :
  last_with_normalized n items = None ->
  forall k, In k (dict_keys items) -> normalized_impl_key k <> Ok n.
Proof.
  induction items as [|[key info] r IH]; cbn [last_with_normalized];
    intros H k Hk; [contradiction|].
  destruct (last_with_normalized n r) as [k'|]; [discriminate|].
  destruct Hk as [<-|Hk]; [|apply IH; auto].
  cbn [fst]. destruct (normalized_impl_key key) as [n'|]; [|discriminate].
  destruct (String.eqb n n') eqn:En; [discriminate|].
  apply String.eqb_neq in En. congruence.
Qed.

Lemma categorize_In impl implnorm ops : forall ms pvs,
  categorize impl implnorm ops = (ms, pvs) ->
  (forall e, In e ms ->
             exists k o, In (k, o) ops /\ e = missing_entry k o
                         /\ dict_mem k impl = false
                         /\ dict_get (normalized_op_key o) implnorm = None)
  /\ (forall v, In v pvs ->
                exists k o ik, In (k, o) ops /\ v = variation_entry k ik o
                               /\ dict_mem k impl = false
                               /\ dict_get (normalized_op_key o) implnorm = Some ik).
Proof.
  induction ops as [|[key op] r IH]; cbn [categorize]; intros ms pvs H.
  - inversion H; subst. split; intros ? [].
  - destruct (categorize impl implnorm r) as [ms' pvs'].
    destruct (IH _ _ eq_refl) as [IHm IHv].
    assert (Hm : forall e, In e ms' ->
               exists k o, In (k, o) ((key, op) :: r) /\ e = missing_entry k o
                           /\ dict_mem k impl = false
                           /\ dict_get (normalized_op_key o) implnorm = None).
    { intros e He. destruct (IHm e He) as (k & o & Hin & Hrest).
      exists k, o. split; [right; exact Hin | exact Hrest]. }
    assert (Hv : forall v, In v pvs' ->
               exists k o ik, In (k, o) ((key, op) :: r)
                              /\ v = variation_entry k ik o
                              /\ dict_mem k impl = false
                              /\ dict_get (normalized_op_key o) implnorm = Some ik).
    { intros v Hv. destruct (IHv v Hv) as (k & o & ik & Hin & Hrest).
      exists k, o, ik. split; [right; exact Hin | exact Hrest]. }
    destruct (dict_mem key impl) eqn:Em; [inversion H; subst; auto|].
    destruct (dict_get (normalized_op_key op) implnorm) as [ik|] eqn:En;
      inversion H; subst; split; auto.
    + intros v [<-|Hin]; [|auto]. exists key, op, ik.
      split; [left; reflexivity | auto].
    + intros e [<-|Hin]; [|auto]. exists key, op.
      split; [left; reflexivity | auto].
Qed.

(** X17. Every reported path variation pairs an OpenAPI operation whose key
    is not a registry key with a registry key that has the same normalized
    key; when several registry keys do, it is the last of them in file
    order. *)
Theorem path_variation_sound cfg w dep spec ops impl r :
  load_json w (OPENAPI_PATH cfg) = Ok spec ->
  collect_openapi_ops dep spec = Ok ops ->
  _parse_implemented_endpoints cfg w = Ok impl ->
  get_coverage_gaps cfg w dep = Ok r ->
  forall v,
    In v (pathVariations r) ->
    exists op,
      In (pv_openapi v, op) ops
      /\ ~ In (pv_openapi v) (dict_keys impl)
      /\ In (pv_implemented v) (dict_keys impl)
      /\ normalized_impl_key (pv_implemented v) = Ok (normalized_op_key op)
      /\ last_with_normalized (normalized_op_key op) impl
         = Some (pv_implemented v)
      /\ pv_summary v = oa_summary op
      /\ pv_tags v = oa_tags op.
Proof.
  intros Hload Hops Himpl Hr v Hv.
  destruct (get_coverage_gaps_run cfg w dep Hload Hops Himpl)
    as (implnorm & ms & pvs & ex & Hn & Hcat & _ & Hrun).
  rewrite Hrun in Hr. inversion Hr; subst r; clear Hr.
  cbn [pathVariations] in Hv. apply sorted_by_In in Hv.
  destruct (proj2 (categorize_In _ _ _ _ _ Hcat) v Hv)
    as (k & o & ik & Hin & -> & Hmem & Hget).
  cbn [variation_entry pv_openapi pv_implemented pv_summary pv_tags].
  exists o. split; [exact Hin|].
  split; [apply dict_mem_false; exact Hmem|].
  rewrite (build_impl_normalized_get _ _ _ (normalized_op_key o) Hn) in Hget.
  destruct (last_with_normalized (normalized_op_key o) impl) as [k'|] eqn:El;
    [|discriminate].
  inversion Hget; subst k'.
  destruct (last_with_normalized_Some _ _ _ El) as [Hk Hnk].
  auto 6.
Qed.

Lemma path_variation_sound_witness :
  exists op,
    In ("GET /tournaments/{tournamentId}", op)
       [("GET /tournaments/{tournamentId}",
         {| oa_key := "GET /tournaments/{tournamentId}";
            oa_path := "/tournaments/{tournamentId}";
            oa_method := "GET";
            oa_summary := JStr "Get a tournament";
            oa_tags := JArr [JStr "Broadcasts"];
            oa_deprecated := false;
            oa_normalizedPath := "/tournaments/{param}" |})]
    /\ normalized_impl_key "GET /tournaments/{broadcastTournamentId}"
       = Ok (normalized_op_key op).
Proof.
  destruct (path_variation_sound sample_cfg
              (tournament_world tournament_op "GET") false
              (one_path_spec "/tournaments/{tournamentId}"
                 (JObj [("get", tournament_op)]))
              _ _ _ eq_refl eq_refl eq_refl eq_refl
              {| pv_openapi := "GET /tournaments/{tournamentId}";
                 pv_implemented := "GET /tournaments/{broadcastTournamentId}";
                 pv_summary := JStr "Get a tournament";
                 pv_tags := JArr [JStr "Broadcasts"] |}
              (or_introl eq_refl))
    as (op & Hin & _ & _ & Hn & _).
  exists op. split; [exact Hin | exact Hn].
Defined.

(** X18. Every operation reported missing is an indexed operation whose key
    is not a registry key and whose normalized key is the normalized key of
    no registry key. *)
Theorem missing_sound cfg w dep spec ops impl r :
  load_json w (OPENAPI_PATH cfg) = Ok spec ->
  collect_openapi_ops dep spec = Ok ops ->
  _parse_implemented_endpoints cfg w = Ok impl ->
  get_coverage_gaps cfg w dep = Ok r ->
  forall e,
    In e (missing r) ->
    exists op,
      In (me_key e, op) ops
      /\ e = missing_entry (me_key e) op
      /\ ~ In (me_key e) (dict_keys impl)
      /\ forall k, In k (dict_keys impl) ->
                   normalized_impl_key k <> Ok (normalized_op_key op).
Proof.
  intros Hload Hops Himpl Hr e He.
  destruct (get_coverage_gaps_run cfg w dep Hload Hops Himpl)
    as (implnorm & ms & pvs & ex & Hn & Hcat & _ & Hrun).
  rewrite Hrun in Hr. inversion Hr; subst r; clear Hr.
  cbn [missing] in He. apply sorted_by_In in He.
  destruct (proj1 (categorize_In _ _ _ _ _ Hcat) e He)
    as (k & o & Hin & -> & Hmem & Hget).
  cbn [missing_entry me_key]. exists o.
  split; [exact Hin|]. split; [reflexivity|].
  split; [apply dict_mem_false; exact Hmem|].
  rewrite (build_impl_normalized_get _ _ _ (normalized_op_key o) Hn) in Hget.
  destruct (last_with_normalized (normalized_op_key o) impl) eqn:El;
    [discriminate|].
  apply (last_with_normalized_None _ _ El).
Qed.

Lemma missing_sound_witness :
  exists op,
    In ("GET /tournaments/{tournamentId}", op)
       [("GET /tournaments/{tournamentId}",
         {| oa_key := "GET /tournaments/{tournamentId}";
            oa_path := "/tournaments/{tournamentId}";
            oa_method := "GET";
            oa_summary := JStr "Get a tournament";
            oa_tags := JArr [JStr "Broadcasts"];
            oa_deprecated := false;
            oa_normalizedPath := "/tournaments/{param}" |})]
    /\ ~ In "GET /tournaments/{tournamentId}"
         ["t /tournaments/{broadcastTournamentId}"].
Proof.
  destruct (missing_sound sample_cfg
              (tournament_world tournament_op "t") false
              (one_path_spec "/tournaments/{tournamentId}"
                 (JObj [("get", tournament_op)]))
              _ _ _ eq_refl eq_refl eq_refl eq_refl
              {| me_key := "GET /tournaments/{tournamentId}";
                 me_summary := JStr "Get a tournament";
                 me_tags := JArr [JStr "Broadcasts"];
                 me_deprecated := false |}
              (or_introl eq_refl))
    as (op & Hin & _ & Hnot & _).
  exists op. split; [exact Hin | exact Hnot].
Defined.

Lemma categorize_all_exact impl implnorm ops :
  (forall k, In k (dict_keys ops) -> In k (dict_keys impl)) ->
  categorize impl implnorm ops = ([], []).
Proof.
  induction ops as [|[key op] r IH]; cbn [categorize]; intros H;
    [reflexivity|].
  rewrite IH by (intros k Hk; apply H; right; exact Hk).
  rewrite (proj2 (dict_mem_keys key impl) (H key (or_introl eq_refl))).
  reflexivity.
Qed.

(** X19. Nothing is reported missing and no path variation is reported
    exactly when every indexed OpenAPI key is a registry key. *)
Theorem full_coverage cfg w dep spec ops impl r :
  load_json w (OPENAPI_PATH cfg) = Ok spec ->
  collect_openapi_ops dep spec = Ok ops ->
  _parse_implemented_endpoints cfg w = Ok impl ->
  get_coverage_gaps cfg w dep = Ok r ->
  (missing r = [] /\ pathVariations r = [])
  <-> (forall k, In k (dict_keys ops) -> In k (dict_keys impl)).
Proof.
  intros Hload Hops Himpl Hr.
  destruct (get_coverage_gaps_run cfg w dep Hload Hops Himpl)
    as (implnorm & ms & pvs & ex & _ & Hcat & _ & Hrun).
  rewrite Hrun in Hr. inversion Hr; subst r; clear Hr.
  cbn [missing pathVariations]. split.
  - intros [Hm Hv] k Hk.
    pose proof (categorize_partition _ _ _ Hcat) as Hperm.
    assert (ms = []).
    { apply Permutation_nil. rewrite <- Hm. apply sorted_by_perm. }
    assert (pvs = []).
    { apply Permutation_nil. rewrite <- Hv. apply sorted_by_perm. }
    subst ms pvs. cbn [map] in Hperm. rewrite !app_nil_r in Hperm.
    apply (Permutation_in _ Hperm) in Hk.
    unfold exact_matched in Hk. apply filter_In in Hk.
    apply dict_mem_keys. tauto.
  - intros Hall. rewrite (categorize_all_exact _ implnorm _ Hall) in Hcat.
    inversion Hcat; subst. split; reflexivity.
Qed.

Lemma full_coverage_witness :
  (@nil MissingEntry = [] /\ @nil PathVariation = [])
  <-> (forall k, In k ["POST /b"] -> In k ["POST /b"]).
Proof.
  exact (full_coverage sample_cfg
           (world_of [(OPENAPI_PATH sample_cfg,
                       one_path_spec "/b"
                         (JObj [("post", JObj [("summary", JStr "b")])]))]
                     [(IMPLEMENTED_ENDPOINTS_PATH sample_cfg,
                       registry_line "POST" "/b" "Demo" "PostBAsync")])
           false
           (one_path_spec "/b" (JObj [("post", JObj [("summary", JStr "b")])]))
           [("POST /b", {| oa_key := "POST /b"; oa_path := "/b";
                           oa_method := "POST"; oa_summary := JStr "b";
                           oa_tags := JArr []; oa_deprecated := false;
                           oa_normalizedPath := "/b" |})]
           [("POST /b", {| ii_api := "Demo"; ii_method := "PostBAsync";
                           ii_path := "/b" |})]
           {| stats := {| openApiTotal := 1; implementedTotal := 1;
                          missingCount := 0; pathVariationsCount := 0;
                          extraCount := 0 |};
              missing := []; pathVariations := []; extra := [] |}
           eq_refl eq_refl eq_refl eq_refl).
Defined.

Lemma extra_step_key ops norm kv e :
  extra_step ops norm kv = Ok (Some e) -> ex_key e = fst kv.
Proof.
  destruct kv as [k info]. intros H. apply extra_step_Some in H.
  destruct H as (-> & _). reflexivity.
Qed.

Lemma dict_pairs_NoDup (V : Type) (d : dict V) :
  NoDup (dict_keys d) ->
  NoDup d /\ forall x y, In x d -> In y d -> fst x = fst y -> x = y.
Proof.
  intros ND. split.
  - apply (NoDup_map_inv fst). exact ND.
  - intros [k v] [k' v'] Hx Hy Hk. cbn [fst] in Hk. subst k'.
    apply (dict_get_unique _ _ _ ND) in Hx, Hy. congruence.
Qed.

(** X20. In a coverage result the three lists are in increasing order of
    their key, [extra] names no registry key twice, [extraCount] is the
    length of [extra] and [implementedTotal] is the number of distinct
    registry keys. *)
Theorem coverage_result_shape cfg w dep r :
  get_coverage_gaps cfg w dep = Ok r ->
  Sorted (key_le me_key) (missing r)
  /\ Sorted (key_le pv_openapi) (pathVariations r)
  /\ Sorted (key_le ex_key) (extra r)
  /\ NoDup (map ex_key (extra r))
  /\ extraCount (stats r) = List.length (extra r)
  /\ exists impl,
       _parse_implemented_endpoints cfg w = Ok impl
       /\ implementedTotal (stats r) = List.length (dict_keys impl)
       /\ NoDup (dict_keys impl).
Proof.
  intros Hr.
  destruct (get_coverage_gaps_inputs _ _ _ Hr)
    as (spec & ops & impl & Hload & Hops & Himpl).
  destruct (get_coverage_gaps_run cfg w dep Hload Hops Himpl)
    as (implnorm & ms & pvs & ex & _ & _ & Hex & Hrun).
  rewrite Hrun in Hr. inversion Hr; subst r; clear Hr.
  cbn [missing pathVariations extra stats extraCount implementedTotal].
  pose proof (parsed_registry_NoDup _ _ _ Himpl) as NDk.
  destruct (dict_pairs_NoDup _ _ NDk) as [NDp Hinj].
  repeat (split; [apply sorted_by_Sorted|]).
  split; [|split].
  - eapply Permutation_NoDup; [symmetry; apply sorted_by_map_perm|].
    apply (for_collect_keys_NoDup _ _ fst ex_key
             (extra_step ops (openapi_normalized_of ops)) impl ex NDp Hinj);
      [|exact Hex].
    intros x a. apply extra_step_key.
  - symmetry. apply sorted_by_length.
  - exists impl. split; [exact Himpl|]. split; [|exact NDk].
    unfold dict_keys. rewrite length_map. reflexivity.
Qed.

Lemma coverage_result_shape_witness :
  NoDup (map ex_key [{| ex_key := "t /tournaments/{broadcastTournamentId}";
                        ex_api := "lichess";
                        ex_method := "GetBroadcastTournament" |}]).
Proof.
  apply (coverage_result_shape sample_cfg
           (tournament_world tournament_op "t") false
           {| stats := {| openApiTotal := 1; implementedTotal := 1;
                          missingCount := 1; pathVariationsCount := 0;
                          extraCount := 1 |};
              missing := [{| me_key := "GET /tournaments/{tournamentId}";
                             me_summary := JStr "Get a tournament";
                             me_tags := JArr [JStr "Broadcasts"];
                             me_deprecated := false |}];
              pathVariations := [];
              extra := [{| ex_key := "t /tournaments/{broadcastTournamentId}";
                           ex_api := "lichess";
                           ex_method := "GetBroadcastTournament" |}] |}).
  reflexivity.
Defined.


Lemma collect_openapi_ops_inv dep spec ops :
  collect_openapi_ops dep spec = Ok ops ->
  exists pj items assignments,
    py_get_default spec "paths" (JObj []) = Ok pj
    /\ py_items_of pj = Ok items
    /\ for_concat
         (fun '(p, item) =>
            for_collect (openapi_ops_step dep p item) METHODS) items
       = Ok assignments
    /\ ops = dict_of_pairs assignments.
Proof.
  unfold collect_openapi_ops. intros H.
  bind_inv H. bind_inv H. bind_inv H. inversion H; subst.
  exists a, a0, a1. auto.
Qed.



(* ------------------------------------------------------------------ *)
(** ** [generate_coverage_report] *)




Lemma generate_inv rc w run r :
  generate_coverage_report rc w run = Ok r ->
  (path_exists w (COVERAGE_SCRIPT_PATH rc) = false
   /\ r = ReportError ("Coverage script not found: " ++ COVERAGE_SCRIPT_PATH rc))
  \/ (path_exists w (COVERAGE_SCRIPT_PATH rc) = true
      /\ exists code stdout stderr,
           run (pwsh_command rc) (ROOT rc) = RunCompleted code stdout stderr
           /\ r = ReportRun (Z.eqb code 0) code (last_chars 4000 stdout)
                            (last_chars 4000 stderr) (COVERAGE_REPORT_PATH rc))
  \/ (path_exists w (COVERAGE_SCRIPT_PATH rc) = true
      /\ run (pwsh_command rc) (ROOT rc) = RunFileNotFound
      /\ exists code stdout stderr,
           run (powershell_command rc) (ROOT rc)
           = RunCompleted code stdout stderr
           /\ r = ReportRun (Z.eqb code 0) code (last_chars 4000 stdout)
                            (last_chars 4000 stderr) (COVERAGE_REPORT_PATH rc))
  \/ (path_exists w (COVERAGE_SCRIPT_PATH rc) = true
      /\ run (pwsh_command rc) (ROOT rc) = RunFileNotFound
      /\ run (powershell_command rc) (ROOT rc) = RunFileNotFound
      /\ r = ReportError
               "PowerShell not found. Tried pwsh and powershell. Last error: powershell not found").
Proof.
  unfold generate_coverage_report.
  destruct (path_exists w (COVERAGE_SCRIPT_PATH rc)); cbn [negb].
  - unfold ps_commands. cbn [try_commands].
    fold (pwsh_command rc). fold (powershell_command rc).
    destruct (run (pwsh_command rc) (ROOT rc)) as [|e|code out err].
    + destruct (run (powershell_command rc) (ROOT rc)) as [|e|code out err].
      * intros H; inversion H; subst. right; right; right. auto.
      * discriminate.
      * intros H; inversion H; subst. right; right; left.
        split; [reflexivity|]. split; [reflexivity|]. eauto.
    + discriminate.
    + intros H; inversion H; subst. right; left.
      split; [reflexivity|]. eauto.
  - intros H; inversion H; subst. left. auto.
Qed.



(** X23. An error result means one of two things: the script is not there
    (and then no process is started, whatever the launcher would do), or
    starting pwsh and starting powershell both raised [FileNotFoundError];
    the message says which. *)
Theorem report_error_causes rc w run e :
  generate_coverage_report rc w run = Ok (ReportError e) <->
  (path_exists w (COVERAGE_SCRIPT_PATH rc) = false
   /\ e = "Coverage script not found: " ++ COVERAGE_SCRIPT_PATH rc)
  \/ (path_exists w (COVERAGE_SCRIPT_PATH rc) = true
      /\ run (pwsh_command rc) (ROOT rc) = RunFileNotFound
      /\ run (powershell_command rc) (ROOT rc) = RunFileNotFound
      /\ e = "PowerShell not found. Tried pwsh and powershell. Last error: powershell not found").
Proof.
  split.
  - intros H. apply generate_inv in H.
    destruct H as [[He H]|[(_ & c & so & se & _ & H)
                         |[(_ & _ & c & so & se & _ & H)|(He & H1 & H2 & H)]]];
      try discriminate; inversion H; subst; auto.
  - unfold generate_coverage_report.
    intros [[-> ->]|(-> & H1 & H2 & ->)]; cbn [negb]; [reflexivity|].
    unfold ps_commands. cbn [try_commands].
    fold (pwsh_command rc). fold (powershell_command rc).
    rewrite H1, H2. reflexivity.
Qed.

Lemma report_error_causes_witness :
  generate_coverage_report sample_report_cfg (world_of [] []) powershell_only
  = Ok (ReportError
          "Coverage script not found: /repo/tools/Generate-Coverage.ps1").
Proof.
  apply (proj2 (report_error_causes sample_report_cfg (world_of [] [])
                  powershell_only
                  "Coverage script not found: /repo/tools/Generate-Coverage.ps1")).
  left. split; reflexivity.
Defined.

(** X24. The only faults that leave [generate_coverage_report] are those the
    launcher raises other than a missing program: a script that exits with a
    non-zero code, or a missing pwsh, is reported in the result. *)
Theorem report_raises_only_launcher_faults rc w run e :
  generate_coverage_report rc w run = Raise e <->
  path_exists w (COVERAGE_SCRIPT_PATH rc) = true
  /\ (run (pwsh_command rc) (ROOT rc) = RunRaises e
      \/ (run (pwsh_command rc) (ROOT rc) = RunFileNotFound
          /\ run (powershell_command rc) (ROOT rc) = RunRaises e)).
Proof.
  unfold generate_coverage_report, ps_commands.
  fold (pwsh_command rc). fold (powershell_command rc).
  destruct (path_exists w (COVERAGE_SCRIPT_PATH rc)); cbn [negb try_commands].
  - destruct (run (pwsh_command rc) (ROOT rc)) as [|e1|c so se].
    + destruct (run (powershell_command rc) (ROOT rc)) as [|e2|c so se].
      * split; [discriminate|]. intros (_ & [H|[_ H]]); discriminate.
      * split.
        -- intros H; inversion H; subst. auto.
        -- intros (_ & [H|[_ H]]); [discriminate|]. congruence.
      * split; [discriminate|]. intros (_ & [H|[_ H]]); discriminate.
    + split.
      * intros H; inversion H; subst. auto.
      * intros (_ & [H|[H _]]); [congruence | discriminate].
    + split; [discriminate|]. intros (_ & [H|[H _]]); discriminate.
  - split; [discriminate|]. intros [H _]. discriminate.
Qed.

Lemma report_raises_only_launcher_faults_witness :
  generate_coverage_report sample_report_cfg script_world
    (fun _ _ => RunRaises OSError) = Raise OSError.
Proof.
  apply (proj2 (report_raises_only_launcher_faults sample_report_cfg
                  script_world (fun _ _ => RunRaises OSError) OSError)).
  split; [reflexivity | left; reflexivity].
Defined.

(* ------------------------------------------------------------------ *)
(** ** [get_openapi_version] *)

(** X25. A document without an [info] member gives the title and version
    [None] and no error; an [info] member that is an object gives its two
    members, [None] for a missing one; any other [info] member, [null]
    included, raises [AttributeError]. *)
Theorem version_of_document cfg w top :
  load_json w (OPENAPI_PATH cfg) = Ok (JObj top) ->
  match dict_get "info" (py_items top) with
  | None =>
      get_openapi_version cfg w = Ok {| vi_title := JNull; vi_version := JNull |}
  | Some (JObj info) =>
      get_openapi_version cfg w =
      Ok {| vi_title := match dict_get "title" (py_items info) with
                        | Some v => v
                        | None => JNull
                        end;
            vi_version := match dict_get "version" (py_items info) with
                          | Some v => v
                          | None => JNull
                          end |}
  | Some _ => get_openapi_version cfg w = Raise AttributeError
  end.
Proof.
  intros Hload. unfold get_openapi_version, _load_openapi.
  rewrite Hload. cbn [bind py_get_default].
  destruct (dict_get "info" (py_items top)) as [[| | | | |info]|];
    cbn [bind py_get]; try reflexivity.
  destruct (dict_get "title" (py_items info));
    destruct (dict_get "version" (py_items info)); reflexivity.
Qed.

Lemma version_of_document_witness :
  get_openapi_version sample_cfg (tournament_world tournament_op "GET") =
  Ok {| vi_title := JStr "Lichess.org API reference";
        vi_version := JStr "2.0.107" |}.
Proof.
  exact (version_of_document sample_cfg (tournament_world tournament_op "GET")
           _ eq_refl).
Defined.

(* ------------------------------------------------------------------ *)
(** ** The coverage universe, the listing and the diff *)

Section SameKeys.
Variables X A B : Type.
Variable f : A -> string.
Variable g : B -> string.

Lemma for_collect_same_keys (b1 : X -> res (option A))
    (b2 : X -> res (option B)) xs :
  (forall x, match b1 x, b2 x with
             | Ok o1, Ok o2 => option_map f o1 = option_map g o2
             | Raise _, Raise _ => True
             | _, _ => False
             end) ->
  match for_collect b1 xs, for_collect b2 xs with
  | Ok l1, Ok l2 => map f l1 = map g l2
  | Raise _, Raise _ => True
  | _, _ => False
  end.
Proof.
  intros H. induction xs as [|x r IH]; cbn [for_collect]; [reflexivity|].
  specialize (H x).
  destruct (b1 x) as [o1|], (b2 x) as [o2|]; cbn [bind]; try tauto.
  destruct (for_collect b1 r) as [l1|], (for_collect b2 r) as [l2|];
    cbn [bind]; try tauto.
  destruct o1, o2; cbn [option_map] in H; try discriminate; cbn [map].
  - inversion H. congruence.
  - exact IH.
Qed.

Lemma for_concat_same_keys (b1 : X -> res (list A))
    (b2 : X -> res (list B)) xs :
  (forall x, match b1 x, b2 x with
             | Ok l1, Ok l2 => map f l1 = map g l2
             | Raise _, Raise _ => True
             | _, _ => False
             end) ->
  match for_concat b1 xs, for_concat b2 xs with
  | Ok l1, Ok l2 => map f l1 = map g l2
  | Raise _, Raise _ => True
  | _, _ => False
  end.
Proof.
  intros H. induction xs as [|x r IH]; cbn [for_concat]; [reflexivity|].
  specialize (H x).
  destruct (b1 x) as [r1|], (b2 x) as [r2|]; cbn [bind]; try tauto.
  destruct (for_concat b1 r) as [l1|], (for_concat b2 r) as [l2|];
    cbn [bind]; try tauto.
  rewrite !map_app. congruence.
Qed.
End SameKeys.

Lemma steps_same_key dep p item m :
  match list_operations_step None dep p item m,
        openapi_ops_step dep p item m with
  | Ok o1, Ok o2 => option_map os_key o1 = option_map fst o2
  | Raise _, Raise _ => True
  | _, _ => False
  end.
Proof.
  unfold list_operations_step, openapi_ops_step.
  destruct (py_contains m item) as [[|]|]; cbn [bind]; try exact I;
    [|reflexivity].
  destruct (py_index item m) as [op|]; cbn [bind]; [|exact I].
  destruct (skip_deprecated dep op) as [[|]|]; cbn [bind]; try exact I;
    [reflexivity|].
  destruct op as [| | | | |members]; try exact I.
  unfold py_get, py_get_default.
  destruct (dict_get "tags" (py_items members));
    destruct (dict_get "summary" (py_items members));
    destruct (dict_get "deprecated" (py_items members)); reflexivity.
Qed.

(** X26. The coverage tool and the listing see the same operations: for
    the same [include_deprecated] and no tag, the keys listed by
    [list_operations] are the keys of the OpenAPI index of
    [get_coverage_gaps], and [count] equals [openApiTotal]. *)
Theorem listing_is_coverage_universe cfg w dep l r :
  list_operations cfg w None dep = Ok l ->
  get_coverage_gaps cfg w dep = Ok r ->
  count l = openApiTotal (stats r)
  /\ exists spec ops,
       load_json w (OPENAPI_PATH cfg) = Ok spec
       /\ collect_openapi_ops dep spec = Ok ops
       /\ Permutation (map os_key (operations l)) (dict_keys ops).
Proof.
  intros Hl Hr.
  destruct (list_operations_inv _ _ _ _ _ Hl)
    as (spec & pj & items & lops & Hload & Hp & Hitems & Hloop & Hops & Hc).
  destruct (get_coverage_gaps_inputs _ _ _ Hr)
    as (spec' & ops & impl & Hload' & Hcol & Himpl).
  assert (spec' = spec) by congruence. subst spec'.
  destruct (get_coverage_gaps_run cfg w dep Hload Hcol Himpl)
    as (? & ? & ? & ? & _ & _ & _ & Hrun).
  rewrite Hrun in Hr. inversion Hr; subst r; clear Hr Hrun.
  cbn [stats openApiTotal].
  destruct (collect_openapi_ops_inv _ _ _ Hcol)
    as (pj' & items' & asg & Hp' & Hitems' & Hloop' & ->).
  assert (pj' = pj) by congruence. subst pj'.
  assert (items' = items) by congruence. subst items'.
  assert (Hkeys : map os_key lops = map fst asg).
  { pose proof (for_concat_same_keys _ _ _ os_key fst
        (fun '(p, item) =>
           for_collect (list_operations_step None dep p item) METHODS)
        (fun '(p, item) =>
           for_collect (openapi_ops_step dep p item) METHODS) items) as Hsame.
    rewrite Hloop, Hloop' in Hsame. apply Hsame.
    intros [p item].
    apply (for_collect_same_keys _ _ _ os_key fst). intros m.
    apply steps_same_key. }
  assert (NDasg : NoDup (map fst asg)).
  { apply (nested_loop_keys_NoDup _ fst (openapi_ops_step dep) items).
    - intros p item m [k o] Hs. apply (openapi_ops_step_key _ _ _ _ Hs).
    - apply (py_items_of_NoDup _ _ Hitems).
    - exact Hloop'. }
  assert (Hperm : Permutation (dict_keys (dict_of_pairs asg)) (map fst asg)).
  { apply NoDup_Permutation; [apply dict_of_pairs_NoDup | exact NDasg|].
    intros k. apply dict_of_pairs_keys. }
  split.
  - rewrite Hc. apply Permutation_length in Hperm.
    unfold dict_keys in Hperm. rewrite !length_map in Hperm.
    rewrite Hperm. rewrite <- (length_map os_key lops), Hkeys, length_map.
    reflexivity.
  - exists spec, (dict_of_pairs asg). split; [exact Hload|].
    split; [exact Hcol|].
    rewrite Hops, sorted_by_map_perm, Hkeys. symmetry. exact Hperm.
Qed.

Lemma listing_is_coverage_universe_witness : 2 = 2.
Proof.
  exact (proj1 (listing_is_coverage_universe sample_cfg (ab_world false) false
    {| count := 2;
       operations := [{| os_key := "GET /a"; os_summary := JStr "a";
                         os_tags := JArr []; os_deprecated := false |};
                      {| os_key := "POST /b"; os_summary := JStr "b";
                         os_tags := JArr []; os_deprecated := false |}] |}
    {| stats := {| openApiTotal := 2; implementedTotal := 0;
                   missingCount := 2; pathVariationsCount := 0;
                   extraCount := 0 |};
       missing := [{| me_key := "GET /a"; me_summary := JStr "a";
                      me_tags := JArr []; me_deprecated := false |};
                   {| me_key := "POST /b"; me_summary := JStr "b";
                      me_tags := JArr []; me_deprecated := false |}];
       pathVariations := []; extra := [] |}
    eq_refl eq_refl)).
Defined.

Lemma openapi_ops_step_member dep p item m k o :
  openapi_ops_step dep p item m = Ok (Some (k, o)) ->
  exists im, item = JObj im /\ In m (dict_keys (py_items im)).
Proof.
  unfold openapi_ops_step. intros H.
  bind_inv H. destruct a; [|discriminate]. bind_inv H.
  destruct item as [| | | | |im]; try discriminate.
  exists im. split; [reflexivity|].
  unfold py_index in E0.
  destruct (dict_get m (py_items im)) as [v|] eqn:Eg; [|discriminate].
  apply dict_get_In in Eg. change m with (fst (m, v)).
  apply in_map. exact Eg.
Qed.

(** X27. On one document, every key of the OpenAPI index of the coverage
    tool is among the keys the diff gathers: the diff sees at least the
    operations the other tools see. *)
Theorem indexed_keys_are_collected dep spec ops keys :
  collect_openapi_ops dep spec = Ok ops ->
  collect spec = Ok keys ->
  incl (dict_keys ops) keys.
Proof.
  intros Hops Hcol k Hk.
  destruct (collect_openapi_ops_inv _ _ _ Hops)
    as (pj & items & asg & Hp & Hitems & Hloop & ->).
  destruct (collect_membership _ _ Hcol) as (pj' & paths & Hp' & Hitems' & Hin).
  assert (pj' = pj) by congruence. subst pj'.
  assert (paths = items) by congruence. subst paths.
  apply (proj1 (dict_of_pairs_keys _ _)) in Hk.
  apply in_map_iff in Hk. destruct Hk as ([k' o] & Hk & Hkv).
  cbn [fst] in Hk. subst k'.
  apply (nested_loop_In _ _ Hloop) in Hkv.
  destruct Hkv as (p & item & m & Hpi & _ & Hstep).
  pose proof (openapi_ops_step_key _ _ _ _ Hstep) as ->.
  destruct (openapi_ops_step_member _ _ _ _ _ _ Hstep) as (im & -> & Hm).
  apply Hin. exists p, im, m. auto.
Qed.

Lemma indexed_keys_are_collected_witness :
  incl ["GET /api/account/{id}"]
       ["PARAMETERS /api/account/{id}"; "GET /api/account/{id}"].
Proof.
  exact (indexed_keys_are_collected false
           (one_path_spec "/api/account/{id}" account_item)
           [("GET /api/account/{id}",
             {| oa_key := "GET /api/account/{id}";
                oa_path := "/api/account/{id}";
                oa_method := "GET";
                oa_summary := JStr "Get my profile";
                oa_tags := JArr [];
                oa_deprecated := false;
                oa_normalizedPath := "/api/account/{param}" |})]
           ["PARAMETERS /api/account/{id}"; "GET /api/account/{id}"]
           eq_refl eq_refl).
Defined.

Lemma categorize_variation_complete impl implnorm ops : forall ms pvs,
  categorize impl implnorm ops = (ms, pvs) ->
  forall k o ik,
    In (k, o) ops ->
    dict_mem k impl = false ->
    dict_get (normalized_op_key o) implnorm = Some ik ->
    In (variation_entry k ik o) pvs.
Proof.
  induction ops as [|[key op] r IH]; cbn [categorize];
    intros ms pvs H k o ik Hin Hmem Hget; [contradiction|].
  destruct (categorize impl implnorm r) as [ms' pvs'].
  specialize (IH _ _ eq_refl k o ik).
  destruct Hin as [Heq|Hin].
  - inversion Heq; subst. rewrite Hmem, Hget in H.
    inversion H; subst. left. reflexivity.
  - specialize (IH Hin Hmem Hget).
    destruct (dict_mem key impl); [inversion H; subst; exact IH|].
    destruct (dict_get (normalized_op_key op) implnorm);
      inversion H; subst; [right|]; exact IH.
Qed.

(** X28. An indexed operation whose key is not a registry key is reported
    as a path variation, and not as missing, as soon as some registry key
    has its normalized key. *)
Theorem path_variation_complete cfg w dep spec ops impl r :
  load_json w (OPENAPI_PATH cfg) = Ok spec ->
  collect_openapi_ops dep spec = Ok ops ->
  _parse_implemented_endpoints cfg w = Ok impl ->
  get_coverage_gaps cfg w dep = Ok r ->
  forall key op k',
    In (key, op) ops ->
    ~ In key (dict_keys impl) ->
    In k' (dict_keys impl) ->
    normalized_impl_key k' = Ok (normalized_op_key op) ->
    In key (map pv_openapi (pathVariations r))
    /\ ~ In key (map me_key (missing r)).
Proof.
  intros Hload Hops Himpl Hr key op k' Hin Hnot Hk' Hnk'.
  destruct (get_coverage_gaps_run cfg w dep Hload Hops Himpl)
    as (implnorm & ms & pvs & ex & Hn & Hcat & _ & Hrun).
  rewrite Hrun in Hr. inversion Hr; subst r; clear Hr.
  cbn [pathVariations missing].
  assert (Hget : exists ik,
             dict_get (normalized_op_key op) implnorm = Some ik).
  { rewrite (build_impl_normalized_get _ _ _ (normalized_op_key op) Hn).
    destruct (last_with_normalized (normalized_op_key op) impl) as [ik|] eqn:El;
      [eauto|].
    exfalso. apply (last_with_normalized_None _ _ El k' Hk'). exact Hnk'. }
  destruct Hget as [ik Hget]. apply dict_mem_false in Hnot.
  split.
  - apply in_map_iff. exists (variation_entry key ik op).
    split; [reflexivity|]. apply sorted_by_In.
    apply (categorize_variation_complete _ _ _ _ _ Hcat); assumption.
  - intros Hm. apply in_map_iff in Hm. destruct Hm as (e & Hk & He).
    apply sorted_by_In in He.
    destruct (proj1 (categorize_In _ _ _ _ _ Hcat) e He)
      as (k & o & Hin' & -> & _ & Hnone).
    cbn [missing_entry me_key] in Hk. subst k.
    pose proof (collect_openapi_ops_NoDup _ _ Hops) as ND.
    apply (dict_get_unique _ _ _ ND) in Hin, Hin'.
    assert (o = op) by congruence. subst o. congruence.
Qed.

Lemma path_variation_complete_witness :
  In "GET /tournaments/{tournamentId}"
     (map pv_openapi
        [{| pv_openapi := "GET /tournaments/{tournamentId}";
            pv_implemented := "GET /tournaments/{broadcastTournamentId}";
            pv_summary := JStr "Get a tournament";
            pv_tags := JArr [JStr "Broadcasts"] |}])
  /\ ~ In "GET /tournaments/{tournamentId}" (map me_key []).
Proof.
  apply (path_variation_complete sample_cfg
           (tournament_world tournament_op "GET") false
           (one_path_spec "/tournaments/{tournamentId}"
              (JObj [("get", tournament_op)]))
           [("GET /tournaments/{tournamentId}",
             {| oa_key := "GET /tournaments/{tournamentId}";
                oa_path := "/tournaments/{tournamentId}";
                oa_method := "GET";
                oa_summary := JStr "Get a tournament";
                oa_tags := JArr [JStr "Broadcasts"];
                oa_deprecated := false;
                oa_normalizedPath := "/tournaments/{param}" |})]
           [("GET /tournaments/{broadcastTournamentId}",
             {| ii_api := "lichess"; ii_method := "GetBroadcastTournament";
                ii_path := "/tournaments/{broadcastTournamentId}" |})]
           {| stats := {| openApiTotal := 1; implementedTotal := 1;
                          missingCount := 0; pathVariationsCount := 1;
                          extraCount := 0 |};
              missing := [];
              pathVariations :=
                [{| pv_openapi := "GET /tournaments/{tournamentId}";
                    pv_implemented := "GET /tournaments/{broadcastTournamentId}";
                    pv_summary := JStr "Get a tournament";
                    pv_tags := JArr [JStr "Broadcasts"] |}];
              extra := [] |}
           eq_refl eq_refl eq_refl eq_refl
           "GET /tournaments/{tournamentId}"
           {| oa_key := "GET /tournaments/{tournamentId}";
              oa_path := "/tournaments/{tournamentId}";
              oa_method := "GET";
              oa_summary := JStr "Get a tournament";
              oa_tags := JArr [JStr "Broadcasts"];
              oa_deprecated := false;
              oa_normalizedPath := "/tournaments/{param}" |}
           "GET /tournaments/{broadcastTournamentId}").
  - left. reflexivity.
  - simpl. intros [H|[]]. discriminate H.
  - left. reflexivity.
  - reflexivity.
Defined.

(* ------------------------------------------------------------------ *)
(** ** Extra endpoints, in terms of the two documents *)

Lemma split_space_Some s : forall a b,
  split_space s = Some (a, b) ->
  s = a ++ " " ++ b /\ has_char " " a = false.
Proof.
  induction s as [|c t IH]; cbn [split_space]; intros a b H; [discriminate|].
  destruct (Ascii.eqb c " ") eqn:E.
  - inversion H; subst. apply Ascii.eqb_eq in E. subst c.
    split; reflexivity.
  - destruct (split_space t) as [[a' b']|]; [|discriminate].
    inversion H; subst. destruct (IH _ _ eq_refl) as [Ht Hn].
    split.
    + rewrite Ht at 1. reflexivity.
    + cbn [has_char]. rewrite E, Hn. reflexivity.
Qed.

Lemma split_space_first method path :
  has_char " " method = false ->
  split_space (method ++ " " ++ path) = Some (method, path).
Proof.
  induction method as [|c t IH]; intros H.
  - reflexivity.
  - cbn [has_char] in H. apply orb_false_iff in H. destruct H as [Hc Ht].
    change (String c t ++ " " ++ path) with (String c (t ++ " " ++ path)).
    cbn [split_space]. rewrite Hc, (IH Ht). reflexivity.
Qed.

(** [key.split(" ", 1)] followed by the f-string, written out. *)
Lemma normalized_impl_key_Ok key n :
  normalized_impl_key key = Ok n <->
  exists method path,
    key = method ++ " " ++ path
    /\ has_char " " method = false
    /\ n = method ++ " " ++ _normalize_path path.
Proof.
  unfold normalized_impl_key. split.
  - destruct (split_space key) as [[method path]|] eqn:E; [|discriminate].
    intros H. inversion H; subst.
    destruct (split_space_Some _ _ _ E) as [Hk Hn].
    exists method, path. auto.
  - intros (method & path & -> & Hn & ->).
    rewrite (split_space_first _ path Hn). reflexivity.
Qed.

(** What the first loop stores for an operation. *)
Lemma openapi_ops_step_shape dep p item m k o :
  openapi_ops_step dep p item m = Ok (Some (k, o)) ->
  k = _op_key m p
  /\ oa_key o = k /\ oa_path o = p
  /\ oa_method o = upper m /\ oa_normalizedPath o = _normalize_path p.
Proof.
  unfold openapi_ops_step. intros H.
  bind_inv H. destruct a; [|discriminate].
  bind_inv H. bind_inv H. destruct a0; [discriminate|].
  bind_inv H. bind_inv H. bind_inv H. inversion H; subst.
  repeat split.
Qed.

Lemma collected_op_shape dep spec ops k op :
  collect_openapi_ops dep spec = Ok ops ->
  In (k, op) ops ->
  exists p m,
    In m METHODS /\ k = _op_key m p
    /\ oa_method op = upper m /\ oa_normalizedPath op = _normalize_path p.
Proof.
  intros Hops Hin.
  destruct (collect_openapi_ops_inv _ _ _ Hops)
    as (pj & items & asg & _ & _ & Hloop & ->).
  apply dict_of_pairs_In in Hin.
  apply (nested_loop_In _ _ Hloop) in Hin.
  destruct Hin as (p & item & m & _ & Hm & Hstep).
  destruct (openapi_ops_step_shape _ _ _ _ _ _ Hstep)
    as (Hk & _ & _ & Hmeth & Hnorm).
  exists p, m. auto.
Qed.

(** C5. An implemented record is reported as extra exactly when its key is
    not a key of the OpenAPI operation index and, the key being split at its
    first space into a method and a path, no operation of the index has that
    method and a normalized path equal to the normalized path of the record.
    Every reported entry comes from a record of the registry.  Every
    operation of the index carries the uppercase form of a recognized method
    and the normalized form of its spec path; so a record whose method is
    the uppercase method of an indexed operation and whose path normalizes
    as that operation's path is never reported, whatever class the
    operation itself was put in and whichever record it was paired with. *)
Theorem extra_iff cfg w dep spec ops impl :
  load_json w (OPENAPI_PATH cfg) = Ok spec ->
  collect_openapi_ops dep spec = Ok ops ->
  _parse_implemented_endpoints cfg w = Ok impl ->
  exists r,
    get_coverage_gaps cfg w dep = Ok r
    /\ (forall key info,
          In (key, info) impl ->
          (In (extra_entry key info) (extra r) <->
           ~ In key (dict_keys ops)
           /\ exists method path,
                key = method ++ " " ++ path
                /\ has_char " " method = false
                /\ forall k op,
                     In (k, op) ops ->
                     oa_method op ++ " " ++ oa_normalizedPath op
                     <> method ++ " " ++ _normalize_path path))
    /\ (forall e,
          In e (extra r) ->
          exists info,
            In (ex_key e, info) impl /\ e = extra_entry (ex_key e) info)
    /\ (forall k op,
          In (k, op) ops ->
          exists p m,
            In m METHODS /\ k = _op_key m p
            /\ oa_method op = upper m
            /\ oa_normalizedPath op = _normalize_path p)
    /\ (forall method path m p,
          has_char " " method = false ->
          In m METHODS ->
          In (_op_key m p) (dict_keys ops) ->
          method = upper m ->
          _normalize_path path = _normalize_path p ->
          ~ In (method ++ " " ++ path) (map ex_key (extra r))).
Proof.
  intros Hload Hops Himpl.
  destruct (get_coverage_gaps_run cfg w dep Hload Hops Himpl)
    as (implnorm & ms & pvs & ex & _ & _ & Hex & Hrun).
  eexists. split; [exact Hrun|]. cbn [extra].
  pose proof (for_collect_In _ _ Hex) as Hin.
  assert (Hnorm : forall n,
            In n (openapi_normalized_of ops) <->
            exists k op, In (k, op) ops
                         /\ oa_method op ++ " " ++ oa_normalizedPath op = n).
  { intros n. unfold openapi_normalized_of. rewrite in_map_iff. split.
    - intros ([k op] & Hn & Hk). exists k, op. auto.
    - intros (k & op & Hk & Hn). exists (k, op). auto. }
  assert (Hstep : forall key info e,
            extra_step ops (openapi_normalized_of ops) (key, info)
            = Ok (Some e) <->
            e = extra_entry key info
            /\ ~ In key (dict_keys ops)
            /\ exists method path,
                 key = method ++ " " ++ path
                 /\ has_char " " method = false
                 /\ forall k op,
                      In (k, op) ops ->
                      oa_method op ++ " " ++ oa_normalizedPath op
                      <> method ++ " " ++ _normalize_path path).
  { intros key info e. rewrite extra_step_Some. split.
    - intros (He & Hk & n & Hn & Hnot). split; [exact He|].
      split; [exact Hk|].
      apply normalized_impl_key_Ok in Hn.
      destruct Hn as (method & path & Hkey & Hsp & ->).
      exists method, path. split; [exact Hkey|]. split; [exact Hsp|].
      intros k op Hin' Heq. apply Hnot. apply Hnorm. eauto.
    - intros (He & Hk & method & path & Hkey & Hsp & Hnot).
      split; [exact He|]. split; [exact Hk|].
      exists (method ++ " " ++ _normalize_path path). split.
      + apply normalized_impl_key_Ok. eauto.
      + intros Hn. apply Hnorm in Hn. destruct Hn as (k & op & Hin' & Heq).
        exact (Hnot _ _ Hin' Heq). }
  split; [|split; [|split]].
  - intros key info Hk. rewrite sorted_by_In, Hin. split.
    + intros ([k' info'] & _ & Hs).
      apply Hstep in Hs. destruct Hs as (He & Hrest).
      inversion He; subst. exact Hrest.
    + intros Hcond. exists (key, info). split; [exact Hk|].
      apply Hstep. split; [reflexivity | exact Hcond].
  - intros e He. apply sorted_by_In in He. apply Hin in He.
    destruct He as ([k info] & Hk & Hs).
    apply Hstep in Hs. destruct Hs as (-> & _).
    exists info. split; [exact Hk | reflexivity].
  - intros k op Hk. exact (collected_op_shape _ _ _ _ _ Hops Hk).
  - intros method path m p Hsp Hm Hkey -> Hpath Hextra.
    apply in_map_iff in Hextra. destruct Hextra as (e & Hek & He).
    apply sorted_by_In in He. apply Hin in He.
    destruct He as ([k info] & _ & Hs).
    apply Hstep in Hs.
    destruct Hs as (-> & _ & method' & path' & Hk' & Hsp' & Hnot).
    cbn [extra_entry ex_key] in Hek. subst k.
    assert (Hsplit : Some (method', path') = Some (upper m, path)).
    { rewrite <- (split_space_first method' path' Hsp'), <- Hk'.
      apply split_space_first. exact Hsp. }
    inversion Hsplit; subst method' path'.
    apply in_map_iff in Hkey. destruct Hkey as ([k op] & Hfst & Hop).
    cbn [fst] in Hfst. subst k.
    destruct (collected_op_shape _ _ _ _ _ Hops Hop)
      as (p' & m' & Hm' & Hkeys & Hmeth & Hnormp).
    destruct (op_key_inj _ _ Hm Hm' Hkeys) as [<- <-].
    apply (Hnot _ _ Hop). rewrite Hmeth, Hnormp, Hpath. reflexivity.
Qed.

Lemma extra_iff_witness :
  exists r,
    get_coverage_gaps sample_cfg variants_world false = Ok r
    /\ map pv_implemented (pathVariations r) = ["GET /tournaments/{id}"]
    /\ map ex_key (extra r) = ["GET /masters"]
    /\ ~ In "GET /tournaments/{broadcastTournamentId}"
           (map ex_key (extra r)).
Proof.
  assert (Hload : load_json variants_world (OPENAPI_PATH sample_cfg)
                  = Ok (one_path_spec "/tournaments/{tournamentId}"
                          (JObj [("get", tournament_op)])))
    by reflexivity.
  assert (Hops : exists ops,
             collect_openapi_ops false
               (one_path_spec "/tournaments/{tournamentId}"
                  (JObj [("get", tournament_op)])) = Ok ops)
    by (vm_compute; eexists; reflexivity).
  destruct Hops as [ops Hops].
  assert (Himpl : exists impl,
             _parse_implemented_endpoints sample_cfg variants_world = Ok impl)
    by (vm_compute; eexists; reflexivity).
  destruct Himpl as [impl Himpl].
  destruct (extra_iff sample_cfg variants_world false _ ops impl
              Hload Hops Himpl)
    as (r & Hr & _ & _ & _ & Hnever).
  vm_compute in Hops. inversion Hops; subst ops; clear Hops.
  exists r. split; [exact Hr|].
  split; [|split].
  - vm_compute in Hr. inversion Hr; subst. reflexivity.
  - vm_compute in Hr. inversion Hr; subst. reflexivity.
  - apply (Hnever "GET" "/tournaments/{broadcastTournamentId}"
             "get" "/tournaments/{tournamentId}").
    + reflexivity.
    + left. reflexivity.
    + left. vm_compute. reflexivity.
    + vm_compute. reflexivity.
    + vm_compute. reflexivity.
Defined.
